(** * Queue primitives and the stream piper of nodejs-ai-glossary

    A shallow embedding of [OrderedQueue], [SerialQueue], [ParalelQueue]
    (queue.ts), of [StreamPiper] (piper.ts) and of [QueueTrackerController]
    (tracker.ts), the properties of their specification, and further
    properties of the code.

    JavaScript runs every synchronous segment of code to completion and
    switches between asynchronous functions only at an [await].  Each model
    below is therefore a transition system whose steps are exactly the
    segments between two awaits of the source; the scheduler (timers, the
    completion of handlers, calls from outside) is the choice of the next
    step.  The handlers, callbacks and event listeners given to the objects
    are code of their users: they are taken not to call back into the
    object from inside the segment that calls them (a call they make later
    is a step of its own). *)

From stdpp Require Import gmap strings list sorting.
From Stdlib Require Import ZArith Strings.Byte.

Local Open Scope Z_scope.

(* ===================================================================== *)
(** * Part I: the models                                                  *)
(* ===================================================================== *)

(** ** Array helpers of the JavaScript runtime *)

(** [Array.prototype.indexOf]: first index of [x], or -1. *)
Definition indexOf (l : list string) (x : string) : Z :=
  match list_find (eq x) l with
  | Some (i, _) => Z.of_nat i
  | None => -1
  end.

(** [Array.prototype.slice(0, n)]: a negative end counts from the end of the
    array. *)
Definition slice0 {A} (n : Z) (l : list A) : list A :=
  if n <? 0 then take (Z.to_nat (Z.max (Z.of_nat (length l) + n) 0)) l
  else take (Z.to_nat n) l.

(** [Array.prototype.splice(i, 1)] for an index [0 <= i]. *)
Definition splice1 {A} (i : Z) (l : list A) : list A :=
  delete (Z.to_nat i) l.

(* ===================================================================== *)
(** ** OrderedQueue (queue.ts): the admission queue                       *)
(* ===================================================================== *)

Module OrderedQueue.

(** Events given to [EventEmitter.emit]. *)
Inductive Event : Type :=
| EvActive (id : string)
| EvDequeue (id : string).

(** The object: [queue], [waiting] and [limit] are the fields of the class.
    A waiter [{resolve, promise}] is one promise; [promises] is the heap of
    these promises, a cell being [None] while the promise is pending and
    [Some b] once it has been resolved with [b].  [events] logs the calls
    of [emit]. *)
Record t : Type := mk {
  queue : list string;
  waiting : gmap string nat;
  limit : Z;
  promises : list (option bool);
  events : list Event
}.

(** [constructor(limit)]: throws when [limit < 1]. *)
Definition new (lim : Z) : string + t :=
  if lim <? 1 then inl "Limit cannot be less than 1."%string
  else inr (mk [] ∅ lim [] []).

Definition inqueue (s : t) (id : string) : bool :=
  bool_decide (id ∈ queue s).

Definition active (s : t) (id : string) : bool :=
  let index := indexOf (queue s) id in
  (-1 <? index) && (index <? limit s).

Definition getPosition (s : t) (id : string) : Z := indexOf (queue s) id.
Definition getQueue (s : t) : list string := queue s.
Definition size (s : t) : Z := Z.of_nat (length (queue s)).
Definition max (s : t) : Z := limit s.

(** [waiter.resolve(v)]: settles a pending promise, and does nothing on a
    promise that is settled already. *)
Definition resolve (p : nat) (v : bool) (ps : list (option bool))
  : list (option bool) :=
  match ps !! p with
  | Some None => <[p := Some v]> ps
  | _ => ps
  end.

(** One iteration of the loop of [processQueue]. *)
Definition processOne (s : t) (id : string) : t :=
  match waiting s !! id with
  | None => s
  | Some p =>
      mk (queue s) (waiting s) (limit s) (resolve p true (promises s))
         (events s ++ [EvActive id])
  end.

Definition processQueue (s : t) : t :=
  let activeUsers := slice0 (limit s) (queue s) in
  foldl processOne s activeUsers.

(** [enqueue()]; [id] is the value of [randomUUID()]. *)
Definition enqueue (id : string) (s : t) : t * string :=
  let p := length (promises s) in
  let s1 := mk (queue s ++ [id]) (<[id := p]> (waiting s)) (limit s)
               (promises s ++ [None]) (events s) in
  (processQueue s1, id).

Definition dequeue (id : string) (s : t) : t * bool :=
  let index := indexOf (queue s) id in
  if -1 <? index then
    let q := splice1 index (queue s) in
    let ps := match waiting s !! id with
              | Some p => resolve p false (promises s)
              | None => promises s
              end in
    let s1 := mk q (delete id (waiting s)) (limit s) ps
                 (events s ++ [EvDequeue id]) in
    (processQueue s1, true)
  else (s, false).

(** [wait(id)] returns at once with [false] when there is no waiter, and
    the waiter's promise otherwise. *)
Inductive Wait : Type :=
| Immediate (b : bool)
| OnPromise (p : nat).

Definition wait (s : t) (id : string) : Wait :=
  match waiting s !! id with
  | None => Immediate false
  | Some p => OnPromise p
  end.

(** The value an [await] on the result of [wait] has received in state [s],
    if any. *)
Definition settled (s : t) (w : Wait) : option bool :=
  match w with
  | Immediate b => Some b
  | OnPromise p => mjoin (promises s !! p)
  end.

(** Calls from outside. *)
Inductive Action : Type :=
| Enqueue (id : string)
| Dequeue (id : string).

Definition exec (s : t) (a : Action) : t :=
  match a with
  | Enqueue id => (enqueue id s).1
  | Dequeue id => (dequeue id s).1
  end.

Definition run (acts : list Action) (s : t) : t := foldl exec s acts.

(** The identifiers [randomUUID] has produced in a run. *)
Definition issued (acts : list Action) : list string :=
  omap (fun a => match a with Enqueue id => Some id | Dequeue _ => None end) acts.

(** A run in which [randomUUID] never repeats a value. *)
Definition fresh_ids (acts : list Action) : Prop := NoDup (issued acts).

End OrderedQueue.

(** *** QueueTrackerController.getQueueState (tracker.ts) *)

Module QueueTracker.

Record QueuedItem : Type := mkItem {
  item_id : string;
  item_socketId : option string;
  item_position : Z
}.

Record QueueState : Type := mkState {
  qs_queue : list QueuedItem;
  activeCount : Z;
  waitingCount : Z;
  activePosition : Z;
  waitingPosition : Z
}.

(** The controller: the [OrderedQueue] it extends and its [socketIdMap]. *)
Record t : Type := mk {
  base : OrderedQueue.t;
  socketIdMap : gmap string string
}.

Definition position_of (max idx : Z) : Z :=
  if max <=? idx then idx - max + 1 else idx - max.

Definition fullQueue (s : t) : list QueuedItem :=
  imap (fun idx id =>
          mkItem id (Some (default ""%string (socketIdMap s !! id)))
                 (position_of (OrderedQueue.max (base s)) (Z.of_nat idx)))
       (OrderedQueue.getQueue (base s)).

(** [find(...)?.position || 0] *)
Definition find_position (P : QueuedItem -> bool) (l : list QueuedItem) : Z :=
  match List.find P l with
  | Some item => item_position item
  | None => 0
  end.

Definition same_socket (socketId : option string) (item : QueuedItem) : bool :=
  bool_decide (item_socketId item = socketId).

Definition getQueueState (s : t) (socketId : option string) : QueueState :=
  let fq := fullQueue s in
  let ac := Z.min (Z.of_nat (length fq)) (OrderedQueue.max (base s)) in
  let wc := Z.max 0 (Z.of_nat (length fq) - ac) in
  let ap := find_position
              (fun item => same_socket socketId item && (item_position item <? 0)) fq in
  let wp := find_position
              (fun item => same_socket socketId item && (0 <? item_position item)) fq in
  let fq' := (fun item => if same_socket socketId item then item
                          else mkItem (item_id item) None (item_position item)) <$> fq in
  mkState fq' ac wc ap wp.

End QueueTracker.

(** *** QueueTrackerController: enqueue, dequeue and the broadcasts
    (tracker.ts) *)

Module QueueTrackerController.
Import QueueTracker.

(** A method returns a value or throws.  The only exception here is the
    [TypeError] of [this.io.sockets] in [getSockets] while [io] is [null]. *)
Inductive Outcome (A : Type) : Type :=
| Returns (v : A)
| Throws.
Arguments Returns {A} v.
Arguments Throws {A}.

(** The object: the fields of [OrderedQueue] and [socketIdMap] (as in
    [QueueTracker.t]), [reverseMap], and the messages
    [socket.emit("queue-update", state)] sent so far, each with the
    [socketId] of its socket.  The calls of [console.log] are left out. *)
Record t : Type := mk {
  tracker : QueueTracker.t;
  reverseMap : gmap string string;
  sent : list (string * QueueState)
}.

(** [new QueueTrackerController(limit)]: the constructor of [OrderedQueue]. *)
Definition new (lim : Z) : string + t :=
  match OrderedQueue.new lim with
  | inl e => inl e
  | inr b => inr (mk (QueueTracker.mk b ∅) ∅ [])
  end.

(** [if (socketId)] for a [socketId] that is a string or [undefined]. *)
Definition truthy (socketId : option string) : bool :=
  match socketId with
  | Some EmptyString | None => false
  | Some _ => true
  end.

(** The field [io] at a call is [None] while [setIoServer] has not been
    called, and otherwise the [socketId] of the sockets of
    [io.sockets.sockets], which come and go by themselves.
    [getSockets()]: *)
Definition getSockets (io : option (list string)) : Outcome (list string) :=
  match io with
  | None => Throws
  | Some sockets => Returns sockets
  end.

(** [broadcastUpdates()] *)
Definition broadcastUpdates (io : option (list string)) (s : t) : t * Outcome unit :=
  match getSockets io with
  | Throws => (s, Throws)
  | Returns sockets =>
      let msgs :=
        omap (fun socket =>
                if bool_decide (is_Some (reverseMap s !! socket))
                then Some (socket, getQueueState (tracker s) (Some socket))
                else None) sockets in
      (mk (tracker s) (reverseMap s) (sent s ++ msgs), Returns ())
  end.

(** [enqueue(socketId)]; [id] is the value of [randomUUID()] in
    [super.enqueue()].  The result [None] is [null]. *)
Definition enqueue (io : option (list string)) (socketId : option string)
    (id : string) (s : t) : t * Outcome (option string) :=
  let go :=
    let r := OrderedQueue.enqueue id (base (tracker s)) in
    let m := match socketId with
             | Some socket =>
                 if truthy socketId then <[r.2 := socket]> (socketIdMap (tracker s))
                 else socketIdMap (tracker s)
             | None => socketIdMap (tracker s)
             end in
    let rm := match socketId with
              | Some socket =>
                  if truthy socketId then <[socket := r.2]> (reverseMap s)
                  else reverseMap s
              | None => reverseMap s
              end in
    match broadcastUpdates io (mk (QueueTracker.mk r.1 m) rm (sent s)) with
    | (s', Returns _) => (s', Returns (Some r.2))
    | (s', Throws) => (s', Throws)
    end in
  match socketId with
  | Some socket =>
      if truthy socketId then
        match getSockets io with
        | Throws => (s, Throws)
        | Returns sockets =>
            if negb (bool_decide (socket ∈ sockets)) then (s, Returns None) else go
        end
      else go
  | None => go
  end.

(** [dequeue(id)] *)
Definition dequeue (io : option (list string)) (id : string) (s : t)
  : t * Outcome bool :=
  let r := OrderedQueue.dequeue id (base (tracker s)) in
  if negb r.2 then
    (mk (QueueTracker.mk r.1 (socketIdMap (tracker s))) (reverseMap s) (sent s),
     Returns false)
  else
    let socketId := socketIdMap (tracker s) !! id in
    let rm := match socketId with
              | Some socket =>
                  if truthy socketId then delete socket (reverseMap s)
                  else reverseMap s
              | None => reverseMap s
              end in
    let m := delete id (socketIdMap (tracker s)) in
    match broadcastUpdates io (mk (QueueTracker.mk r.1 m) rm (sent s)) with
    | (s', Returns _) => (s', Returns true)
    | (s', Throws) => (s', Throws)
    end.

(** Calls from outside, each with the [io] of its moment. *)
Inductive Action : Type :=
| Enqueue (io : option (list string)) (socketId : option string) (id : string)
| Dequeue (io : option (list string)) (id : string).

Definition exec (s : t) (a : Action) : t :=
  match a with
  | Enqueue io socketId id => (enqueue io socketId id s).1
  | Dequeue io id => (dequeue io id s).1
  end.

Definition run (acts : list Action) (s : t) : t := foldl exec s acts.

(** The values of [randomUUID] in a run. *)
Definition issued (acts : list Action) : list string :=
  omap (fun a => match a with Enqueue _ _ id => Some id | Dequeue _ _ => None end) acts.

End QueueTrackerController.

(* ===================================================================== *)
(** ** StreamPiper (piper.ts): the stream tee                             *)
(* ===================================================================== *)

Module StreamPiper.

Definition HEADER_SIZE : Z := 1024.

(** The [Hash] object of node:crypto: [createHash('sha256')],
    [hash.update(chunk)] and [hash.digest('hex')]. *)
Class HashLib : Type := {
  Hash : Type;
  createHash : Hash;
  update : Hash -> list byte -> Hash;
  digest : Hash -> string
}.

(** What the library documents for a hash object: feeding the data in
    pieces gives the hash of the whole. *)
Class HashStreaming (H : HashLib) : Prop := {
  update_nil : forall h, update h [] = h;
  update_app : forall h a b, update (update h a) b = update h (a ++ b)
}.

(** The digest of a whole buffer, as [createHash('sha256').update(data)
    .digest('hex')] computes it. *)
Definition sha256 `{HashLib} (data : list byte) : string :=
  digest (update createHash data).

(** The [PassThrough] stream given to the consumer: the chunks written to
    it, whether [end()] was called, and the errors emitted on it. *)
Record PassThrough : Type := mkOut {
  chunks : list (list byte);
  ended : bool;
  errors : list string
}.

(** What a consumer reads when it drains the stream. *)
Definition drain (o : PassThrough) : list byte := concat (chunks o).

(** The source [Readable]: it emits 'data' and 'end' only while it flows,
    and nothing after 'end' or 'error'. *)
Inductive SourceStatus : Type := Open | Ended | Errored.

(** [emit('progress', Math.min(progress, 100))]; the value is computed in
    floating point from the two operands the log keeps, and is 0 when
    [fileSize] is 0. *)
Inductive Event : Type :=
| EvProgress (bytesProcessed fileSize : Z).

Section Piper.
Context `{HashLib}.

Record t : Type := mk {
  paused : bool;               (* sourceStream.isPaused() *)
  status : SourceStatus;       (* of sourceStream *)
  fileSize : Z;
  header : list byte;
  dataHash : option string;    (* None is null *)
  hash : Hash;
  headerPromise : option (list byte);   (* None while pending *)
  hashPromise : option string;          (* None while pending *)
  outputStream : PassThrough;
  isInitialized : bool;
  isHeaderFinalized : bool;
  bytesProcessed : Z;          (* the variable of [_initialize] *)
  headerWaiters : nat;         (* calls of getHeader suspended at their await *)
  events : list Event
}.

(** [new StreamPiper(stream, fileSize)] *)
Definition new (size : Z) : t :=
  mk true Open (if 0 <? size then size else 0) [] None createHash None None
     (mkOut [] false []) false false 0 0 [].

(** Resolving a promise a second time has no effect. *)
Definition resolve {A} (v : A) (p : option A) : option A :=
  match p with
  | None => Some v
  | Some _ => p
  end.

(** The listener of 'data'. *)
Definition on_data (chunk : list byte) (s : t) : t :=
  let hash' := update (hash s) chunk in
  let bytesProcessed' := bytesProcessed s + Z.of_nat (length chunk) in
  let events' := events s ++ [EvProgress bytesProcessed' (fileSize s)] in
  let '(header', finalized', headerPromise') :=
    if isHeaderFinalized s then (header s, true, headerPromise s)
    else
      let bytesNeeded := HEADER_SIZE - Z.of_nat (length (header s)) in
      let bytesToTake := Z.min bytesNeeded (Z.of_nat (length chunk)) in
      let headerPart := slice0 bytesToTake chunk in
      let header' := header s ++ headerPart in
      if HEADER_SIZE <=? Z.of_nat (length header')
      then (header', true, resolve header' (headerPromise s))
      else (header', false, headerPromise s) in
  let out := outputStream s in
  mk (paused s) (status s) (fileSize s) header' (dataHash s) hash'
     headerPromise' (hashPromise s)
     (mkOut (chunks out ++ [chunk]) (ended out) (errors out))
     (isInitialized s) finalized' bytesProcessed' (headerWaiters s) events'.

(** The listener of 'end'. *)
Definition on_end (s : t) : t :=
  let headerPromise' :=
    if Z.of_nat (length (header s)) <? HEADER_SIZE
    then resolve (header s) (headerPromise s) else headerPromise s in
  let d := digest (hash s) in
  let out := outputStream s in
  mk (paused s) Ended (fileSize s) (header s) (Some d) (hash s)
     headerPromise' (resolve d (hashPromise s))
     (mkOut (chunks out) true (errors out))
     (isInitialized s) true (bytesProcessed s) (headerWaiters s) (events s).

(** The listener of 'error'. *)
Definition on_error (err : string) (s : t) : t :=
  let out := outputStream s in
  mk (paused s) Errored (fileSize s) (header s) (dataHash s) (hash s)
     (headerPromise s) (hashPromise s)
     (mkOut (chunks out) (ended out) (errors out ++ [err]))
     (isInitialized s) (isHeaderFinalized s) (bytesProcessed s)
     (headerWaiters s) (events s).

Definition set_paused (b : bool) (s : t) : t :=
  mk b (status s) (fileSize s) (header s) (dataHash s) (hash s)
     (headerPromise s) (hashPromise s) (outputStream s)
     (isInitialized s) (isHeaderFinalized s) (bytesProcessed s)
     (headerWaiters s) (events s).

(** [_initialize()]: attaches the three listeners and resumes the source,
    once. *)
Definition _initialize (s : t) : t :=
  if isInitialized s then s
  else
    mk false (status s) (fileSize s) (header s) (dataHash s) (hash s)
       (headerPromise s) (hashPromise s) (outputStream s)
       true (isHeaderFinalized s) 0 (headerWaiters s) (events s).

(** [getHeader()] up to its await. *)
Definition getHeader (s : t) : t :=
  if isHeaderFinalized s then s
  else
    let s1 := _initialize s in
    mk (paused s1) (status s1) (fileSize s1) (header s1) (dataHash s1) (hash s1)
       (headerPromise s1) (hashPromise s1) (outputStream s1)
       (isInitialized s1) (isHeaderFinalized s1) (bytesProcessed s1)
       (S (headerWaiters s1)) (events s1).

(** [getHeader()] after its await: it pauses the source. *)
Definition getHeader_resume (s : t) : t :=
  let s1 := set_paused true s in
  mk (paused s1) (status s1) (fileSize s1) (header s1) (dataHash s1) (hash s1)
     (headerPromise s1) (hashPromise s1) (outputStream s1)
     (isInitialized s1) (isHeaderFinalized s1) (bytesProcessed s1)
     (pred (headerWaiters s1)) (events s1).

Definition getStream (s : t) : t := set_paused false (_initialize s).

(** [if (this.dataHash)]: a non-empty string. *)
Definition truthy (d : option string) : bool :=
  match d with
  | Some EmptyString | None => false
  | Some _ => true
  end.

Definition getHash (s : t) : t :=
  if truthy (dataHash s) then s else set_paused false (_initialize s).

(** The value a caller of [getHeader()] has received in state [now], for
    a call made in state [s]: the header itself when it was final at the
    call, the value of [headerPromise] otherwise. *)
Definition getHeader_value (s now : t) : option (list byte) :=
  if isHeaderFinalized s then Some (header s) else headerPromise now.

Definition getHash_value (s now : t) : option string :=
  if truthy (dataHash s) then dataHash s else hashPromise now.

(** The steps: calls of the three accessors, the continuation of a
    suspended [getHeader], and the events of the source. *)
Inductive Label : Type :=
| GetHeader
| GetHeaderResume
| GetStream
| GetHash
| SrcData (chunk : list byte)
| SrcEnd
| SrcError (err : string).

Definition flowing (s : t) : bool :=
  isInitialized s && negb (paused s) &&
  match status s with Open => true | _ => false end.

Definition step (s : t) (l : Label) : option t :=
  match l with
  | GetHeader => Some (getHeader s)
  | GetHeaderResume =>
      match headerWaiters s, headerPromise s with
      | S _, Some _ => Some (getHeader_resume s)
      | _, _ => None
      end
  | GetStream => Some (getStream s)
  | GetHash => Some (getHash s)
  | SrcData chunk => if flowing s then Some (on_data chunk s) else None
  | SrcEnd => if flowing s then Some (on_end s) else None
  | SrcError err =>
      match status s with
      | Open => if isInitialized s then Some (on_error err s) else None
      | _ => None
      end
  end.

Fixpoint exec (ls : list Label) (s : t) : option t :=
  match ls with
  | [] => Some s
  | l :: ls' =>
      match step s l with
      | Some s' => exec ls' s'
      | None => None
      end
  end.

(** The bytes the source has produced in a run. *)
Definition delivered (ls : list Label) : list byte :=
  concat (omap (fun l => match l with SrcData c => Some c | _ => None end) ls).

End Piper.
End StreamPiper.

(* ===================================================================== *)
(** ** SerialQueue (queue.ts): the serial work queue                      *)
(* ===================================================================== *)

Module SerialQueue.
Section Queue.

(** The arguments of one [push(...items)], kept as one element of
    [this.items] and spread again into the callback. *)
Context {Args : Type}.

(** What an observer sees: the callback being called, and [push] deciding
    to append ([true]) or to refuse ([false]). *)
Inductive Event : Type :=
| EvCall (a : Args)
| EvPush (a : Args) (ok : bool).

(** A call of [push] that is suspended: in the polling loop of
    [waitForQueue], or at the await of its result. *)
Inductive Pusher : Type :=
| Polling (a : Args)
| Ready (a : Args).

(** The fields of the object, the suspended calls of [push], the calls of
    [work] suspended at [await this.callback(...)] (each with the arguments
    of the handler it waits for), and the events so far. *)
Record t : Type := mk {
  items : list Args;
  limit : Z;
  working : bool;
  open : bool;
  pushers : list Pusher;
  running : list Args;
  trace : list Event
}.

(** [constructor(callback, limit)] *)
Definition new (lim : Z) : t :=
  mk [] (if 0 <? lim then lim else 1) false true [] [] [].

Definition size (s : t) : Z := Z.of_nat (length (items s)).
Definition max (s : t) : Z := limit s.

Definition clear (s : t) : t :=
  mk [] (limit s) (working s) (open s) (pushers s) (running s) (trace s).

Definition close (s : t) : t :=
  clear (mk (items s) (limit s) false false (pushers s) (running s) (trace s)).

(** The condition of the loop of [waitForQueue(false)]. *)
Definition queue_full (s : t) : bool :=
  open s && (limit s <=? Z.of_nat (length (items s))).

(** The condition of the loop of [waitForQueue(true)]. *)
Definition queue_busy (s : t) : bool :=
  open s && (0 <? Z.of_nat (length (items s))).

(** The loop of [work], entered at its condition: it calls the handler of
    the first item and suspends, or it ends and clears [working]. *)
Definition work_loop (s : t) : t :=
  match working s, items s with
  | true, a :: _ =>
      mk (items s) (limit s) true (open s) (pushers s)
         (running s ++ [a]) (trace s ++ [EvCall a])
  | _, _ =>
      mk (items s) (limit s) false (open s) (pushers s) (running s) (trace s)
  end.

Definition work (s : t) : t :=
  work_loop (mk (items s) (limit s) true (open s) (pushers s) (running s) (trace s)).

(** [work] after its await, the handler having returned [b1] ([None] is
    [undefined]). *)
Definition work_resume (k : nat) (b1 : option bool) (s : t) : t :=
  let s1 := mk (items s) (limit s) (working s) (open s) (pushers s)
               (delete k (running s)) (trace s) in
  match b1 with
  | Some false =>
      let s2 := close s1 in
      mk (items s2) (limit s2) false (open s2) (pushers s2) (running s2) (trace s2)
  | _ =>
      work_loop (mk (tail (items s1)) (limit s1) (working s1) (open s1)
                    (pushers s1) (running s1) (trace s1))
  end.

(** [push] from its first line to its first suspension. *)
Definition push_call (a : Args) (s : t) : t :=
  mk (items s) (limit s) (working s) (open s)
     (pushers s ++ [if queue_full s then Polling a else Ready a])
     (running s) (trace s).

(** [push] after [await this.waitForQueue(false)]. *)
Definition push_resume (i : nat) (a : Args) (s : t) : t :=
  let ps := delete i (pushers s) in
  if negb (open s) then
    mk (items s) (limit s) (working s) (open s) ps (running s)
       (trace s ++ [EvPush a false])
  else
    let s1 := mk (items s ++ [a]) (limit s) (working s) (open s) ps (running s)
                 (trace s ++ [EvPush a true]) in
    if negb (working s1) then work s1 else s1.

(** The steps.  [Push], [Clear] and [Close] are calls from outside;
    [PushPoll] is a turn of the polling loop of a suspended [push];
    [PushResume] continues a [push] whose wait is over; [Done] and [Throw]
    are the handler of a suspended [work] returning and throwing. *)
Inductive Label : Type :=
| Push (a : Args)
| PushPoll (i : nat)
| PushResume (i : nat)
| Done (k : nat) (b1 : option bool)
| Throw (k : nat)
| Clear
| Close.

Definition step (s : t) (l : Label) : option t :=
  match l with
  | Push a => Some (push_call a s)
  | PushPoll i =>
      match pushers s !! i with
      | Some (Polling a) =>
          if queue_full s then Some s
          else Some (mk (items s) (limit s) (working s) (open s)
                        (<[i := Ready a]> (pushers s)) (running s) (trace s))
      | _ => None
      end
  | PushResume i =>
      match pushers s !! i with
      | Some (Ready a) => Some (push_resume i a s)
      | _ => None
      end
  | Done k b1 =>
      match running s !! k with
      | Some _ => Some (work_resume k b1 s)
      | None => None
      end
  | Throw k =>
      match running s !! k with
      | Some _ =>
          Some (mk (items s) (limit s) (working s) (open s) (pushers s)
                   (delete k (running s)) (trace s))
      | None => None
      end
  | Clear => Some (clear s)
  | Close => Some (close s)
  end.

Fixpoint exec (ls : list Label) (s : t) : option t :=
  match ls with
  | [] => Some s
  | l :: ls' =>
      match step s l with
      | Some s' => exec ls' s'
      | None => None
      end
  end.

(** The arguments the callback was called with, in order. *)
Definition called (tr : list Event) : list Args :=
  omap (fun e => match e with EvCall a => Some a | _ => None end) tr.

(** The arguments [push] appended, in order. *)
Definition appended (tr : list Event) : list Args :=
  omap (fun e => match e with EvPush a true => Some a | _ => None end) tr.

(** The arguments [push] refused. *)
Definition refused (tr : list Event) : list Args :=
  omap (fun e => match e with EvPush a false => Some a | _ => None end) tr.

End Queue.
Arguments t : clear implicits.
Arguments Label : clear implicits.
Arguments Event : clear implicits.
End SerialQueue.

(* ===================================================================== *)
(** ** ParalelQueue (queue.ts): the ordered parallel queue                *)
(* ===================================================================== *)

Module ParalelQueue.
Section Queue.

(** The arguments of one [push(...args)] and the results of the handler
    [func_callback]. *)
Context {Args Result : Type}.

(** What an observer sees: [push] deciding to append ([true]) or to refuse
    ([false]); [func_callback(...args)] being called for the item with
    sequence number [order]; that call returning [r]; [outp_callback(result)]
    being called for the item [order]. *)
Inductive Event : Type :=
| EvPush (a : Args) (ok : bool)
| EvCall (order : nat) (a : Args)
| EvReturn (order : nat) (r : Result)
| EvOut (order : nat) (res : option Result).

(** Where a call of [callback(order, args)] stands: at the await of the
    handler; in the polling loop that waits for its turn, with the value of
    [result] ([None] is [undefined]); at the await of [outp_callback]; at
    its end; or rejected by an exception of the handler or of
    [outp_callback]. *)
Inductive PC : Type :=
| Running
| Waiting (res : option Result)
| Emitting
| Finished
| FailedFunc
| FailedOutp.

Record Task : Type := mkTask {
  order : nat;
  args : Args;
  pc : PC
}.

Inductive Pusher : Type :=
| Polling (a : Args)
| Ready (a : Args).

(** The fields of the object, and the suspended asynchronous calls: those
    of [push], the number of calls of [work] suspended in the polling loop
    on [curr_working], and the calls of [callback]. *)
Record t : Type := mk {
  items : gmap nat (nat * Args);
  limit : Z;
  curr_working : Z;
  push_order : nat;
  work_order : nat;
  outp_order : nat;
  working : bool;
  clearing : bool;
  open : bool;
  pushers : list Pusher;
  workers : nat;
  tasks : list Task;
  trace : list Event
}.

(** [constructor(func_callback, outp_callback, limit)] *)
Definition new (lim : Z) : t :=
  mk ∅ (if 0 <? lim then lim else 1) 0 0 0 0 false false true [] 0 [] [].

Definition size (s : t) : Z := curr_working s.
Definition max (s : t) : Z := limit s.

(** Assignments to single fields. *)
Definition set_items (m : gmap nat (nat * Args)) (s : t) : t :=
  mk m (limit s) (curr_working s) (push_order s) (work_order s) (outp_order s)
     (working s) (clearing s) (open s) (pushers s) (workers s) (tasks s) (trace s).
Definition set_curr_working (n : Z) (s : t) : t :=
  mk (items s) (limit s) n (push_order s) (work_order s) (outp_order s)
     (working s) (clearing s) (open s) (pushers s) (workers s) (tasks s) (trace s).
Definition set_push_order (n : nat) (s : t) : t :=
  mk (items s) (limit s) (curr_working s) n (work_order s) (outp_order s)
     (working s) (clearing s) (open s) (pushers s) (workers s) (tasks s) (trace s).
Definition set_work_order (n : nat) (s : t) : t :=
  mk (items s) (limit s) (curr_working s) (push_order s) n (outp_order s)
     (working s) (clearing s) (open s) (pushers s) (workers s) (tasks s) (trace s).
Definition set_outp_order (n : nat) (s : t) : t :=
  mk (items s) (limit s) (curr_working s) (push_order s) (work_order s) n
     (working s) (clearing s) (open s) (pushers s) (workers s) (tasks s) (trace s).
Definition set_working (b : bool) (s : t) : t :=
  mk (items s) (limit s) (curr_working s) (push_order s) (work_order s) (outp_order s)
     b (clearing s) (open s) (pushers s) (workers s) (tasks s) (trace s).
Definition set_clearing (b : bool) (s : t) : t :=
  mk (items s) (limit s) (curr_working s) (push_order s) (work_order s) (outp_order s)
     (working s) b (open s) (pushers s) (workers s) (tasks s) (trace s).
Definition set_open (b : bool) (s : t) : t :=
  mk (items s) (limit s) (curr_working s) (push_order s) (work_order s) (outp_order s)
     (working s) (clearing s) b (pushers s) (workers s) (tasks s) (trace s).
Definition set_pushers (ps : list Pusher) (s : t) : t :=
  mk (items s) (limit s) (curr_working s) (push_order s) (work_order s) (outp_order s)
     (working s) (clearing s) (open s) ps (workers s) (tasks s) (trace s).
Definition set_workers (n : nat) (s : t) : t :=
  mk (items s) (limit s) (curr_working s) (push_order s) (work_order s) (outp_order s)
     (working s) (clearing s) (open s) (pushers s) n (tasks s) (trace s).
Definition set_tasks (ts : list Task) (s : t) : t :=
  mk (items s) (limit s) (curr_working s) (push_order s) (work_order s) (outp_order s)
     (working s) (clearing s) (open s) (pushers s) (workers s) ts (trace s).
Definition log (e : Event) (s : t) : t :=
  mk (items s) (limit s) (curr_working s) (push_order s) (work_order s) (outp_order s)
     (working s) (clearing s) (open s) (pushers s) (workers s) (tasks s) (trace s ++ [e]).

(** The call [i] of [callback] moves to [p]. *)
Definition set_pc (i : nat) (p : PC) (s : t) : t :=
  set_tasks (alter (fun tk => mkTask (order tk) (args tk) p) i (tasks s)) s.

Definition clear (s : t) : t := set_clearing true (set_items ∅ s).
Definition close (s : t) : t := clear (set_working false (set_open false s)).

(** The last three lines of [callback]. *)
Definition callback_finish (i : nat) (o : nat) (s : t) : t :=
  set_pc i Finished
    (set_outp_order (S (outp_order s))
       (set_curr_working (curr_working s - 1)
          (set_items (delete o (items s)) s))).

(** [callback] from its polling loop on: one turn of the loop and, when
    the loop is left, the code up to the next await or to the end. *)
Definition callback_continue (i : nat) (o : nat) (res : option Result) (s : t) : t :=
  if negb (clearing s) && negb (outp_order s =? o)%nat then
    set_pc i (Waiting res) s
  else if clearing s then
    set_pc i Finished (set_outp_order (push_order s) s)
  else if open s && bool_decide (is_Some (items s !! o)) then
    set_pc i Emitting (log (EvOut o res) s)
  else callback_finish i o s.

(** [this.callback(item[0], item[1])], up to its first await. *)
Definition callback_start (o : nat) (a : Args) (s : t) : t :=
  let i := length (tasks s) in
  if open s then
    log (EvCall o a) (set_tasks (tasks s ++ [mkTask o a Running]) s)
  else
    callback_continue i o None
      (set_tasks (tasks s ++ [mkTask o a (Waiting None)]) s).

(** The condition of the inner polling loop of [work]. *)
Definition at_limit (s : t) : bool :=
  open s && (limit s <=? curr_working s).

(** The loop of [work], entered at its condition, up to the next await or
    to the end of [work].  Every turn increments [work_order], and the loop
    runs only while [work_order < push_order]: [n] counts the sequence
    numbers that are left. *)
Fixpoint work_loop (n : nat) (s : t) : t :=
  match n with
  | O => set_working false s
  | S n' =>
      if working s && (0 <? Z.of_nat (base.size (items s)))
         && (work_order s <? push_order s)%nat then
        match items s !! work_order s with
        | None => work_loop n' (set_work_order (S (work_order s)) s)
        | Some item =>
            let s1 := set_curr_working (curr_working s + 1)
                        (set_work_order (S (work_order s)) s) in
            let s2 := callback_start item.1 item.2 s1 in
            if at_limit s2 then set_workers (S (workers s2)) s2
            else work_loop n' s2
        end
      else set_working false s
  end.

Definition work_continue (s : t) : t :=
  work_loop (push_order s - work_order s) s.

Definition work (s : t) : t :=
  work_continue (set_clearing false (set_working true s)).

(** The condition of the loop of [waitForQueue(false)]. *)
Definition queue_full (s : t) : bool :=
  open s && (limit s <=? Z.of_nat (base.size (items s))).

(** The condition of the loop of [waitForQueue(true)]. *)
Definition queue_busy (s : t) : bool :=
  open s && negb (outp_order s =? push_order s)%nat.

(** [push] from its first line to its first suspension. *)
Definition push_call (a : Args) (s : t) : t :=
  set_pushers (pushers s ++ [if queue_full s then Polling a else Ready a]) s.

(** [push] after [await this.waitForQueue(false)]. *)
Definition push_resume (i : nat) (a : Args) (s : t) : t :=
  let s0 := set_pushers (delete i (pushers s)) s in
  if negb (open s0) then log (EvPush a false) s0
  else
    let s1 := set_items (<[push_order s0 := (push_order s0, a)]> (items s0)) s0 in
    let s2 := log (EvPush a true) (set_push_order (S (push_order s1)) s1) in
    if negb (working s2) then work s2 else s2.

(** The steps.  [Push], [Clear] and [Close] are calls from outside.
    [PushPoll], [WorkPoll] and [TurnPoll] are turns of the three polling
    loops, of a suspended [push], [work] and [callback].  [PushResume]
    continues a [push] whose wait is over.  [FuncDone] and [FuncThrow] are
    the handler of the call [i] of [callback] returning and throwing (or
    rejecting), [OutpDone] and [OutpThrow] the same for its call of
    [outp_callback]. *)
Inductive Label : Type :=
| Push (a : Args)
| PushPoll (i : nat)
| PushResume (i : nat)
| WorkPoll
| FuncDone (i : nat) (r : Result)
| FuncThrow (i : nat)
| TurnPoll (i : nat)
| OutpDone (i : nat)
| OutpThrow (i : nat)
| Clear
| Close.

Definition step (s : t) (l : Label) : option t :=
  match l with
  | Push a => Some (push_call a s)
  | PushPoll i =>
      match pushers s !! i with
      | Some (Polling a) =>
          if queue_full s then Some s
          else Some (set_pushers (<[i := Ready a]> (pushers s)) s)
      | _ => None
      end
  | PushResume i =>
      match pushers s !! i with
      | Some (Ready a) => Some (push_resume i a s)
      | _ => None
      end
  | WorkPoll =>
      match workers s with
      | S n =>
          if at_limit s then Some s
          else Some (work_continue (set_workers n s))
      | O => None
      end
  | FuncDone i r =>
      match tasks s !! i with
      | Some (mkTask o _ Running) =>
          Some (callback_continue i o (Some r) (log (EvReturn o r) s))
      | _ => None
      end
  | FuncThrow i =>
      match tasks s !! i with
      | Some (mkTask _ _ Running) => Some (set_pc i FailedFunc s)
      | _ => None
      end
  | TurnPoll i =>
      match tasks s !! i with
      | Some (mkTask o _ (Waiting res)) => Some (callback_continue i o res s)
      | _ => None
      end
  | OutpDone i =>
      match tasks s !! i with
      | Some (mkTask o _ Emitting) => Some (callback_finish i o s)
      | _ => None
      end
  | OutpThrow i =>
      match tasks s !! i with
      | Some (mkTask _ _ Emitting) => Some (set_pc i FailedOutp s)
      | _ => None
      end
  | Clear => Some (clear s)
  | Close => Some (close s)
  end.

Fixpoint exec (ls : list Label) (s : t) : option t :=
  match ls with
  | [] => Some s
  | l :: ls' =>
      match step s l with
      | Some s' => exec ls' s'
      | None => None
      end
  end.

(** The sequence numbers [outp_callback] was called for, in order. *)
Definition emitted (tr : list Event) : list nat :=
  omap (fun e => match e with EvOut o _ => Some o | _ => None end) tr.

(** The calls of [outp_callback], with their argument. *)
Definition outputs (tr : list Event) : list (nat * option Result) :=
  omap (fun e => match e with EvOut o res => Some (o, res) | _ => None end) tr.

(** The calls of the handler. *)
Definition called (tr : list Event) : list (nat * Args) :=
  omap (fun e => match e with EvCall o a => Some (o, a) | _ => None end) tr.

(** The arguments [push] appended, in order. *)
Definition appended (tr : list Event) : list Args :=
  omap (fun e => match e with EvPush a true => Some a | _ => None end) tr.

End Queue.
Arguments t : clear implicits.
Arguments Task : clear implicits.
Arguments PC : clear implicits.
Arguments Label : clear implicits.
Arguments Event : clear implicits.
End ParalelQueue.

(* ===================================================================== *)
(** * Part II: the properties                                             *)
(* ===================================================================== *)

(** ** OrderedQueue *)

(** Closed decidable facts are settled by evaluation. *)
Ltac by_compute := apply (bool_decide_unpack _); vm_compute; exact I.

Section OrderedQueueProofs.
Import OrderedQueue.

Lemma indexOf_notin (l : list string) x : x ∉ l → indexOf l x = -1.
Proof.
  intros Hx. unfold indexOf.
  destruct (list_find (eq x) l) as [[i y]|] eqn:E; [|done].
  apply list_find_Some in E as (Hi & -> & _).
  exfalso. apply Hx. by eapply list_elem_of_lookup_2.
Qed.

Lemma indexOf_first (l : list string) x :
  x ∈ l →
  ∃ i : nat, indexOf l x = Z.of_nat i ∧ l !! i = Some x ∧
             ∀ j : nat, l !! j = Some x → (i ≤ j)%nat.
Proof.
  intros Hx. unfold indexOf.
  destruct (list_find (eq x) l) as [[i y]|] eqn:E.
  - apply list_find_Some in E as (Hi & -> & Hmin).
    exists i. split_and!; [done..|].
    intros j Hj. destruct (decide (i ≤ j)%nat); [done|].
    exfalso. eapply (Hmin j); [done|lia|done].
  - apply list_find_None in E. rewrite Forall_forall in E.
    exfalso. by eapply E.
Qed.

Lemma indexOf_NoDup (l : list string) (i : nat) x :
  NoDup l → l !! i = Some x → indexOf l x = Z.of_nat i.
Proof.
  intros Hnd Hi.
  destruct (indexOf_first l x) as (j & -> & Hj & _).
  { by eapply list_elem_of_lookup_2. }
  f_equal. eapply NoDup_lookup; eauto.
Qed.

Lemma indexOf_ge (l : list string) x : -1 ≤ indexOf l x.
Proof.
  destruct (decide (x ∈ l)) as [H|H].
  - destruct (indexOf_first l x H) as (i & -> & _). lia.
  - rewrite indexOf_notin; [lia|done].
Qed.

Lemma active_take (s : t) id :
  0 ≤ limit s →
  active s id = true ↔ id ∈ take (Z.to_nat (limit s)) (queue s).
Proof.
  intros HK. unfold active. rewrite andb_true_iff, !Z.ltb_lt. split.
  - intros [H1 H2]. destruct (decide (id ∈ queue s)) as [Hin|Hin].
    + destruct (indexOf_first _ _ Hin) as (i & Hi & Hl & _).
      apply list_elem_of_lookup. exists i. rewrite lookup_take_lt; [done|lia].
    + rewrite indexOf_notin in H1; [lia|done].
  - intros Hin. apply list_elem_of_lookup in Hin as [j Hj].
    apply lookup_take_Some in Hj as [Hj Hlt].
    destruct (indexOf_first (queue s) id) as (i & Hi & _ & Hmin).
    { by eapply list_elem_of_lookup_2. }
    specialize (Hmin _ Hj). lia.
Qed.

Lemma filter_all_true {A} (f : A → bool) l :
  (∀ x, x ∈ l → f x = true) → List.filter f l = l.
Proof.
  induction l as [|a l IH]; intros H; simpl; [done|].
  rewrite H by left. f_equal. apply IH. intros; apply H. by right.
Qed.

Lemma filter_all_false {A} (f : A → bool) l :
  (∀ x, x ∈ l → f x = false) → List.filter f l = [].
Proof.
  induction l as [|a l IH]; intros H; simpl; [done|].
  rewrite H by left. apply IH. intros; apply H. by right.
Qed.

Lemma active_filter (s : t) :
  0 ≤ limit s → NoDup (queue s) →
  List.filter (active s) (queue s) = take (Z.to_nat (limit s)) (queue s).
Proof.
  intros HK Hnd.
  rewrite <- (take_drop (Z.to_nat (limit s)) (queue s)) at 1.
  rewrite List.filter_app.
  rewrite filter_all_true, filter_all_false; [by rewrite app_nil_r| |].
  - intros x Hx. apply not_true_is_false. rewrite active_take by done.
    intros Hx'. rewrite <- (take_drop (Z.to_nat (limit s)) (queue s)) in Hnd.
    apply NoDup_app in Hnd as (_ & Hd & _). by eapply Hd.
  - intros x Hx. by apply active_take.
Qed.

(** [processQueue] as one pass of [resolve] over the promises of the
    active identifiers. *)
Definition resolve_all (cells : list nat) (ps : list (option bool)) :=
  foldl (fun ps p => resolve p true ps) ps cells.

Lemma resolve_length p v ps : length (resolve p v ps) = length ps.
Proof. unfold resolve. destruct (ps !! p) as [[|]|]; by rewrite ?length_insert. Qed.

Lemma resolve_lookup p v ps q :
  resolve p v ps !! q =
  if decide (p = q) then
    match ps !! q with Some None => Some (Some v) | x => x end
  else ps !! q.
Proof.
  unfold resolve. destruct (decide (p = q)) as [->|Hne].
  - destruct (ps !! q) as [[b|]|] eqn:E; try done.
    apply list_lookup_insert_eq. by eapply lookup_lt_Some.
  - destruct (ps !! p) as [[b|]|]; try done. by apply list_lookup_insert_ne.
Qed.

Lemma resolve_all_lookup cells ps q :
  resolve_all cells ps !! q =
  if decide (q ∈ cells) then
    match ps !! q with Some None => Some (Some true) | x => x end
  else ps !! q.
Proof.
  revert ps. induction cells as [|c cells IH]; intros ps; simpl.
  - destruct (decide (q ∈ [])) as [H|H]; [by apply elem_of_nil in H|done].
  - fold (resolve_all cells (resolve c true ps)).
    rewrite IH, resolve_lookup.
    destruct (decide (c = q)) as [->|H2].
    + rewrite (decide_True (P := q ∈ q :: cells)) by left.
      destruct (decide (q ∈ cells)); by destruct (ps !! q) as [[|]|].
    + destruct (decide (q ∈ cells)) as [H1|H1].
      * by rewrite (decide_True (P := q ∈ c :: cells)) by (by right).
      * rewrite (decide_False (P := q ∈ c :: cells)); [done|].
        intros [?|?]%elem_of_cons; congruence.
Qed.

Lemma processOne_fold ids s :
  foldl processOne s ids =
  mk (queue s) (waiting s) (limit s)
     (resolve_all (omap (fun id => waiting s !! id) ids) (promises s))
     (events s ++ (EvActive <$> List.filter (fun id => bool_decide (is_Some (waiting s !! id))) ids)).
Proof.
  revert s. induction ids as [|id ids IH]; intros s; simpl.
  - rewrite app_nil_r. by destruct s.
  - rewrite IH. unfold processOne at 1 2 3 4 5 6 7 8.
    destruct (waiting s !! id) as [p|] eqn:E; simpl; [|done].
    by rewrite <- app_assoc.
Qed.

(** The invariant of the reachable states, for window [K]. *)
Record QueueInv (K : Z) (s : t) : Prop := {
  inv_limit : limit s = K;
  inv_K : 1 ≤ K;
  inv_nodup : NoDup (queue s);
  inv_dom : ∀ id, id ∈ queue s ↔ is_Some (waiting s !! id);
  inv_inj : ∀ id1 id2 p,
      waiting s !! id1 = Some p → waiting s !! id2 = Some p → id1 = id2;
  inv_cell : ∀ (i : nat) id, queue s !! i = Some id →
      ∃ p, waiting s !! id = Some p ∧
           promises s !! p = Some (if bool_decide (Z.of_nat i < K) then Some true else None)
}.

(** The state between an update of the queue and [processQueue]: inside
    the window a promise may still be pending. *)
Record QueuePre (K : Z) (s : t) : Prop := {
  pre_limit : limit s = K;
  pre_K : 1 ≤ K;
  pre_nodup : NoDup (queue s);
  pre_dom : ∀ id, id ∈ queue s ↔ is_Some (waiting s !! id);
  pre_inj : ∀ id1 id2 p,
      waiting s !! id1 = Some p → waiting s !! id2 = Some p → id1 = id2;
  pre_cell : ∀ (i : nat) id, queue s !! i = Some id →
      ∃ p, waiting s !! id = Some p ∧
           (promises s !! p = Some None ∨
            (Z.of_nat i < K ∧ promises s !! p = Some (Some true)))
}.

Lemma slice0_take {A} (K : Z) (l : list A) : 0 ≤ K → slice0 K l = take (Z.to_nat K) l.
Proof. intros H. unfold slice0. destruct (Z.ltb_spec K 0); [lia|done]. Qed.

Lemma processQueue_QueueInv K s : QueuePre K s → QueueInv K (processQueue s).
Proof.
  intros [Hl HK Hnd Hdom Hinj Hcell]. unfold processQueue.
  rewrite processOne_fold, slice0_take by lia.
  split; simpl; try done.
  intros i id Hi. destruct (Hcell i id Hi) as (p & Hp & Hc).
  exists p. split; [done|]. rewrite resolve_all_lookup.
  rewrite Hl. case_bool_decide as Hlt.
  - rewrite decide_True.
    + by destruct Hc as [->|[_ ->]].
    + apply list_elem_of_omap. exists id. split; [|done].
      apply list_elem_of_lookup. exists i. rewrite lookup_take_lt; [done|lia].
  - rewrite decide_False.
    + destruct Hc as [->|[? _]]; [done|lia].
    + intros Hin. apply list_elem_of_omap in Hin as (id' & Hin & Hp').
      assert (id' = id) as -> by eauto.
      apply list_elem_of_lookup in Hin as [j Hj].
      apply lookup_take_Some in Hj as [Hj Hlt'].
      assert (i = j) by (eapply NoDup_lookup; eauto). lia.
Qed.

Lemma Inv_cell_lt K s p id :
  QueueInv K s → waiting s !! id = Some p → (p < length (promises s))%nat.
Proof.
  intros HI Hp. assert (id ∈ queue s) as Hin by (apply HI; eauto).
  apply list_elem_of_lookup in Hin as [i Hi].
  destruct (inv_cell _ _ HI i id Hi) as (p' & Hp' & Hc).
  assert (p' = p) as -> by congruence. by eapply lookup_lt_Some.
Qed.

Lemma enqueue_QueueInv K s id :
  QueueInv K s → id ∉ queue s → QueueInv K (enqueue id s).1.
Proof.
  intros HI Hfresh. unfold enqueue. simpl. apply processQueue_QueueInv.
  pose proof HI as [Hl HK Hnd Hdom Hinj Hcell].
  assert (waiting s !! id = None) as Hnone.
  { apply eq_None_not_Some. by rewrite <- Hdom. }
  split; simpl; try done.
  - apply NoDup_app. split_and!; [done| |apply NoDup_singleton].
    intros x Hx ->%list_elem_of_singleton. done.
  - intros x. rewrite elem_of_app, list_elem_of_singleton, lookup_insert.
    case_decide; subst.
    + split; [eauto|intros _; by right].
    + rewrite Hdom. split; [by intros [?|?]|by left].
  - intros id1 id2 p. rewrite !lookup_insert.
    repeat case_decide; subst; try done.
    + intros [= <-] H2. apply (Inv_cell_lt _ _ _ _ HI) in H2. lia.
    + intros H2 [= <-]. apply (Inv_cell_lt _ _ _ _ HI) in H2. lia.
    + apply Hinj.
  - intros i x Hi. apply lookup_app_Some in Hi as [Hi|[Hge Hi]].
    + destruct (Hcell i x Hi) as (p & Hp & Hc). exists p.
      rewrite lookup_insert_ne.
      2:{ intros ->. apply Hfresh. by eapply list_elem_of_lookup_2. }
      split; [done|]. rewrite lookup_app_l by (by eapply lookup_lt_Some).
      rewrite Hc. case_bool_decide; [right|left]; done.
    + apply list_lookup_singleton_Some in Hi as [_ <-].
      exists (length (promises s)). rewrite lookup_insert_eq. split; [done|].
      left. rewrite lookup_app_r by lia. by rewrite Nat.sub_diag.
Qed.

Lemma elem_of_delete_NoDup (l : list string) (i : nat) id x :
  NoDup l → l !! i = Some id → x ∈ delete i l ↔ x ∈ l ∧ x ≠ id.
Proof.
  intros Hnd Hi. split.
  - intros [j Hj]%list_elem_of_lookup.
    destruct (decide (j < i)%nat) as [Hlt|Hge].
    + rewrite list_lookup_delete_lt in Hj by done. split.
      * by eapply list_elem_of_lookup_2.
      * intros ->. assert (j = i) by (eapply NoDup_lookup; eauto). lia.
    + rewrite list_lookup_delete_ge in Hj by lia. split.
      * by eapply list_elem_of_lookup_2.
      * intros ->. assert (S j = i) by (eapply NoDup_lookup; eauto). lia.
  - intros [[k Hk]%list_elem_of_lookup Hne]. apply list_elem_of_lookup.
    destruct (decide (k < i)%nat) as [Hlt|Hge].
    + exists k. by rewrite list_lookup_delete_lt.
    + assert (k ≠ i) by congruence.
      exists (pred k). rewrite list_lookup_delete_ge by lia.
      by replace (S (pred k)) with k by lia.
Qed.

Lemma dequeue_absent s id : id ∉ queue s → dequeue id s = (s, false).
Proof.
  intros H. unfold dequeue. rewrite indexOf_notin by done. done.
Qed.

Lemma dequeue_present s id (i : nat) :
  NoDup (queue s) → queue s !! i = Some id →
  dequeue id s =
  (processQueue
     (mk (delete i (queue s)) (delete id (waiting s)) (limit s)
         (match waiting s !! id with
          | Some p => resolve p false (promises s)
          | None => promises s
          end)
         (events s ++ [EvDequeue id])), true).
Proof.
  intros Hnd Hi. unfold dequeue.
  rewrite (indexOf_NoDup _ i) by done.
  assert ((-1 <? Z.of_nat i) = true) as -> by (apply Z.ltb_lt; lia).
  unfold splice1. by rewrite Nat2Z.id.
Qed.

Lemma dequeue_QueueInv K s id : QueueInv K s → QueueInv K (dequeue id s).1.
Proof.
  intros HI. destruct (decide (id ∈ queue s)) as [Hin|Hin].
  2:{ by rewrite dequeue_absent. }
  pose proof HI as [Hl HK Hnd Hdom Hinj Hcell].
  apply list_elem_of_lookup in Hin as [i Hi].
  rewrite (dequeue_present _ _ i) by done. simpl.
  apply processQueue_QueueInv.
  destruct (Hcell i id Hi) as (p & Hp & Hc). rewrite Hp.
  split; simpl; try done.
  - eapply sublist_NoDup; [done|apply sublist_delete].
  - intros x. rewrite (elem_of_delete_NoDup _ i id) by done.
    rewrite lookup_delete. destruct (decide (id = x)) as [->|Hne].
    + split; [intros [_ ?]; congruence|intros [? ?]; congruence].
    + rewrite Hdom. split; [by intros [? _]|intros ?; split; [done|congruence]].
  - intros id1 id2 q. rewrite !lookup_delete.
    destruct (decide (id = id1)), (decide (id = id2)); try done. apply Hinj.
  - intros j x Hj.
    assert (x ∈ delete i (queue s)) as Hx by (by eapply list_elem_of_lookup_2).
    apply (elem_of_delete_NoDup _ i id) in Hx as [_ Hne]; [|done..].
    assert (∃ k : nat, queue s !! k = Some x ∧ (j ≤ k)%nat) as (k & Hk & Hjk).
    { destruct (decide (j < i)%nat).
      - exists j. by rewrite list_lookup_delete_lt in Hj.
      - exists (S j). rewrite list_lookup_delete_ge in Hj by lia. split; [done|lia]. }
    destruct (Hcell k x Hk) as (q & Hq & Hcq). exists q.
    rewrite lookup_delete_ne by done. split; [done|].
    assert (p ≠ q) as Hpq by (intros ->; apply Hne; eauto).
    rewrite resolve_lookup, decide_False by done. rewrite Hcq.
    case_bool_decide; [right|left]; [|done]. split; [lia|done].
Qed.

Lemma new_QueueInv K s : new K = inr s → QueueInv K s.
Proof.
  unfold new. destruct (Z.ltb_spec K 1); [done|]. intros [= <-].
  split; simpl; try done; try lia.
  - apply NoDup_nil_2.
  - intros id. rewrite lookup_empty. split; [by intros ?%elem_of_nil|by intros [? ?]].
Qed.

Lemma issued_snoc acts a :
  issued (acts ++ [a]) =
  issued acts ++ match a with Enqueue id => [id] | Dequeue _ => [] end.
Proof. unfold issued. rewrite omap_app. by destruct a. Qed.

Lemma run_snoc acts a s : run (acts ++ [a]) s = exec (run acts s) a.
Proof. unfold run. by rewrite foldl_app. Qed.

Lemma run_app acts1 acts2 s : run (acts1 ++ acts2) s = run acts2 (run acts1 s).
Proof. unfold run. by rewrite foldl_app. Qed.

Lemma processQueue_queue s : queue (processQueue s) = queue s.
Proof. unfold processQueue. by rewrite processOne_fold. Qed.

Lemma exec_queue_issued s a x :
  x ∈ queue (exec s a) → x ∈ queue s ∨ x ∈ issued [a].
Proof.
  destruct a as [id|id]; simpl.
  - rewrite processQueue_queue. simpl. rewrite elem_of_app, list_elem_of_singleton.
    intros [?| ->]; [by left|by right].
  - unfold dequeue. destruct (-1 <? indexOf (queue s) id); simpl; [|by left].
    rewrite processQueue_queue. simpl. unfold splice1. intros Hx. left.
    by eapply list_elem_of_delete_inv.
Qed.

Lemma run_queue_issued acts s x :
  x ∈ queue (run acts s) → x ∈ queue s ∨ x ∈ issued acts.
Proof.
  induction acts as [|a acts IH] using rev_ind; [by left|].
  rewrite run_snoc, issued_snoc. intros Hx.
  apply exec_queue_issued in Hx as [Hx|Hx].
  - destruct (IH Hx) as [?|?]; [by left|]. right. apply elem_of_app. by left.
  - right. apply elem_of_app. right. by destruct a.
Qed.

(** Every state of a run with fresh identifiers satisfies the invariant. *)
Lemma run_QueueInv K s0 acts :
  new K = inr s0 → fresh_ids acts → QueueInv K (run acts s0).
Proof.
  intros Hnew. induction acts as [|a acts IH] using rev_ind; intros Hfresh.
  - by apply new_QueueInv.
  - unfold fresh_ids in *. rewrite issued_snoc in Hfresh.
    apply NoDup_app in Hfresh as (Hnd & Hdisj & _).
    rewrite run_snoc. destruct a as [id|id]; simpl.
    + apply enqueue_QueueInv; [by apply IH|].
      intros Hin. apply run_queue_issued in Hin as [Hin|Hin].
      * unfold new in Hnew. destruct (K <? 1); [done|].
        injection Hnew as <-. by apply elem_of_nil in Hin.
      * eapply Hdisj; [done|by left].
    + apply dequeue_QueueInv. by apply IH.
Qed.

Lemma processQueue_waiting s : waiting (processQueue s) = waiting s.
Proof. unfold processQueue. by rewrite processOne_fold. Qed.

Lemma processQueue_limit s : limit (processQueue s) = limit s.
Proof. unfold processQueue. by rewrite processOne_fold. Qed.

Lemma dequeue_waiting s id : waiting (dequeue id s).1 = delete id (waiting s) ∨ (dequeue id s).1 = s.
Proof.
  unfold dequeue. destruct (-1 <? indexOf (queue s) id); simpl; [left|by right].
  by rewrite processQueue_waiting.
Qed.

(** A settled promise keeps its value: [resolve] on it is a no-op. *)
Lemma resolve_settled p b ps q v :
  ps !! q = Some (Some v) → resolve p b ps !! q = Some (Some v).
Proof. intros H. rewrite resolve_lookup, H. by destruct (decide (p = q)). Qed.

Lemma processQueue_settled s q v :
  promises s !! q = Some (Some v) → promises (processQueue s) !! q = Some (Some v).
Proof.
  intros H. unfold processQueue. rewrite processOne_fold. simpl.
  rewrite resolve_all_lookup, H. by destruct (decide (q ∈ _)).
Qed.

Lemma exec_settled s a q v :
  settled s (OnPromise q) = Some v → settled (exec s a) (OnPromise q) = Some v.
Proof.
  simpl. destruct (promises s !! q) as [[b|]|] eqn:E; simpl; try done.
  intros [= ->]. destruct a as [id|id]; simpl.
  - rewrite processQueue_settled with (v := v); [done|]. simpl.
    rewrite lookup_app_l; [done|]. by eapply lookup_lt_Some.
  - unfold dequeue. destruct (-1 <? indexOf (queue s) id); simpl; [|by rewrite E].
    rewrite processQueue_settled with (v := v); [done|]. simpl.
    destruct (waiting s !! id); [|done]. by apply resolve_settled.
Qed.

Lemma run_settled acts s q v :
  settled s (OnPromise q) = Some v → settled (run acts s) (OnPromise q) = Some v.
Proof.
  induction acts as [|a acts IH] using rev_ind; [done|].
  intros H. rewrite run_snoc. by apply exec_settled, IH.
Qed.

Lemma new_queue K s0 : new K = inr s0 → queue s0 = [].
Proof. unfold new. destruct (K <? 1); [done|]. by intros [= <-]. Qed.

(** While a ticket stays enqueued its waiter is the same promise. *)
Lemma exec_waiting_stable s a id p :
  NoDup (queue s) → id ∉ issued [a] → waiting s !! id = Some p → id ∈ queue (exec s a) →
  waiting (exec s a) !! id = Some p.
Proof.
  intros Hnd Hne Hp Hin. destruct a as [id'|id']; simpl in *.
  - rewrite processQueue_waiting. simpl. rewrite lookup_insert_ne; [done|].
    intros ->. apply Hne. apply list_elem_of_here.
  - destruct (decide (id' ∈ queue s)) as [Hq|Hq].
    2:{ by rewrite dequeue_absent. }
    unfold dequeue in *. destruct (-1 <? indexOf (queue s) id'); simpl in *; [|done].
    rewrite processQueue_waiting. simpl.
    rewrite processQueue_queue in Hin. simpl in Hin.
    rewrite lookup_delete_ne; [done|]. intros Heq. subst id'.
    destruct (indexOf_first _ _ Hq) as (i & Hi & Hl & Hmin).
    rewrite Hi in Hin. unfold splice1 in Hin. rewrite Nat2Z.id in Hin.
    apply (elem_of_delete_NoDup _ i id) in Hin as [_ Hin]; done.
Qed.

Lemma fresh_ids_app_l acts1 acts2 : fresh_ids (acts1 ++ acts2) → fresh_ids acts1.
Proof.
  unfold fresh_ids, issued. rewrite omap_app. by intros (? & _ & _)%NoDup_app.
Qed.

Lemma run_waiting_stable K s0 acts1 acts2 id p :
  new K = inr s0 → fresh_ids (acts1 ++ acts2) →
  waiting (run acts1 s0) !! id = Some p →
  id ∈ queue (run (acts1 ++ acts2) s0) →
  waiting (run (acts1 ++ acts2) s0) !! id = Some p.
Proof.
  intros Hnew. induction acts2 as [|a acts2 IH] using rev_ind; intros Hfresh Hp Hin.
  - by rewrite app_nil_r in *.
  - rewrite app_assoc in *. rewrite run_snoc in *.
    pose proof (fresh_ids_app_l _ _ Hfresh) as Hfresh'.
    pose proof (run_QueueInv K s0 _ Hnew Hfresh') as HI.
    assert (id ∈ issued acts1) as Hiss.
    { pose proof (run_QueueInv K s0 _ Hnew (fresh_ids_app_l _ _ Hfresh')) as HI1.
      assert (id ∈ queue (run acts1 s0)) as Hq by (apply HI1; eauto).
      apply run_queue_issued in Hq as [Hq|Hq]; [|done].
      rewrite (new_queue _ _ Hnew) in Hq. by apply elem_of_nil in Hq. }
    assert (id ∉ issued [a]) as Hna.
    { intros Ha. unfold fresh_ids in Hfresh. rewrite issued_snoc in Hfresh.
      apply NoDup_app in Hfresh as (_ & Hdisj & _).
      eapply (Hdisj id).
      - unfold issued. rewrite omap_app. apply elem_of_app. by left.
      - destruct a; [done|]. by apply elem_of_nil in Ha. }
    apply exec_waiting_stable; [apply HI|done| |done].
    apply IH; [done..|].
    apply exec_queue_issued in Hin as [?|?]; done.
Qed.

Lemma Inv_not_queued K s id : QueueInv K s → id ∉ queue s → wait s id = Immediate false.
Proof.
  intros HI Hq. unfold wait.
  destruct (waiting s !! id) eqn:E; [|done].
  exfalso. apply Hq, HI. eauto.
Qed.

Lemma Inv_active_index K s id :
  QueueInv K s → id ∈ queue s →
  ∃ (i : nat) p, queue s !! i = Some id ∧ getPosition s id = Z.of_nat i ∧
        active s id = bool_decide (Z.of_nat i < K) ∧
        wait s id = OnPromise p ∧
        promises s !! p = Some (if active s id then Some true else None).
Proof.
  intros HI [i Hi]%list_elem_of_lookup.
  destruct (inv_cell _ _ HI i id Hi) as (p & Hp & Hc).
  exists i, p. unfold getPosition, active, wait.
  rewrite (indexOf_NoDup _ i), Hp, (inv_limit _ _ HI) by (done || apply HI).
  assert ((-1 <? Z.of_nat i) = true) as -> by (apply Z.ltb_lt; lia). simpl.
  assert ((Z.of_nat i <? K) = bool_decide (Z.of_nat i < K)) as ->.
  { case_bool_decide; [by apply Z.ltb_lt|by apply Z.ltb_ge; lia]. }
  done.
Qed.

Lemma dequeue_waiting_resolves_false K s id :
  QueueInv K s → id ∈ queue s → active s id = false →
  ∀ p, wait s id = OnPromise p →
       settled s (OnPromise p) = None ∧
       settled (dequeue id s).1 (OnPromise p) = Some false.
Proof.
  intros HI Hq Hact p Hw.
  destruct (Inv_active_index _ _ _ HI Hq) as (i & p' & Hi & _ & _ & Hw' & Hc).
  rewrite Hw in Hw'. injection Hw' as <-. rewrite Hact in Hc.
  split; [simpl; by rewrite Hc|].
  rewrite (dequeue_present _ _ i) by (done || apply HI). simpl.
  unfold wait in Hw. destruct (waiting s !! id) as [q|] eqn:E; [|done].
  injection Hw as ->.
  rewrite processQueue_settled with (v := false); [done|]. simpl.
  rewrite resolve_lookup, decide_True, Hc; done.
Qed.


(** C3. In every reachable state of a queue with window [K] exactly
    [min K N] of the [N] enqueued tickets are active, the active tickets are
    the first [K] of the queue in arrival order, activeness is a function of
    the position alone, and dequeuing an active ticket while a ticket waits
    at index [K] makes that ticket active and resolves its wait with
    [true]. *)
Theorem C3_active_window (K : Z) (s0 : t) (acts : list Action) :
  new K = inr s0 → fresh_ids acts →
  let s := run acts s0 in
  Z.of_nat (length (List.filter (active s) (queue s))) = Z.min K (size s)
  ∧ List.filter (active s) (queue s) = take (Z.to_nat K) (queue s)
  ∧ (∀ id, active s id = true ↔ 0 ≤ getPosition s id < K)
  ∧ (∀ id next, active s id = true → queue s !! Z.to_nat K = Some next →
       let s' := (dequeue id s).1 in
       active s next = false ∧ settled s (wait s next) = None ∧
       active s' next = true ∧ settled s' (wait s next) = Some true ∧
       wait s' next = wait s next).
Proof.
  intros Hnew Hfresh s.
  pose proof (run_QueueInv K s0 acts Hnew Hfresh) as HI. fold s in HI.
  pose proof (inv_limit _ _ HI) as Hl. pose proof (inv_K _ _ HI) as HK.
  assert (List.filter (active s) (queue s) = take (Z.to_nat K) (queue s)) as Hf.
  { rewrite <- Hl. apply active_filter; [lia|apply HI]. }
  split_and!.
  - rewrite Hf, length_take. unfold size. lia.
  - done.
  - intros id. unfold active, getPosition. rewrite andb_true_iff, !Z.ltb_lt, Hl. lia.
  - intros id next Hact Hnext s'.
    assert (id ∈ queue s) as Hq.
    { apply active_take in Hact; [|lia]. by eapply subseteq_take. }
    assert (next ∈ queue s) as Hqn by (by eapply list_elem_of_lookup_2).
    destruct (Inv_active_index _ _ _ HI Hq) as (i & p & Hi & _ & Hai & _ & _).
    destruct (Inv_active_index _ _ _ HI Hqn) as (j & q & Hj & _ & Haj & Hwj & Hcj).
    assert (j = Z.to_nat K) as Hjk
      by (eapply (NoDup_lookup (queue s)); [apply HI|done..]).
    rewrite Hact in Hai. symmetry in Hai. apply bool_decide_eq_true in Hai.
    assert (active s next = false) as Hnact.
    { rewrite Haj. apply bool_decide_eq_false. lia. }
    rewrite Hnact in Hcj.
    pose proof (dequeue_QueueInv K s id HI) as HI'. fold s' in HI'.
    assert (queue s' !! (Z.to_nat K - 1)%nat = Some next) as Hnext'.
    { unfold s'. rewrite (dequeue_present _ _ i) by (done || apply HI). simpl.
      rewrite processQueue_queue. simpl.
      rewrite list_lookup_delete_ge by lia.
      by replace (S (Z.to_nat K - 1)) with (Z.to_nat K) by lia. }
    assert (next ∈ queue s') as Hqn' by (by eapply list_elem_of_lookup_2).
    destruct (Inv_active_index _ _ _ HI' Hqn') as (j' & q' & Hj' & _ & Haj' & Hwj' & Hcj').
    assert (j' = (Z.to_nat K - 1)%nat) as ->
      by (eapply (NoDup_lookup (queue s')); [apply HI'|done..]).
    assert (active s' next = true) as Hact'.
    { rewrite Haj'. apply bool_decide_eq_true. lia. }
    rewrite Hact' in Hcj'.
    assert (wait s' next = wait s next) as Hww.
    { unfold wait. unfold s'.
      destruct (dequeue_waiting s id) as [-> | ->]; [|done].
      rewrite lookup_delete_ne; [done|]. intros ->.
      assert (i = j) by (eapply (NoDup_lookup (queue s)); [apply HI|done..]). lia. }
    split_and!; try done.
    + rewrite Hwj. simpl. by rewrite Hcj.
    + rewrite <- Hww, Hwj'. simpl. by rewrite Hcj'.
Qed.

Lemma C3_active_window_witness :
  ∃ s0, new 2 = inr s0 ∧
  let s := run [Enqueue "A"; Enqueue "B"; Enqueue "C"]%string s0 in
  Z.of_nat (length (List.filter (active s) (queue s))) = Z.min 2 (size s).
Proof.
  eexists. split; [reflexivity|].
  refine (proj1 (C3_active_window 2 _ _ eq_refl _)).
  unfold fresh_ids. by_compute.
Defined.

(** The claim C6 as the specification words it: for a ticket that has
    been issued, a call of [wait] after the outcome is known gives that
    same outcome. *)
Definition wait_memoized : Prop :=
  ∀ K s0 acts1 acts2 id v,
    new K = inr s0 → fresh_ids (acts1 ++ acts2) → id ∈ issued acts1 →
    let s1 := run acts1 s0 in
    let s2 := run acts2 s1 in
    settled s1 (wait s1 id) = Some v → settled s2 (wait s2 id) = Some v.

(** C6, counterexample: window 1, ticket A is enqueued and admitted (its
    wait gives [true]), then dequeued; a later [wait(A)] gives [false]. *)
Lemma C6_counterexample : ¬ wait_memoized.
Proof.
  intros H.
  specialize (H 1 _ [Enqueue "A"%string] [Dequeue "A"%string] "A"%string true eq_refl).
  cbv zeta in H.
  assert (Some false = Some true) as Hb; [|done].
  apply H; [unfold fresh_ids; by_compute|by_compute|by vm_compute].
Qed.

(** C6, amended.  For a ticket enqueued when [wait] is called: the promise
    [wait] returns is settled with [true] exactly while or after the ticket
    is in the active window, it is settled with [false] when the ticket is
    dequeued while still waiting, a settled promise keeps its value in every
    later state, a later call of [wait] while the ticket is enqueued returns
    the same promise, and a call of [wait] after the ticket was dequeued
    returns [false] at once, also for a ticket that had been admitted. *)
Theorem C6_wait_outcome (K : Z) (s0 : t) (acts1 acts2 : list Action) (id : string) :
  new K = inr s0 → fresh_ids (acts1 ++ acts2) →
  let s1 := run acts1 s0 in
  let s2 := run acts2 s1 in
  id ∈ queue s1 →
  ∃ p, wait s1 id = OnPromise p
  ∧ (id ∈ queue s2 → wait s2 id = OnPromise p)
  ∧ (id ∈ queue s2 → active s2 id = true → settled s2 (OnPromise p) = Some true)
  ∧ (id ∈ queue s2 → active s2 id = false →
       settled s2 (OnPromise p) = None ∧
       settled (dequeue id s2).1 (OnPromise p) = Some false)
  ∧ (∀ v, settled s1 (OnPromise p) = Some v → settled s2 (OnPromise p) = Some v)
  ∧ (id ∉ queue s2 → wait s2 id = Immediate false).
Proof.
  intros Hnew Hfresh s1 s2 Hq.
  pose proof (run_QueueInv K s0 _ Hnew (fresh_ids_app_l _ _ Hfresh)) as HI1. fold s1 in HI1.
  pose proof (run_QueueInv K s0 _ Hnew Hfresh) as HI2.
  rewrite run_app in HI2. fold s1 s2 in HI2.
  destruct (Inv_active_index _ _ _ HI1 Hq) as (i & p & Hi & _ & _ & Hw & _).
  exists p. split; [done|].
  assert (id ∈ queue s2 → wait s2 id = OnPromise p) as Hstable.
  { intros Hq2. unfold wait in *.
    destruct (waiting s1 !! id) as [p'|] eqn:E; [|done]. injection Hw as ->.
    pose proof (run_waiting_stable K s0 acts1 acts2 id p Hnew Hfresh E) as Hs.
    rewrite run_app in Hs. fold s1 s2 in Hs. by rewrite Hs. }
  split_and!.
  - done.
  - intros Hq2 Hact.
    destruct (Inv_active_index _ _ _ HI2 Hq2) as (j & q & _ & _ & _ & Hw2 & Hc).
    rewrite (Hstable Hq2) in Hw2. injection Hw2 as <-.
    simpl. by rewrite Hc, Hact.
  - intros Hq2 Hact.
    by apply (dequeue_waiting_resolves_false K), Hstable.
  - intros v. apply run_settled.
  - by apply (Inv_not_queued K).
Qed.

Lemma C6_wait_outcome_witness :
  ∃ s0, new 1 = inr s0 ∧
  let s1 := run [Enqueue "A"; Enqueue "B"]%string s0 in
  let s2 := run [Dequeue "A"]%string s1 in
  ∃ p, wait s1 "B"%string = OnPromise p ∧
       (active s2 "B"%string = true → settled s2 (OnPromise p) = Some true).
Proof.
  eexists. split; [reflexivity|]. cbv zeta.
  destruct (C6_wait_outcome 1 _ [Enqueue "A"; Enqueue "B"]%string [Dequeue "A"]%string "B"%string eq_refl)
    as (p & Hw & Hs & Ht & _).
  - unfold fresh_ids. by_compute.
  - by_compute.
  - exists p. split; [done|]. intros Ha. apply Ht; [|done]. by_compute.
Defined.

(** The scenario of C9: window 2, tickets A, B and C enqueued in that
    order, and the controller's map from tickets to sockets. *)
Definition scenario_ABC : t :=
  match new 2 with
  | inr s0 => run [Enqueue "A"; Enqueue "B"; Enqueue "C"]%string s0
  | inl _ => mk [] ∅ 0 [] []
  end.

Definition tracker_ABC : QueueTracker.t :=
  QueueTracker.mk scenario_ABC
    (<["A" := "sa"]> (<["B" := "sb"]> (<["C" := "sc"]> ∅)))%string.

(** The claim C9 as the specification words it, with [position(ticket)]
    read as [getPosition]. *)
Definition scenario_as_stated : Prop :=
  let s := scenario_ABC in
  active s "A"%string = true ∧ active s "B"%string = true ∧
  active s "C"%string = false ∧ getPosition s "C"%string = 1 ∧
  let s' := (dequeue "A"%string s).1 in
  active s' "B"%string = true ∧ active s' "C"%string = true.

(** C9, counterexample: [getPosition] is the 0-based index in the whole
    queue, so it answers 2 for C, not 1. *)
Lemma C9_counterexample : ¬ scenario_as_stated.
Proof. intros (_ & _ & _ & H & _). vm_compute in H. discriminate H. Qed.

(** C9, amended.  With window 2 and A, B, C enqueued in that order, A and
    B are active and C waits; [getPosition] gives C the 0-based queue index
    2, and [getQueueState] gives C the waiting position 1 (A and B have the
    positions -2 and -1); after [dequeue(A)] B is still active and C is
    active, at index 1, its wait resolved with [true]. *)
Theorem C9_scenario :
  let s := scenario_ABC in
  active s "A"%string = true ∧ active s "B"%string = true ∧
  active s "C"%string = false ∧
  getPosition s "C"%string = 2 ∧
  QueueTracker.item_position <$> QueueTracker.qs_queue
      (QueueTracker.getQueueState tracker_ABC (Some "sc"%string)) = [-2; -1; 1] ∧
  QueueTracker.waitingPosition
      (QueueTracker.getQueueState tracker_ABC (Some "sc"%string)) = 1 ∧
  QueueTracker.activePosition
      (QueueTracker.getQueueState tracker_ABC (Some "sc"%string)) = 0 ∧
  settled s (wait s "C"%string) = None ∧
  let s' := (dequeue "A"%string s).1 in
  active s' "B"%string = true ∧ active s' "C"%string = true ∧
  getPosition s' "C"%string = 1 ∧
  settled s' (wait s "C"%string) = Some true.
Proof. vm_compute. repeat split. Qed.
End OrderedQueueProofs.

(** ** StreamPiper *)

Section StreamPiperProofs.
Import StreamPiper.
Context `{HL : HashLib} {HS : HashStreaming HL}.

Lemma piper_exec_app ls1 ls2 (s : t) :
  exec (ls1 ++ ls2) s = exec ls1 s ≫= exec ls2.
Proof.
  revert s. induction ls1 as [|l ls1 IH]; intros s; simpl; [done|].
  destruct (step s l); [apply IH|done].
Qed.

Lemma piper_exec_snoc ls l (s : t) :
  exec (ls ++ [l]) s = exec ls s ≫= fun s' => step s' l.
Proof.
  rewrite piper_exec_app. destruct (exec ls s) as [s'|]; simpl; [|done].
  by destruct (step s' l).
Qed.

Lemma delivered_snoc ls l :
  delivered (ls ++ [l]) =
  delivered ls ++ match l with SrcData c => c | _ => [] end.
Proof.
  unfold delivered. rewrite omap_app, concat_app. f_equal.
  destruct l; simpl; by rewrite ?app_nil_r.
Qed.

Definition is_ended (st : SourceStatus) : bool :=
  match st with Ended => true | _ => false end.

(** The invariant that ties the state to the bytes delivered so far. *)
Record PiperInv (ls : list Label) (s : t) : Prop := {
  inv_hash : hash s = update createHash (delivered ls);
  inv_out : drain (outputStream s) = delivered ls;
  inv_header : header s = take (Z.to_nat HEADER_SIZE) (delivered ls);
  inv_final : isHeaderFinalized s =
              (HEADER_SIZE <=? Z.of_nat (length (header s))) || is_ended (status s);
  inv_hpromise : headerPromise s =
                 if isHeaderFinalized s then Some (header s) else None;
  inv_dataHash : dataHash s =
                 if is_ended (status s) then Some (digest (hash s)) else None;
  inv_hashPromise : hashPromise s = dataHash s;
  inv_ended : ended (outputStream s) = is_ended (status s);
  inv_end_label : is_ended (status s) = true ↔ SrcEnd ∈ ls
}.

Lemma new_PiperInv size : PiperInv [] (new size).
Proof.
  split; try done.
  - simpl. by rewrite update_nil.
  - simpl. split; [done|by intros ?%elem_of_nil].
Qed.

Lemma slice0_prefix {A} (n : Z) (l : list A) :
  0 ≤ n → slice0 (Z.min n (Z.of_nat (length l))) l = take (Z.to_nat n) l.
Proof.
  intros Hn. unfold slice0.
  destruct (Z.ltb_spec (Z.min n (Z.of_nat (length l))) 0); [lia|].
  destruct (decide (n ≤ Z.of_nat (length l))).
  - by rewrite Z.min_l.
  - rewrite Z.min_r, Nat2Z.id, !take_ge by lia. done.
Qed.

Lemma on_data_fields c (s : t) :
  let s' := on_data c s in
  hash s' = update (hash s) c ∧
  chunks (outputStream s') = chunks (outputStream s) ++ [c] ∧
  ended (outputStream s') = ended (outputStream s) ∧
  status s' = status s ∧ dataHash s' = dataHash s ∧
  hashPromise s' = hashPromise s.
Proof.
  unfold on_data. by destruct (if isHeaderFinalized s then _ else _) as [[? ?] ?].
Qed.

Lemma on_data_PiperInv ls s c :
  PiperInv ls s → flowing s = true → PiperInv (ls ++ [SrcData c]) (on_data c s).
Proof.
  intros [Hh Ho Hhd Hf Hp Hd Hhp He Hl] Hflow.
  assert (is_ended (status s) = false) as Hne.
  { unfold flowing in Hflow. destruct (status s); [done|..];
      by rewrite andb_false_r in Hflow. }
  rewrite Hne, orb_false_r in Hf.
  assert (header (on_data c s) = take (Z.to_nat HEADER_SIZE) (delivered ls ++ c) ∧
          isHeaderFinalized (on_data c s) =
            (HEADER_SIZE <=? Z.of_nat (length (header (on_data c s)))) ∧
          headerPromise (on_data c s) =
            if isHeaderFinalized (on_data c s) then Some (header (on_data c s)) else None)
    as (Hhd' & Hf' & Hp').
  { unfold on_data. destruct (isHeaderFinalized s) eqn:Efin; simpl.
    - symmetry in Hf. rewrite Hf, Hp. apply Z.leb_le in Hf.
      split_and!; try done.
      rewrite Hhd. rewrite Hhd in Hf. rewrite length_take in Hf.
      rewrite take_app_le by lia. done.
    - symmetry in Hf. apply Z.leb_gt in Hf. rewrite Hp.
      rewrite slice0_prefix by lia.
      assert (header s = delivered ls) as Hall.
      { rewrite Hhd. apply take_ge. rewrite Hhd, length_take in Hf. lia. }
      assert (header s ++ take (Z.to_nat (HEADER_SIZE - Z.of_nat (length (header s)))) c
              = take (Z.to_nat HEADER_SIZE) (delivered ls ++ c)) as Eq.
      { rewrite take_app, <- Hall. f_equal.
        - symmetry. apply take_ge. lia.
        - f_equal. lia. }
      rewrite Eq.
      destruct (HEADER_SIZE <=? _) eqn:E; simpl; rewrite ?Eq, ?E; done. }
  destruct (on_data_fields c s) as (E1 & E2 & E3 & E4 & E5 & E6).
  split; rewrite ?delivered_snoc, ?E4, ?E5, ?E6, ?Hne, ?orb_false_r; try done.
  - by rewrite E1, Hh, update_app.
  - unfold drain in *. by rewrite E2, concat_app, Ho; simpl; rewrite app_nil_r.
  - by rewrite Hd, Hne.
  - by rewrite E3, He, Hne.
  - split; [done|]. rewrite elem_of_app, list_elem_of_singleton.
    intros [Hin|?]; [|done]. apply Hl in Hin. congruence.
Qed.

Lemma on_end_PiperInv ls s :
  PiperInv ls s → flowing s = true → PiperInv (ls ++ [SrcEnd]) (on_end s).
Proof.
  intros [Hh Ho Hhd Hf Hp Hd Hhp He Hl] Hflow.
  assert (is_ended (status s) = false) as Hne.
  { unfold flowing in Hflow. destruct (status s); [done|..];
      by rewrite andb_false_r in Hflow. }
  rewrite Hne, orb_false_r in Hf. rewrite Hne in Hd. rewrite Hd in Hhp.
  split; simpl; rewrite ?delivered_snoc, ?app_nil_r; try done.
  - by rewrite orb_true_r.
  - rewrite Hp, Hf. destruct (Z.ltb_spec (Z.of_nat (length (header s))) HEADER_SIZE).
    + by assert ((HEADER_SIZE <=? Z.of_nat (length (header s))) = false) as ->
        by (apply Z.leb_gt; lia).
    + by assert ((HEADER_SIZE <=? Z.of_nat (length (header s))) = true) as ->
        by (apply Z.leb_le; lia).
  - by rewrite Hhp.
  - split; [intros _|done]. apply elem_of_app. right. by apply list_elem_of_singleton.
Qed.

(** Steps that are no event of the source leave the data fields alone. *)
Lemma PiperInv_ext ls s s' l :
  PiperInv ls s →
  hash s' = hash s →
  chunks (outputStream s') = chunks (outputStream s) ∧
  ended (outputStream s') = ended (outputStream s) →
  header s' = header s →
  isHeaderFinalized s' = isHeaderFinalized s → headerPromise s' = headerPromise s →
  dataHash s' = dataHash s → hashPromise s' = hashPromise s →
  is_ended (status s') = is_ended (status s) →
  delivered [l] = [] → l ≠ SrcEnd →
  PiperInv (ls ++ [l]) s'.
Proof.
  intros [Hh Ho Hhd Hf Hp Hd Hhp He Hl] E1 [E2 E2'] E3 E4 E5 E6 E7 E8 Hdl Hne.
  assert (delivered (ls ++ [l]) = delivered ls) as Hdel.
  { rewrite delivered_snoc. unfold delivered in Hdl.
    destruct l; simpl in *; rewrite ?app_nil_r in *; try done.
    by rewrite Hdl, app_nil_r. }
  split; unfold drain in *;
    rewrite ?Hdel, ?E1, ?E2, ?E2', ?E3, ?E4, ?E5, ?E6, ?E7, ?E8; try done.
  rewrite Hl, elem_of_app, list_elem_of_singleton.
  split; [by left|by intros [?|?]].
Qed.

Lemma initialize_fields (s : t) :
  let s' := _initialize s in
  hash s' = hash s ∧ outputStream s' = outputStream s ∧ header s' = header s ∧
  isHeaderFinalized s' = isHeaderFinalized s ∧ headerPromise s' = headerPromise s ∧
  dataHash s' = dataHash s ∧ hashPromise s' = hashPromise s ∧ status s' = status s.
Proof. unfold _initialize. by destruct (isInitialized s). Qed.

Lemma step_PiperInv ls s l s' : PiperInv ls s → step s l = Some s' → PiperInv (ls ++ [l]) s'.
Proof.
  intros HI Hstep. destruct l; simpl in Hstep.
  - injection Hstep as <-. unfold getHeader.
    destruct (isHeaderFinalized s) eqn:E.
    + by eapply PiperInv_ext.
    + destruct (initialize_fields s) as (?&?&?&?&?&?&?&?).
      eapply PiperInv_ext; eauto; simpl; try split; congruence.
  - destruct (headerWaiters s), (headerPromise s); try done.
    injection Hstep as <-. by eapply PiperInv_ext.
  - injection Hstep as <-. unfold getStream.
    destruct (initialize_fields s) as (?&?&?&?&?&?&?&?).
    eapply PiperInv_ext; eauto; simpl; try split; congruence.
  - injection Hstep as <-. unfold getHash. destruct (truthy (dataHash s)).
    + by eapply PiperInv_ext.
    + destruct (initialize_fields s) as (?&?&?&?&?&?&?&?).
      eapply PiperInv_ext; eauto; simpl; try split; congruence.
  - destruct (flowing s) eqn:E; [|done]. injection Hstep as <-.
    by apply on_data_PiperInv.
  - destruct (flowing s) eqn:E; [|done]. injection Hstep as <-.
    by apply on_end_PiperInv.
  - destruct (status s) eqn:E; try done. destruct (isInitialized s); [|done].
    injection Hstep as <-. eapply PiperInv_ext; eauto; simpl; try done.
    by rewrite E.
Qed.

Lemma exec_PiperInv size ls s : exec ls (new size) = Some s → PiperInv ls s.
Proof.
  revert s. induction ls as [|l ls IH] using rev_ind; intros s Hex.
  - injection Hex as <-. apply new_PiperInv.
  - rewrite piper_exec_snoc in Hex.
    destruct (exec ls (new size)) as [s1|] eqn:E; [|done]. simpl in Hex.
    eapply step_PiperInv; eauto.
Qed.

Lemma delivered_app ls1 ls2 : delivered (ls1 ++ ls2) = delivered ls1 ++ delivered ls2.
Proof. unfold delivered. by rewrite omap_app, concat_app. Qed.

(** Steps that are no event of the source: the accessors. *)
Lemma piper_step_closed (s s' : t) l :
  status s ≠ Open → step s l = Some s' →
  status s' = status s ∧ headerPromise s' = headerPromise s ∧
  hashPromise s' = hashPromise s ∧ dataHash s' = dataHash s ∧
  isHeaderFinalized s' = isHeaderFinalized s ∧ header s' = header s ∧
  outputStream s' = outputStream s ∧ delivered [l] = [].
Proof.
  intros Hst Hstep.
  destruct (initialize_fields s) as (?&?&?&?&?&?&?&?).
  destruct l; simpl in Hstep.
  - injection Hstep as <-. unfold getHeader.
    destruct (isHeaderFinalized s) eqn:E; simpl; split_and!; (done || congruence).
  - destruct (headerWaiters s), (headerPromise s) eqn:E; try done.
    injection Hstep as <-. simpl. split_and!; (done || congruence).
  - injection Hstep as <-. unfold getStream. simpl. split_and!; (done || congruence).
  - injection Hstep as <-. unfold getHash.
    destruct (truthy (dataHash s)); simpl; split_and!; (done || congruence).
  - unfold flowing in Hstep. destruct (status s); try done;
      by rewrite andb_false_r in Hstep.
  - unfold flowing in Hstep. destruct (status s); try done;
      by rewrite andb_false_r in Hstep.
  - by destruct (status s).
Qed.

Lemma piper_exec_closed ls (s s' : t) :
  status s ≠ Open → exec ls s = Some s' →
  status s' = status s ∧ headerPromise s' = headerPromise s ∧
  hashPromise s' = hashPromise s ∧ dataHash s' = dataHash s ∧
  isHeaderFinalized s' = isHeaderFinalized s ∧ header s' = header s ∧
  outputStream s' = outputStream s ∧ delivered ls = [].
Proof.
  revert s. induction ls as [|l ls IH]; intros s Hst Hex; simpl in Hex.
  - by injection Hex as <-.
  - destruct (step s l) as [s1|] eqn:E; [|done].
    destruct (piper_step_closed _ _ _ Hst E) as (E1&E2&E3&E4&E5&E6&E7&E8).
    destruct (IH s1) as (F1&F2&F3&F4&F5&F6&F7&F8); [congruence|done|].
    change (l :: ls) with ([l] ++ ls). rewrite delivered_app, E8, F8.
    split_and!; (done || congruence).
Qed.

(** C2. Take any run of a piper over a source: the source delivers its
    bytes in any chunks, the accessors are called at any points, and the
    run ends after the source has ended.  Then a call of [getHeader] made
    anywhere in the run has received the first [min L HEADER_SIZE] bytes
    of the source, a call of [getHash] has received the SHA-256 digest of
    all [L] bytes, and has received nothing in any state in which the
    source has not ended yet, and the output stream has ended and drains
    to exactly the bytes of the source. *)
Theorem C2_stream_tee (size : Z) (ls1 ls2 ls3 : list Label) (s1 sm s2 : t) :
  exec ls1 (new size) = Some s1 →
  exec ls2 s1 = Some sm →
  exec ls3 sm = Some s2 →
  status s2 = Ended →
  let data := delivered (ls1 ++ ls2 ++ ls3) in
  getHeader_value s1 s2 = Some (take (Z.to_nat HEADER_SIZE) data)
  ∧ Z.of_nat (length (take (Z.to_nat HEADER_SIZE) data))
    = Z.min (Z.of_nat (length data)) HEADER_SIZE
  ∧ getHash_value s1 s2 = Some (sha256 data)
  ∧ (status sm ≠ Ended → getHash_value s1 sm = None)
  ∧ drain (outputStream s2) = data
  ∧ ended (outputStream s2) = true.
Proof.
  intros H1 H2 H3 Hend data.
  pose proof (exec_PiperInv _ _ _ H1) as I1.
  assert (exec (ls1 ++ ls2) (new size) = Some sm) as H12.
  { rewrite piper_exec_app, H1. done. }
  pose proof (exec_PiperInv _ _ _ H12) as Im.
  assert (exec (ls1 ++ ls2 ++ ls3) (new size) = Some s2) as H123.
  { rewrite app_assoc, piper_exec_app, H12. done. }
  pose proof (exec_PiperInv _ _ _ H123) as I2. fold data in I2.
  assert (exec (ls2 ++ ls3) s1 = Some s2) as H23.
  { rewrite piper_exec_app, H2. done. }
  assert (is_ended (status s1) = true → delivered ls1 = data ∧ hash s1 = hash s2)
    as Hdone.
  { intros He.
    assert (status s1 ≠ Open) as Hno by (by destruct (status s1)).
    destruct (piper_exec_closed _ _ _ Hno H23) as (_&_&_&_&_&_&_&E).
    assert (delivered ls1 = data) as Hd.
    { unfold data. by rewrite delivered_app, E, app_nil_r. }
    split; [done|]. by rewrite (inv_hash _ _ I1), (inv_hash _ _ I2), Hd. }
  assert (is_ended (status s2) = true) as He2 by (by rewrite Hend).
  split_and!.
  - unfold getHeader_value. destruct (isHeaderFinalized s1) eqn:E.
    + f_equal. rewrite (inv_header _ _ I1).
      rewrite (inv_final _ _ I1) in E. apply orb_true_iff in E as [E|E].
      * apply Z.leb_le in E.
        rewrite (inv_header _ _ I1), length_take in E.
        unfold data. rewrite delivered_app.
        assert (Z.to_nat HEADER_SIZE ≤ length (delivered ls1))%nat by lia.
        by rewrite take_app_le.
      * by destruct (Hdone E) as [-> _].
    + rewrite (inv_hpromise _ _ I2), (inv_final _ _ I2), He2, orb_true_r.
      by rewrite (inv_header _ _ I2).
  - rewrite length_take. unfold HEADER_SIZE. lia.
  - unfold getHash_value, sha256. destruct (truthy (dataHash s1)) eqn:E.
    + rewrite (inv_dataHash _ _ I1) in *.
      destruct (is_ended (status s1)) eqn:E1; [|done].
      destruct (Hdone eq_refl) as [<- _]. by rewrite (inv_hash _ _ I1).
    + rewrite (inv_hashPromise _ _ I2), (inv_dataHash _ _ I2), He2.
      by rewrite (inv_hash _ _ I2).
  - intros Hne.
    assert (is_ended (status sm) = false) as Em by (by destruct (status sm)).
    assert (is_ended (status s1) = false) as E1.
    { apply not_true_is_false. intros E.
      apply (inv_end_label _ _ I1) in E.
      assert (SrcEnd ∈ ls1 ++ ls2) as Hin by (apply elem_of_app; by left).
      apply (inv_end_label _ _ Im) in Hin. congruence. }
    unfold getHash_value.
    rewrite (inv_dataHash _ _ I1), E1. simpl.
    by rewrite (inv_hashPromise _ _ Im), (inv_dataHash _ _ Im), Em.
  - apply I2.
  - by rewrite (inv_ended _ _ I2).
Qed.

(** C4, amended.  When the source emits 'error' the error is emitted on
    the output stream, and that is all: the listener settles neither
    promise.  The digest has not been produced and is never produced in any
    later state, so every wait of [getHash] stays pending; a wait of
    [getHeader] that was pending stays pending; a header that was final at
    the error keeps its value. *)
Theorem C4_source_error (size : Z) (ls ls' : list Label) (err : string) (s s' s'' : t) :
  exec ls (new size) = Some s →
  step s (SrcError err) = Some s' →
  exec ls' s' = Some s'' →
  errors (outputStream s'') = errors (outputStream s) ++ [err]
  ∧ ended (outputStream s'') = false
  ∧ getHash_value s s'' = None
  ∧ getHeader_value s s'' = (if isHeaderFinalized s then Some (header s) else None)
  ∧ headerPromise s'' = headerPromise s.
Proof.
  intros Hex Hstep Hex'.
  pose proof (exec_PiperInv _ _ _ Hex) as HI.
  simpl in Hstep. destruct (status s) eqn:Est; try done.
  destruct (isInitialized s); [|done]. injection Hstep as <-.
  assert (status (on_error err s) ≠ Open) as Hno by done.
  destruct (piper_exec_closed _ _ _ Hno Hex') as (E1&E2&E3&E4&E5&E6&E7&_).
  simpl in *.
  pose proof (inv_dataHash _ _ HI) as Hd. rewrite Est in Hd. simpl in Hd.
  pose proof (inv_hashPromise _ _ HI) as Hp. rewrite Hd in Hp.
  pose proof (inv_ended _ _ HI) as He. rewrite Est in He. simpl in He.
  rewrite E7. simpl. split_and!; try done.
  - unfold getHash_value. rewrite Hd. simpl. by rewrite E3.
  - unfold getHeader_value. rewrite E2, (inv_hpromise _ _ HI).
    by destruct (isHeaderFinalized s).
Qed.
End StreamPiperProofs.

(** A hash object for running the model on concrete inputs: its state is
    the data itself. *)
Definition list_hash : StreamPiper.HashLib :=
  {| StreamPiper.Hash := list byte;
     StreamPiper.createHash := [];
     StreamPiper.update := fun h c => h ++ c;
     StreamPiper.digest := String.string_of_list_byte |}.

Lemma list_hash_streaming : StreamPiper.HashStreaming list_hash.
Proof. split; simpl; intros; [apply app_nil_r|by rewrite app_assoc]. Qed.

Section StreamPiperRuns.
Import StreamPiper.
#[local] Existing Instance list_hash.

Lemma C2_stream_tee_witness :
  let ls1 := [GetHeader; SrcData [x01; x02]%byte] in
  let ls2 := [GetHash] in
  let ls3 := [SrcData [x03]%byte; SrcEnd] in
  ∃ s1 sm s2,
    exec (H := list_hash) ls1 (new 3) = Some s1 ∧ exec ls2 s1 = Some sm ∧
    exec ls3 sm = Some s2 ∧
    getHeader_value s1 s2 = Some [x01; x02; x03]%byte ∧
    getHash_value s1 s2 = Some (sha256 [x01; x02; x03]%byte).
Proof.
  intros ls1 ls2 ls3.
  pose (s1 := default (new 0) (exec (H := list_hash) ls1 (new 3))).
  pose (sm := default (new 0) (exec (H := list_hash) ls2 s1)).
  pose (s2 := default (new 0) (exec (H := list_hash) ls3 sm)).
  exists s1, sm, s2.
  destruct (C2_stream_tee (HS := list_hash_streaming) 3 ls1 ls2 ls3 s1 sm s2)
    as (Hh & _ & Hd & _); try reflexivity.
  split_and!; [reflexivity..|exact Hh|exact Hd].
Defined.

(** The claim C4 as the specification words it: after an error of the
    source every pending wait is settled. *)
Definition waiters_settled_on_error : Prop :=
  ∀ size ls err (s s' : t (H := list_hash)),
    exec ls (new size) = Some s →
    step s (SrcError err) = Some s' →
    ∃ ls' s'', exec ls' s' = Some s'' ∧
      is_Some (getHeader_value s s'') ∧ is_Some (getHash_value s s'').

(** C4, counterexample: the header and the digest are awaited, the source
    delivers one byte and then fails; both waits are pending in every
    later state. *)
Lemma C4_counterexample : ¬ waiters_settled_on_error.
Proof.
  intros H.
  pose (ls := [GetHeader; GetHash; SrcData [x01]%byte]).
  pose (s := default (new 0) (exec (H := list_hash) ls (new 1))).
  pose (s' := default (new 0) (step s (SrcError "boom"))).
  destruct (H 1 ls "boom"%string s s' eq_refl eq_refl) as (ls' & s'' & Hex & Hh & Hd).
  assert (status s' ≠ Open) as Hno by done.
  destruct (piper_exec_closed ls' s' s'' Hno Hex) as (_ & _ & Hp & _).
  unfold getHash_value in Hd. simpl in Hd. rewrite Hp in Hd. by destruct Hd.
Qed.

Lemma C4_source_error_witness :
  let ls := [GetHeader; GetHash; SrcData [x01]%byte] in
  ∃ s s' s'',
    exec (H := list_hash) ls (new 1) = Some s ∧
    step s (SrcError "boom") = Some s' ∧
    exec [GetStream] s' = Some s'' ∧
    errors (outputStream s'') = ["boom"%string] ∧
    getHash_value s s'' = None ∧ getHeader_value s s'' = None.
Proof.
  intros ls.
  pose (s := default (new 0) (exec (H := list_hash) ls (new 1))).
  pose (s' := default (new 0) (step s (SrcError "boom"))).
  pose (s'' := default (new 0) (exec [GetStream] s')).
  exists s, s', s''.
  destruct (C4_source_error (HS := list_hash_streaming) 1 ls [GetStream] "boom" s s' s''
              eq_refl eq_refl eq_refl) as (He & _ & Hd & Hh & _).
  split_and!; [reflexivity..|exact He|exact Hd|exact Hh].
Defined.
End StreamPiperRuns.

(** ** SerialQueue *)

Section SerialQueueProofs.
Import SerialQueue.
Context {Args : Type}.
Implicit Types (s : t Args) (l : Label Args) (ls : list (Label Args)).

Lemma sq_exec_app ls1 ls2 s : exec (ls1 ++ ls2) s = exec ls1 s ≫= exec ls2.
Proof.
  revert s. induction ls1 as [|l ls1 IH]; intros s; simpl; [done|].
  destruct (step s l); [apply IH|done].
Qed.

Lemma sq_exec_snoc ls l s :
  exec (ls ++ [l]) s = exec ls s ≫= fun s' => step s' l.
Proof.
  rewrite sq_exec_app. destruct (exec ls s) as [s'|]; simpl; [|done].
  by destruct (step s' l).
Qed.

Lemma called_snoc (tr : list (Event Args)) e :
  called (tr ++ [e]) = called tr ++ match e with EvCall a => [a] | _ => [] end.
Proof. unfold called. rewrite omap_app. by destruct e. Qed.

Lemma appended_snoc (tr : list (Event Args)) e :
  appended (tr ++ [e]) =
  appended tr ++ match e with EvPush a true => [a] | _ => [] end.
Proof. unfold appended. rewrite omap_app. by destruct e as [|? []]. Qed.

(** The list that is still to be handled: while [work] runs, the first
    item is the one in the hands of the handler. *)
Definition pending s : list Args :=
  if working s then tail (items s) else items s.

Record SerialInv s : Prop := {
  inv_one : (length (running s) ≤ 1)%nat;
  inv_busy : running s ≠ [] → working s = true ∨ open s = false;
  inv_open : open s = true →
             (called (trace s) ++ pending s) `sublist_of` appended (trace s);
  inv_closed : open s = false →
               items s = [] ∧ working s = false ∧
               called (trace s) `sublist_of` appended (trace s)
}.

Lemma new_SerialInv lim : SerialInv (new lim).
Proof. split; simpl; try done; try lia. Qed.

Lemma sublist_tail_l {A} (l1 l2 l3 : list A) :
  (l1 ++ l2) `sublist_of` l3 → (l1 ++ tail l2) `sublist_of` l3.
Proof.
  intros H. etrans; [|exact H]. apply sublist_app; [done|].
  destruct l2; [done|]. by apply sublist_cons.
Qed.

Lemma sublist_app_nil_l {A} (l1 l2 l3 : list A) :
  (l1 ++ l2) `sublist_of` l3 → l1 `sublist_of` l3.
Proof.
  intros H. etrans; [|exact H]. by apply sublist_inserts_r.
Qed.

Lemma step_SerialInv s l s' : SerialInv s → step s l = Some s' → SerialInv s'.
Proof.
  intros [H1 H2 H3 H4] Hstep. destruct l as [a|i|i|k b1|k| |]; simpl in Hstep.
  - injection Hstep as <-. by split.
  - destruct (pushers s !! i) as [[a|a]|]; try done.
    destruct (queue_full s); injection Hstep as <-; by split.
  - destruct (pushers s !! i) as [[a|a]|] eqn:Ep; try done.
    injection Hstep as <-. unfold push_resume.
    destruct (open s) eqn:Eo; simpl.
    + specialize (H3 eq_refl). unfold pending in H3.
      destruct (working s) eqn:Ew; simpl.
      * split; simpl; rewrite ?Eo, ?Ew; try done; try lia. intros _.
        unfold pending; simpl. rewrite ?Ew, appended_snoc, called_snoc, app_nil_r.
        destruct (items s) as [|x rest]; simpl in *.
        -- rewrite app_nil_r in *. by apply sublist_inserts_r.
        -- rewrite app_assoc. by apply sublist_app.
      * assert (running s = []) as Hr.
        { destruct (running s) eqn:Er; [done|].
          destruct H2 as [?|?]; [done|congruence..]. }
        unfold work, work_loop; simpl.
        destruct (items s ++ [a]) as [|x rest] eqn:Ei.
        { by destruct (items s). }
        split; simpl; rewrite ?Hr, ?Eo; try done; try lia.
        intros _. unfold pending; simpl.
           rewrite !appended_snoc, !called_snoc, app_nil_r. simpl.
           rewrite app_nil_r, <- app_assoc. simpl.
           rewrite <- Ei, app_assoc. by apply sublist_app.
    + destruct (H4 eq_refl) as (Hi & Hw & Hs).
      split; simpl; rewrite ?Eo; try done; try lia. intros _.
      rewrite appended_snoc, called_snoc, !app_nil_r. done.
  - destruct (running s !! k) as [x|] eqn:Er; [|done].
    injection Hstep as <-.
    assert (running s = [x] ∧ k = 0%nat) as [Hr ->].
    { destruct (running s) as [|y [|z r]]; simpl in *; [done| |lia].
      destruct k; simpl in *; [by injection Er as ->|done]. }
    unfold work_resume. rewrite Hr. simpl.
    assert (∀ s0 : t Args,
      s0 = work_loop (mk (tail (items s)) (limit s) (working s) (open s)
                         (pushers s) [] (trace s)) → SerialInv s0) as Hcont.
    { intros s0 ->. unfold work_loop; simpl.
      destruct (open s) eqn:Eo.
      - specialize (H3 eq_refl). unfold pending in H3.
        destruct (working s) eqn:Ew; simpl.
        + destruct (tail (items s)) as [|y r] eqn:Et; simpl.
          * split; simpl; rewrite ?Eo; try done; try lia.
          * split; simpl; rewrite ?Eo; try done; try lia. intros _.
            unfold pending; simpl. rewrite called_snoc, appended_snoc, app_nil_r.
            by rewrite <- app_assoc.
        + split; simpl; rewrite ?Eo; try done; try lia. intros _.
          unfold pending; simpl. by apply sublist_tail_l.
      - destruct (H4 eq_refl) as (Hi & Hw & Hs). rewrite Hi, Hw. simpl.
        split; simpl; rewrite ?Eo; try done; try lia. }
    destruct b1 as [[|]|]; [by apply Hcont| |by apply Hcont].
    split; simpl; try done; try lia. intros _. split_and!; try done.
    destruct (open s) eqn:Eo.
    + eapply sublist_app_nil_l, H3. done.
    + by apply H4.
  - destruct (running s !! k) as [x|] eqn:Er; [|done].
    injection Hstep as <-.
    assert (running s = [x] ∧ k = 0%nat) as [Hr ->].
    { destruct (running s) as [|y [|z r]]; simpl in *; [done| |lia].
      destruct k; simpl in *; [by injection Er as ->|done]. }
    rewrite Hr. split; simpl; try done; try lia.
  - injection Hstep as <-. split; simpl; try done; try lia.
    + intros Ho. specialize (H3 Ho). unfold pending in *. simpl.
      destruct (working s); simpl; rewrite app_nil_r; by eapply sublist_app_nil_l.
    + intros Ho. destruct (H4 Ho) as (_ & ? & ?). done.
  - injection Hstep as <-. split; simpl; try done; try lia.
    intros _. split_and!; try done.
      destruct (open s) eqn:Eo.
      * eapply sublist_app_nil_l, H3. done.
      * by apply H4.
Qed.

Lemma exec_SerialInv ls s s' : SerialInv s → exec ls s = Some s' → SerialInv s'.
Proof.
  revert s. induction ls as [|l ls IH]; intros s HI Hex; simpl in Hex.
  - by injection Hex as <-.
  - destruct (step s l) as [s1|] eqn:E; [|done].
    eapply IH; [|done]. by eapply step_SerialInv.
Qed.

(** Without a call of [clear] from outside no item is skipped: the items
    appended are those handled, the one in the hands of the handler, and
    [items]. *)
Record SerialInvF s : Prop := {
  invf_open : open s = true →
    ∃ d, appended (trace s) = d ++ items s ∧
         ((called (trace s) = d ∧ running s = [] ∧ working s = false) ∨
          (∃ x rest, items s = x :: rest ∧ called (trace s) = d ++ [x] ∧
                     working s = true));
  invf_closed : open s = false →
    called (trace s) `prefix_of` appended (trace s)
}.

Lemma new_SerialInvF lim : SerialInvF (new (Args := Args) lim).
Proof.
  split; simpl; [|done]. intros _. exists []. split; [done|]. by left.
Qed.

Lemma step_SerialInvF s l s' :
  SerialInv s → SerialInvF s → l ≠ Clear → step s l = Some s' → SerialInvF s'.
Proof.
  intros [H1 H2 H3 H4] [F1 F2] Hl Hstep.
  assert (open s = true → called (trace s) `prefix_of` appended (trace s)) as Hpre.
  { intros Ho. destruct (F1 Ho) as (d & Ha & [(Hc & _ & _)|(x & rest & Hi & Hc & _)]).
    - rewrite Ha, Hc. by apply prefix_app_r.
    - rewrite Ha, Hc, Hi. exists rest. by rewrite <- app_assoc. }
  destruct l as [a|i|i|k b1|k| |]; simpl in Hstep; try done.
  - injection Hstep as <-. by split.
  - destruct (pushers s !! i) as [[a|a]|]; try done.
    destruct (queue_full s); injection Hstep as <-; by split.
  - destruct (pushers s !! i) as [[a|a]|] eqn:Ep; try done.
    injection Hstep as <-. unfold push_resume.
    destruct (open s) eqn:Eo; simpl.
    + destruct (F1 eq_refl) as (d & Ha & [(Hc & Hr & Hw)|(x & rest & Hi & Hc & Hw)]).
      * rewrite Hw. simpl. unfold work, work_loop. simpl.
        destruct (items s ++ [a]) as [|x rest] eqn:Ei.
        { by destruct (items s). }
        split; simpl; rewrite ?Eo; [|done]. intros _.
        exists d. rewrite !appended_snoc, !called_snoc, !app_nil_r. simpl.
        rewrite Ha, Hc, <- app_assoc, Ei. split; [done|].
        right. by exists x, rest.
      * rewrite Hw. simpl.
        split; simpl; rewrite ?Eo; [|done]. intros _.
        exists d. rewrite appended_snoc, called_snoc, app_nil_r, Ha, Hi, Hc.
        split; [by rewrite <- app_assoc|]. right.
        by exists x, (rest ++ [a]).
    + split; simpl; rewrite ?Eo; [done|]. intros _.
      rewrite appended_snoc, called_snoc, !app_nil_r. by apply F2.
  - destruct (running s !! k) as [x0|] eqn:Er; [|done].
    injection Hstep as <-.
    assert (running s = [x0] ∧ k = 0%nat) as [Hr ->].
    { destruct (running s) as [|y [|z r]]; simpl in *; [done| |lia].
      destruct k; simpl in *; [by injection Er as ->|done]. }
    unfold work_resume. rewrite Hr. simpl.
    assert (SerialInvF (work_loop (mk (tail (items s)) (limit s) (working s) (open s)
                                (pushers s) [] (trace s)))) as Hcont.
    { unfold work_loop; simpl. destruct (open s) eqn:Eo.
      - destruct (F1 eq_refl) as (d & Ha & [(Hc & Hr' & Hw)|(x & rest & Hi & Hc & Hw)]).
        { congruence. }
        rewrite Hw, Hi. simpl. destruct rest as [|y r]; simpl.
        + split; simpl; rewrite ?Eo; [|done]. intros _.
          exists (d ++ [x]). rewrite Ha, Hi, <- app_assoc. split; [done|]. by left.
        + split; simpl; rewrite ?Eo; [|done]. intros _.
          exists (d ++ [x]). rewrite appended_snoc, called_snoc, app_nil_r, Ha, Hi, Hc.
          rewrite <- app_assoc. split; [done|]. right. by exists y, r.
      - destruct (H4 eq_refl) as (Hi & Hw & _). rewrite Hi, Hw. simpl.
        split; simpl; rewrite ?Eo; [done|]. intros _. by apply F2. }
    destruct b1 as [[|]|]; [done| |done].
    split; simpl; [done|]. intros _.
    destruct (open s) eqn:Eo; [by apply Hpre|by apply F2].
  - destruct (running s !! k) as [x0|] eqn:Er; [|done].
    injection Hstep as <-.
    assert (running s = [x0] ∧ k = 0%nat) as [Hr ->].
    { destruct (running s) as [|y [|z r]]; simpl in *; [done| |lia].
      destruct k; simpl in *; [by injection Er as ->|done]. }
    split; simpl; [|done]. intros Ho.
    destruct (F1 Ho) as (d & Ha & [(Hc & Hr' & Hw)|(x & rest & Hi & Hc & Hw)]).
    { congruence. }
    exists d. split; [done|]. right. by exists x, rest.
  - injection Hstep as <-. split; simpl; [done|]. intros _.
    destruct (open s) eqn:Eo; [by apply Hpre|by apply F2].
Qed.

Lemma exec_SerialInvF ls s s' :
  SerialInv s → SerialInvF s → Clear ∉ ls → exec ls s = Some s' → SerialInvF s'.
Proof.
  revert s. induction ls as [|l ls IH]; intros s HI HF Hc Hex; simpl in Hex.
  - by injection Hex as <-.
  - destruct (step s l) as [s1|] eqn:E; [|done].
    apply not_elem_of_cons in Hc as [Hne Hc].
    eapply (IH s1); [by eapply step_SerialInv| |done..].
    eapply step_SerialInvF; eauto.
Qed.

(** Once the queue is closed and empty, all that happens is that calls of
    [push] are refused. *)
Definition refusal (a : Args) : Event Args := EvPush a false.

Lemma serial_step_closed s l s' :
  open s = false → items s = [] → step s l = Some s' →
  open s' = false ∧ items s' = [] ∧
  ∃ rs, trace s' = trace s ++ (refusal <$> rs).
Proof.
  intros Ho Hi Hstep.
  assert (∃ rs, trace s = trace s ++ (refusal <$> rs)) as Hsame
    by (exists []; by rewrite app_nil_r).
  destruct l as [a|i|i|k b1|k| |]; simpl in Hstep.
  - by injection Hstep as <-.
  - destruct (pushers s !! i) as [[a|a]|]; try done.
    destruct (queue_full s); by injection Hstep as <-.
  - destruct (pushers s !! i) as [[a|a]|] eqn:Ep; try done.
    injection Hstep as <-. unfold push_resume. rewrite Ho. simpl.
    split_and!; [done..|]. by exists [a].
  - destruct (running s !! k) as [x0|] eqn:Er; [|done].
    injection Hstep as <-. unfold work_resume, work_loop. simpl. rewrite Hi. simpl.
    destruct b1 as [[|]|]; simpl; [by destruct (working s)|done|by destruct (working s)].
  - destruct (running s !! k); [|done]. by injection Hstep as <-.
  - by injection Hstep as <-.
  - by injection Hstep as <-.
Qed.

Lemma serial_exec_closed ls s s' :
  open s = false → items s = [] → exec ls s = Some s' →
  open s' = false ∧ items s' = [] ∧
  ∃ rs, trace s' = trace s ++ (refusal <$> rs).
Proof.
  revert s. induction ls as [|l ls IH]; intros s Ho Hi Hex; simpl in Hex.
  - injection Hex as <-. split_and!; [done..|]. exists []. by rewrite app_nil_r.
  - destruct (step s l) as [s1|] eqn:E; [|done].
    destruct (serial_step_closed _ _ _ Ho Hi E) as (Ho1 & Hi1 & rs1 & Ht1).
    destruct (IH s1 Ho1 Hi1 Hex) as (Ho2 & Hi2 & rs2 & Ht2).
    split_and!; [done..|]. exists (rs1 ++ rs2).
    by rewrite Ht2, Ht1, fmap_app, app_assoc.
Qed.

(** C8. In every run of a serial queue at most one handler is in flight,
    the handler is called on the appended items in the order of their
    appending (and on a prefix of them, none skipped, when [clear] is not
    called from outside), and when a handler returns a defined falsy result
    the queue is closed and its backlog emptied at once, and from then on
    nothing is called or appended: every [push] is refused. *)
Theorem C8_serial_fifo_early_stop (lim : Z) ls s :
  exec ls (new lim) = Some s →
  (length (running s) ≤ 1)%nat
  ∧ called (trace s) `sublist_of` appended (trace s)
  ∧ (Clear ∉ ls → called (trace s) `prefix_of` appended (trace s))
  ∧ ∀ k s', step s (Done k (Some false)) = Some s' →
      open s' = false ∧ items s' = [] ∧ trace s' = trace s ∧
      ∀ ls' s'', exec ls' s' = Some s'' →
        open s'' = false ∧ items s'' = [] ∧
        ∃ rs, trace s'' = trace s ++ (refusal <$> rs).
Proof.
  intros Hex.
  pose proof (exec_SerialInv _ _ _ (new_SerialInv lim) Hex) as HI.
  split_and!.
  - apply HI.
  - destruct (open s) eqn:Eo.
    + eapply sublist_app_nil_l. by apply HI.
    + by apply HI.
  - intros Hc.
    pose proof (exec_SerialInvF _ _ _ (new_SerialInv lim) (new_SerialInvF lim) Hc Hex) as [F1 F2].
    destruct (open s) eqn:Eo; [|by apply F2].
    destruct (F1 eq_refl) as (d & Ha & [(Hc' & _ & _)|(x & rest & Hi & Hc' & _)]).
    + rewrite Ha, Hc'. by apply prefix_app_r.
    + rewrite Ha, Hc', Hi. exists rest. by rewrite <- app_assoc.
  - intros k s' Hstep. simpl in Hstep.
    destruct (running s !! k); [|done]. injection Hstep as <-.
    simpl. split_and!; [done..|]. intros ls' s'' Hex'.
    by apply serial_exec_closed in Hex'.
Qed.
End SerialQueueProofs.

Section SerialQueueRuns.
Import SerialQueue.

Lemma C8_serial_fifo_early_stop_witness :
  let ls := [Push "a"; PushResume 0; Push "b"; PushResume 0; Push "c"]%string in
  ∃ s s' s'',
    exec ls (new 2) = Some s ∧
    step s (Done 0 (Some false)) = Some s' ∧
    exec [PushPoll 0; PushResume 0] s' = Some s'' ∧
    called (trace s) = ["a"%string] ∧ items s = ["a"; "b"]%string ∧
    items s'' = [] ∧
    ∃ rs, trace s'' = trace s ++ (refusal <$> rs).
Proof.
  intros ls.
  pose (s := default (new 0) (exec ls (new 2))).
  pose (s' := default (new 0) (step s (Done 0 (Some false)))).
  pose (s'' := default (new 0) (exec [PushPoll 0; PushResume 0] s')).
  exists s, s', s''.
  destruct (C8_serial_fifo_early_stop 2 ls s eq_refl) as (_ & _ & _ & Hstop).
  destruct (Hstop 0%nat s' eq_refl) as (_ & _ & _ & Hafter).
  destruct (Hafter [PushPoll 0; PushResume 0] s'' eq_refl) as (_ & Hi & Hrs).
  split_and!; [reflexivity..|exact Hi|exact Hrs].
Defined.
End SerialQueueRuns.

(** ** ParalelQueue *)

Section ParalelQueueProofs.
Import ParalelQueue.
Context {Args Result : Type}.
Abbreviation state := (t Args Result).
Abbreviation task := (Task Args Result).
Abbreviation label := (Label Args Result).
Abbreviation event := (Event Args Result).
Implicit Types (s : state) (l : label) (ls : list label) (tk : task).

(** *** The loop of [work]

    [work_loop] counts down the sequence numbers that are left; its result
    is the one of the loop of the source, which goes on while its condition
    holds. *)
Lemma callback_continue_orders i o res s :
  push_order (callback_continue i o res s) = push_order s ∧
  work_order (callback_continue i o res s) = work_order s.
Proof.
  unfold callback_continue.
  destruct (negb (clearing s) && negb (outp_order s =? o)%nat); [done|].
  destruct (clearing s); [done|].
  by destruct (open s && bool_decide (is_Some (items s !! o))).
Qed.

Lemma callback_start_orders o a s :
  push_order (callback_start o a s) = push_order s ∧
  work_order (callback_start o a s) = work_order s.
Proof.
  unfold callback_start. destruct (open s); [done|].
  by rewrite !(proj1 (callback_continue_orders _ _ _ _)),
             !(proj2 (callback_continue_orders _ _ _ _)).
Qed.

Lemma work_loop_fuel n s :
  (push_order s - work_order s ≤ n)%nat → work_loop n s = work_continue s.
Proof.
  unfold work_continue. revert s. induction n as [|n IH]; intros s Hn.
  - by replace (push_order s - work_order s)%nat with 0%nat by lia.
  - destruct (push_order s - work_order s)%nat as [|d] eqn:Ed; simpl.
    + destruct (Nat.ltb_spec (work_order s) (push_order s)); [lia|].
      by rewrite !andb_false_r.
    + destruct (working s && (0 <? Z.of_nat (base.size (items s)))
                && (work_order s <? push_order s)%nat); [|done].
      destruct (items s !! work_order s) as [item|].
      * destruct (at_limit _); [done|].
        rewrite IH.
        -- f_equal. rewrite (proj1 (callback_start_orders _ _ _)),
             (proj2 (callback_start_orders _ _ _)). simpl. lia.
        -- rewrite (proj1 (callback_start_orders _ _ _)),
             (proj2 (callback_start_orders _ _ _)). simpl. lia.
      * rewrite IH; simpl; [f_equal; lia|lia].
Qed.

(** [work_continue] satisfies the equation of the [while] loop. *)
Lemma work_continue_unfold s :
  work_continue s =
  if working s && (0 <? Z.of_nat (base.size (items s)))
     && (work_order s <? push_order s)%nat then
    match items s !! work_order s with
    | None => work_continue (set_work_order (S (work_order s)) s)
    | Some item =>
        let s2 := callback_start item.1 item.2
                    (set_curr_working (curr_working s + 1)
                       (set_work_order (S (work_order s)) s)) in
        if at_limit s2 then set_workers (S (workers s2)) s2
        else work_continue s2
    end
  else set_working false s.
Proof.
  unfold work_continue at 1.
  destruct (push_order s - work_order s)%nat as [|d] eqn:Ed; simpl.
  - destruct (Nat.ltb_spec (work_order s) (push_order s)); [lia|].
    by rewrite !andb_false_r.
  - destruct (working s && (0 <? Z.of_nat (base.size (items s)))
              && (work_order s <? push_order s)%nat); [|done].
    destruct (items s !! work_order s) as [item|].
    + destruct (at_limit _); [done|]. apply work_loop_fuel.
      rewrite (proj1 (callback_start_orders _ _ _)),
        (proj2 (callback_start_orders _ _ _)). simpl. lia.
    + apply work_loop_fuel. simpl. lia.
Qed.

(** *** A proof principle for the steps

    Every step is built from a few assignments and from the pieces of
    [work] and [callback]; a property [P] that these preserve is preserved
    by the steps.  [L] is what is known in addition inside the loop of
    [work]. *)
Section StepPrinciple.
Variables P L : state → Prop.
Hypothesis P_pushers : ∀ s ps, P s → P (set_pushers ps s).
Hypothesis P_work_suspend :
  ∀ s, P s → at_limit s = true → P (set_workers (S (workers s)) s).
Hypothesis P_work_poll :
  ∀ s n, P s → workers s = S n → at_limit s = false →
         P (set_workers n s) ∧ L (set_workers n s).
Hypothesis P_work_enter :
  ∀ s, P s → open s = true → working s = false →
       P (set_clearing false (set_working true s)) ∧
       L (set_clearing false (set_working true s)).
Hypothesis P_work_exit : ∀ s, P s → L s → P (set_working false s).
Hypothesis P_refuse : ∀ s a, P s → open s = false → P (log (EvPush a false) s).
Hypothesis P_append :
  ∀ s a, P s → open s = true →
    P (log (EvPush a true)
         (set_push_order (S (push_order s))
            (set_items (<[push_order s := (push_order s, a)]> (items s)) s))).
Hypothesis P_skip :
  ∀ s, P s → L s → working s = true → (work_order s < push_order s)%nat →
       items s !! work_order s = None →
       P (set_work_order (S (work_order s)) s) ∧
       L (set_work_order (S (work_order s)) s).
Hypothesis P_dispatch :
  ∀ s item, P s → L s → working s = true → (work_order s < push_order s)%nat →
    items s !! work_order s = Some item →
    let s2 := callback_start item.1 item.2
                (set_curr_working (curr_working s + 1)
                   (set_work_order (S (work_order s)) s)) in
    P s2 ∧ (at_limit s2 = false → L s2).
Hypothesis P_func_done :
  ∀ s i tk r, P s → tasks s !! i = Some tk → pc tk = Running →
    P (callback_continue i (order tk) (Some r) (log (EvReturn (order tk) r) s)).
Hypothesis P_func_throw :
  ∀ s i tk, P s → tasks s !! i = Some tk → pc tk = Running →
    P (set_pc i FailedFunc s).
Hypothesis P_turn :
  ∀ s i tk res, P s → tasks s !! i = Some tk → pc tk = Waiting res →
    P (callback_continue i (order tk) res s).
Hypothesis P_outp_done :
  ∀ s i tk, P s → tasks s !! i = Some tk → pc tk = Emitting →
    P (callback_finish i (order tk) s).
Hypothesis P_outp_throw :
  ∀ s i tk, P s → tasks s !! i = Some tk → pc tk = Emitting →
    P (set_pc i FailedOutp s).

Lemma work_loop_preserves n s : P s → L s → P (work_loop n s).
Proof.
  revert s. induction n as [|n IH]; intros s HP HL; simpl; [by apply P_work_exit|].
  destruct (working s) eqn:Ew; simpl; [|by apply P_work_exit].
  destruct (0 <? Z.of_nat (base.size (items s))); simpl; [|by apply P_work_exit].
  destruct (Nat.ltb_spec (work_order s) (push_order s)); [|by apply P_work_exit].
  destruct (items s !! work_order s) as [item|] eqn:Ei.
  - destruct (P_dispatch s item HP HL Ew ltac:(done) Ei) as [HP' HL'].
    destruct (at_limit _) eqn:El.
    + by apply P_work_suspend.
    + apply IH; [done|by apply HL'].
  - destruct (P_skip s HP HL Ew ltac:(done) Ei). by apply IH.
Qed.

Lemma step_preserves_loop s l s' :
  P s → step s l = Some s' →
  (l = Clear → P (clear s)) → (l = Close → P (close s)) → P s'.
Proof.
  intros HP Hstep Hclear Hclose.
  destruct l as [a|i|i| |i r|i|i|i|i| |]; simpl in Hstep.
  - injection Hstep as <-. by apply P_pushers.
  - destruct (pushers s !! i) as [[a|a]|]; try done.
    destruct (queue_full s); injection Hstep as <-; [done|by apply P_pushers].
  - destruct (pushers s !! i) as [[a|a]|]; try done.
    injection Hstep as <-. unfold push_resume. simpl.
    destruct (open s) eqn:Eo; simpl.
    + pose proof (P_append _ a (P_pushers s (delete i (pushers s)) HP) Eo) as HP'.
      simpl in HP'.
      destruct (working s) eqn:Ew; simpl; [done|].
      unfold work, work_continue.
      destruct (P_work_enter _ HP' Eo Ew). by apply work_loop_preserves.
    + by apply P_refuse; [apply P_pushers|].
  - destruct (workers s) as [|n] eqn:En; [done|].
    destruct (at_limit s) eqn:El; injection Hstep as <-; [done|].
    unfold work_continue.
    destruct (P_work_poll s n HP En El). by apply work_loop_preserves.
  - destruct (tasks s !! i) as [[o a []]|] eqn:Et; try done.
    injection Hstep as <-. by apply (P_func_done s i _ r HP Et).
  - destruct (tasks s !! i) as [[o a []]|] eqn:Et; try done.
    injection Hstep as <-. by apply (P_func_throw s i _ HP Et).
  - destruct (tasks s !! i) as [[o a []]|] eqn:Et; try done.
    injection Hstep as <-. by apply (P_turn s i _ res HP Et).
  - destruct (tasks s !! i) as [[o a []]|] eqn:Et; try done.
    injection Hstep as <-. by apply (P_outp_done s i _ HP Et).
  - destruct (tasks s !! i) as [[o a []]|] eqn:Et; try done.
    injection Hstep as <-. by apply (P_outp_throw s i _ HP Et).
  - injection Hstep as <-. by apply Hclear.
  - injection Hstep as <-. by apply Hclose.
Qed.
End StepPrinciple.

(** The principle for a property that needs nothing more inside the
    loop. *)
Lemma step_preserves (P : state → Prop) :
  (∀ s ps, P s → P (set_pushers ps s)) →
  (∀ s n, P s → P (set_workers n s)) →
  (∀ s, P s → P (set_working false s)) →
  (∀ s, P s → open s = true → working s = false →
        P (set_clearing false (set_working true s))) →
  (∀ s a, P s → open s = false → P (log (EvPush a false) s)) →
  (∀ s a, P s → open s = true →
     P (log (EvPush a true)
          (set_push_order (S (push_order s))
             (set_items (<[push_order s := (push_order s, a)]> (items s)) s)))) →
  (∀ s, P s → (work_order s < push_order s)%nat → items s !! work_order s = None →
        P (set_work_order (S (work_order s)) s)) →
  (∀ s item, P s → working s = true → (work_order s < push_order s)%nat →
     items s !! work_order s = Some item →
     P (callback_start item.1 item.2
          (set_curr_working (curr_working s + 1)
             (set_work_order (S (work_order s)) s)))) →
  (∀ s i tk r, P s → tasks s !! i = Some tk → pc tk = Running →
     P (callback_continue i (order tk) (Some r) (log (EvReturn (order tk) r) s))) →
  (∀ s i tk, P s → tasks s !! i = Some tk → pc tk = Running →
     P (set_pc i FailedFunc s)) →
  (∀ s i tk res, P s → tasks s !! i = Some tk → pc tk = Waiting res →
     P (callback_continue i (order tk) res s)) →
  (∀ s i tk, P s → tasks s !! i = Some tk → pc tk = Emitting →
     P (callback_finish i (order tk) s)) →
  (∀ s i tk, P s → tasks s !! i = Some tk → pc tk = Emitting →
     P (set_pc i FailedOutp s)) →
  ∀ s l s', P s → step s l = Some s' →
    (l = Clear → P (clear s)) → (l = Close → P (close s)) → P s'.
Proof.
  intros H1 H2 H3 H4 H5 H6 H7 H8 H9 H10 H11 H12 H13 s l s'.
  apply (step_preserves_loop P (fun _ => True)); eauto.
Qed.

(** *** The invariant of all runs *)

(** A call of [callback] that has called [outp_callback] and has not yet
    advanced [outp_order]. *)
Definition blocked (p : PC Result) : bool :=
  match p with Emitting | FailedOutp => true | _ => false end.

(** A call of [callback] that has not called [outp_callback] and has not
    ended. *)
Definition unsent (p : PC Result) : bool :=
  match p with Running | Waiting _ | FailedFunc => true | _ => false end.

Record Inv s : Prop := {
  inv_wp : (work_order s ≤ push_order s)%nat;
  inv_items : ∀ k o a, items s !! k = Some (o, a) → o = k ∧ (k < push_order s)%nat;
  inv_torder : ∀ i tk, tasks s !! i = Some tk → (order tk < work_order s)%nat;
  inv_uniq : ∀ i j ti tj,
      tasks s !! i = Some ti → tasks s !! j = Some tj → order ti = order tj → i = j;
  inv_emitted : ∀ e, e ∈ emitted (trace s) →
      (e < work_order s)%nat ∧
      ((e < outp_order s)%nat ∨
       (e = outp_order s ∧
        ∃ i tk, tasks s !! i = Some tk ∧ order tk = e ∧ blocked (pc tk) = true));
  inv_sorted : StronglySorted lt (emitted (trace s));
  inv_unsent : ∀ i tk,
      tasks s !! i = Some tk → unsent (pc tk) = true → order tk ∉ emitted (trace s)
}.

Lemma emitted_snoc (tr : list event) e :
  emitted (tr ++ [e]) = emitted tr ++ match e with EvOut o _ => [o] | _ => [] end.
Proof. unfold emitted. rewrite omap_app. by destruct e. Qed.

Lemma StronglySorted_snoc (l : list nat) (y : nat) :
  StronglySorted lt l → (∀ x, x ∈ l → (x < y)%nat) → StronglySorted lt (l ++ [y]).
Proof.
  intros Hs Hy. apply StronglySorted_app_2; [|done|].
  - intros x1 x2 H1 ->%list_elem_of_singleton. by apply Hy.
  - repeat constructor.
Qed.

Lemma alter_pc_lookup (ts : list task) i p j tk' :
  alter (fun tk => mkTask (order tk) (args tk) p) i ts !! j = Some tk' →
  ∃ tk0, ts !! j = Some tk0 ∧ order tk' = order tk0 ∧ args tk' = args tk0 ∧
         ((j = i ∧ pc tk' = p) ∨ (j ≠ i ∧ tk' = tk0)).
Proof.
  destruct (decide (i = j)) as [->|Hne].
  - rewrite list_lookup_alter_eq. destruct (ts !! j) as [tk0|]; [|done].
    intros [= <-]. exists tk0. split_and!; try done. by left.
  - rewrite list_lookup_alter_ne by done. intros H. exists tk'.
    split_and!; try done. right. split; [congruence|done].
Qed.

Lemma blocked_unsent (p : PC Result) : blocked p = true → unsent p = true → False.
Proof. by destruct p. Qed.

(** A state that differs in none of the fields the invariant reads, except
    that items may have been removed. *)
Lemma Inv_frame s s' :
  Inv s →
  (∀ k v, items s' !! k = Some v → items s !! k = Some v) →
  push_order s' = push_order s → work_order s' = work_order s →
  outp_order s' = outp_order s → tasks s' = tasks s →
  emitted (trace s') = emitted (trace s) →
  Inv s'.
Proof.
  intros [H1 H2 H3 H4 H5 H6 H7] Ei Ep Ew Eo Et Ee.
  split; rewrite ?Ep, ?Ew, ?Eo, ?Et, ?Ee; eauto.
Qed.

(** The call [i] of [callback] moves to [p]. *)
Lemma Inv_update s s' i tk p :
  Inv s → tasks s !! i = Some tk →
  push_order s' = push_order s → work_order s' = work_order s →
  tasks s' = alter (fun tk => mkTask (order tk) (args tk) p) i (tasks s) →
  (∀ k v, items s' !! k = Some v → items s !! k = Some v) →
  (emitted (trace s') = emitted (trace s) ∨
   (emitted (trace s') = emitted (trace s) ++ [order tk] ∧
    unsent (pc tk) = true ∧ outp_order s = order tk ∧ blocked p = true)) →
  (unsent p = true → unsent (pc tk) = true ∧ emitted (trace s') = emitted (trace s)) →
  ((outp_order s' = outp_order s ∧ (blocked (pc tk) = true → blocked p = true)) ∨
   (∀ e, e ∈ emitted (trace s') → (e < outp_order s')%nat)) →
  Inv s'.
Proof.
  intros [H1 H2 H3 H4 H5 H6 H7] Hi Ep Ew Et Ei Ee Hu Ho.
  assert (∀ j tk', tasks s' !! j = Some tk' →
            ∃ tk0, tasks s !! j = Some tk0 ∧ order tk' = order tk0 ∧
                   ((j = i ∧ pc tk' = p ∧ tk0 = tk) ∨ (j ≠ i ∧ tk' = tk0))) as Hlk.
  { intros j tk' Hj. rewrite Et in Hj.
    apply alter_pc_lookup in Hj as (tk0 & Hj0 & Ho0 & _ & [[-> Hp]|[Hne ->]]).
    - exists tk0. split_and!; try done. left. split_and!; try done. congruence.
    - exists tk0. split_and!; try done. by right. }
  assert (∀ j tk0, tasks s !! j = Some tk0 →
            ∃ tk', tasks s' !! j = Some tk' ∧ order tk' = order tk0 ∧
                   ((j = i ∧ pc tk' = p) ∨ (j ≠ i ∧ tk' = tk0))) as Hkl.
  { intros j tk0 Hj. rewrite Et. destruct (decide (i = j)) as [->|Hne].
    - rewrite list_lookup_alter_eq, Hj. simpl. eexists. split_and!; try done. by left.
    - rewrite list_lookup_alter_ne by done. exists tk0. split_and!; try done.
      right. split; [congruence|done]. }
  assert (∀ e, e ∈ emitted (trace s) → (e < order tk)%nat ∨ outp_order s ≠ order tk
               ∨ unsent (pc tk) = false) as Hlt.
  { intros e He. destruct (H5 e He) as [_ [Hlt|[-> (j & tkj & Hj & Hoj & Hbj)]]].
    - destruct (decide (outp_order s = order tk)); [left; lia|right; by left].
    - destruct (decide (outp_order s = order tk)) as [Heq|]; [|right; by left].
      right. right. assert (j = i) as -> by (eapply H4; eauto; congruence).
      assert (tkj = tk) as -> by congruence.
      destruct (unsent (pc tk)) eqn:E; [|done].
      exfalso. by eapply blocked_unsent. }
  split; rewrite ?Ep, ?Ew.
  - done.
  - intros k o a Hk. apply Ei in Hk. eauto.
  - intros j tk' Hj. destruct (Hlk j tk' Hj) as (tk0 & Hj0 & -> & _). eauto.
  - intros j1 j2 t1 t2 Hj1 Hj2 Heq.
    destruct (Hlk j1 t1 Hj1) as (t1' & Hj1' & Ho1 & _).
    destruct (Hlk j2 t2 Hj2) as (t2' & Hj2' & Ho2 & _).
    eapply H4; eauto. congruence.
  - intros e He.
    assert ((e < work_order s)%nat ∧
            (e ∈ emitted (trace s) ∨
             (e = order tk ∧ outp_order s = order tk ∧ blocked p = true))) as [Hew Hcase].
    { destruct Ee as [Ee|(Ee & Hun & Hout & Hb)]; rewrite Ee in He.
      - split; [by apply H5|by left].
      - apply elem_of_app in He as [He| ->%list_elem_of_singleton].
        + split; [by apply H5|by left].
        + split; [by eapply H3|]. right. done. }
    split; [done|].
    destruct Ho as [[Eo Hb]|Hall]; [|left; by apply Hall].
    rewrite Eo. destruct Hcase as [He0|(-> & Hout & Hbp)].
    + destruct (H5 e He0) as [_ [?|[-> (j & tkj & Hj & Hoj & Hbj)]]]; [by left|].
      right. split; [done|].
      destruct (Hkl j tkj Hj) as (tk' & Hj' & Ho' & [[-> Hp]|[Hne ->]]).
      * exists i, tk'. split_and!; try done; [congruence|].
        rewrite Hp. apply Hb. assert (tkj = tk) as -> by congruence. done.
      * by exists j, tkj.
    + right. split; [done|].
      destruct (Hkl i tk Hi) as (tk' & Hj' & Ho' & [[_ Hp]|[Hne _]]); [|done].
      exists i, tk'. split_and!; try done. by rewrite Hp.
  - destruct Ee as [->|(-> & Hun & Hout & Hb)]; [done|].
    apply StronglySorted_snoc; [done|].
    intros e He. destruct (Hlt e He) as [?|[?|?]]; [done|done|congruence].
  - intros j tk' Hj Hunj.
    destruct (Hlk j tk' Hj) as (tk0 & Hj0 & Hoj & [(-> & Hp & ->)|[Hne ->]]).
    + rewrite Hp in Hunj. destruct (Hu Hunj) as [Hun ->].
      rewrite Hoj. by eapply H7.
    + destruct Ee as [->|(-> & Hun & Hout & Hb)]; [by eapply H7|].
      rewrite not_elem_of_app. split; [by eapply H7|].
      intros Heq%list_elem_of_singleton. apply Hne. eapply H4; eauto.
Qed.

Lemma Inv_emitted_le s e :
  Inv s → e ∈ emitted (trace s) → (e ≤ outp_order s)%nat ∧ (e < push_order s)%nat.
Proof.
  intros HI He. pose proof (inv_wp _ HI).
  destruct (inv_emitted _ HI e He) as [? [?|[-> _]]]; lia.
Qed.

Lemma Inv_callback_finish s i tk :
  Inv s → tasks s !! i = Some tk → Inv (callback_finish i (order tk) s).
Proof.
  intros HI Hi. eapply (Inv_update s _ i tk Finished); try done; simpl.
  - intros k v. rewrite lookup_delete. by destruct (decide (order tk = k)).
  - by left.
  - right. intros e He. apply (Inv_emitted_le _ _ HI) in He. lia.
Qed.

Lemma Inv_callback_continue s i tk res :
  Inv s → tasks s !! i = Some tk → unsent (pc tk) = true →
  Inv (callback_continue i (order tk) res s).
Proof.
  intros HI Hi Hun. unfold callback_continue.
  destruct (clearing s) eqn:Ec; simpl.
  - eapply (Inv_update s _ i tk Finished); try done; simpl.
    + by left.
    + right. intros e He. by apply (Inv_emitted_le _ _ HI) in He as [_ ?].
  - destruct (Nat.eqb_spec (outp_order s) (order tk)) as [Heq|Hne]; simpl.
    + destruct (open s && bool_decide (is_Some (items s !! order tk))).
      * eapply (Inv_update s _ i tk Emitting); try done; simpl.
        -- right. by rewrite emitted_snoc.
        -- left. split; [done|]. intros Hb. exfalso. by eapply blocked_unsent.
      * by apply Inv_callback_finish.
    + eapply (Inv_update s _ i tk (Waiting res)); try done; simpl.
      * by left.
      * left. split; [done|]. intros Hb. exfalso. by eapply blocked_unsent.
Qed.

(** A new call of [callback] for the item at [work_order]. *)
Lemma Inv_spawn s a c p :
  Inv s → (work_order s < push_order s)%nat → unsent p = true →
  Inv (set_tasks (tasks s ++ [mkTask (work_order s) a p])
         (set_curr_working c (set_work_order (S (work_order s)) s))).
Proof.
  intros [H1 H2 H3 H4 H5 H6 H7] Hlt Hun.
  assert (∀ j tk', (tasks s ++ [mkTask (work_order s) a p]) !! j = Some tk' →
            (tasks s !! j = Some tk' ∧ (order tk' < work_order s)%nat) ∨
            (j = length (tasks s) ∧ tk' = mkTask (work_order s) a p)) as Hlk.
  { intros j tk' Hj. apply lookup_app_Some in Hj as [Hj|[Hge Hj]].
    - left. split; [done|]. by eapply H3.
    - right. apply list_lookup_singleton_Some in Hj as [Hj <-]. split; [lia|done]. }
  split; simpl.
  - lia.
  - done.
  - intros j tk' Hj. destruct (Hlk j tk' Hj) as [[_ ?]|[_ ->]]; simpl; lia.
  - intros j1 j2 t1 t2 Hj1 Hj2 Heq.
    destruct (Hlk j1 t1 Hj1) as [[Hj1' ?]|[-> ->]],
             (Hlk j2 t2 Hj2) as [[Hj2' ?]|[-> ->]]; simpl in *; try lia.
    by eapply H4.
  - intros e He. destruct (H5 e He) as [? [?|[-> (j & tkj & Hj & Hoj & Hbj)]]].
    + split; [lia|by left].
    + split; [lia|]. right. split; [done|]. exists j, tkj.
      split_and!; try done. by apply lookup_app_l_Some.
  - done.
  - intros j tk' Hj Hunj.
    destruct (Hlk j tk' Hj) as [[Hj' ?]|[-> ->]]; [by eapply H7|].
    simpl. intros He. apply H5 in He as [? _]. lia.
Qed.

Lemma Inv_dispatch s item :
  Inv s → (work_order s < push_order s)%nat →
  items s !! work_order s = Some item →
  Inv (callback_start item.1 item.2
         (set_curr_working (curr_working s + 1)
            (set_work_order (S (work_order s)) s))).
Proof.
  intros HI Hlt Hitem. destruct item as [o a].
  destruct (inv_items _ HI _ _ _ Hitem) as [-> _]. simpl.
  unfold callback_start. simpl. destruct (open s) eqn:Eo.
  - eapply Inv_frame; [by apply (Inv_spawn s a (curr_working s + 1) Running)|..];
      try done.
    simpl. by rewrite emitted_snoc, app_nil_r.
  - pose proof (Inv_spawn s a (curr_working s + 1) (Waiting None) HI Hlt eq_refl) as HI'.
    apply (Inv_callback_continue _ (length (tasks s))
             (mkTask (work_order s) a (Waiting None)) None HI'); [|done].
    simpl. by rewrite lookup_app_r, Nat.sub_diag.
Qed.

Lemma Inv_append s a :
  Inv s →
  Inv (log (EvPush a true)
         (set_push_order (S (push_order s))
            (set_items (<[push_order s := (push_order s, a)]> (items s)) s))).
Proof.
  intros [H1 H2 H3 H4 H5 H6 H7].
  split; simpl; rewrite ?emitted_snoc, ?app_nil_r; try done.
  - lia.
  - intros k o a'. rewrite lookup_insert. destruct (decide (push_order s = k)) as [<-|Hne].
    + intros [= <- <-]. split; [done|lia].
    + intros Hk. destruct (H2 _ _ _ Hk). split; [done|lia].
Qed.

Lemma Inv_skip s :
  Inv s → (work_order s < push_order s)%nat →
  Inv (set_work_order (S (work_order s)) s).
Proof.
  intros [H1 H2 H3 H4 H5 H6 H7] Hlt. split; simpl; try done.
  - intros i tk Hi. specialize (H3 i tk Hi). lia.
  - intros e He. destruct (H5 e He). split; [lia|done].
Qed.

Lemma new_Inv lim : Inv (new lim).
Proof.
  split; simpl; try done; [|constructor].
  intros e He. by apply elem_of_nil in He.
Qed.

Lemma Inv_clear s : Inv s → Inv (clear s).
Proof. intros HI. by eapply Inv_frame. Qed.

Lemma Inv_close s : Inv s → Inv (close s).
Proof. intros HI. by eapply Inv_frame. Qed.

Lemma step_Inv s l s' : Inv s → step s l = Some s' → Inv s'.
Proof.
  intros HI Hstep.
  refine (step_preserves Inv _ _ _ _ _ _ _ _ _ _ _ _ _ s l s' HI Hstep _ _).
  - intros s0 ps H. by eapply Inv_frame.
  - intros s0 n H. by eapply Inv_frame.
  - intros s0 H. by eapply Inv_frame.
  - intros s0 H _ _. by eapply Inv_frame.
  - intros s0 a H _. eapply Inv_frame; try done. simpl.
    by rewrite emitted_snoc, app_nil_r.
  - intros s0 a H _. by apply Inv_append.
  - intros s0 H Hlt _. by apply Inv_skip.
  - intros s0 item H _ Hlt Hitem. by apply Inv_dispatch.
  - intros s0 i tk r H Hi Hpc.
    apply Inv_callback_continue; [|done|by rewrite Hpc].
    eapply Inv_frame; try done. simpl. by rewrite emitted_snoc, app_nil_r.
  - intros s0 i tk H Hi Hpc.
    eapply (Inv_update s0 _ i tk FailedFunc); try done; simpl.
    + by left.
    + intros _. by rewrite Hpc.
    + left. split; [done|]. by rewrite Hpc.
  - intros s0 i tk res H Hi Hpc. apply Inv_callback_continue; [done..|by rewrite Hpc].
  - intros s0 i tk H Hi Hpc. by apply Inv_callback_finish.
  - intros s0 i tk H Hi Hpc.
    eapply (Inv_update s0 _ i tk FailedOutp); try done; simpl.
    + by left.
    + by left.
  - intros _. by apply Inv_clear.
  - intros _. by apply Inv_close.
Qed.

Lemma pq_exec_app ls1 ls2 s : exec (ls1 ++ ls2) s = exec ls1 s ≫= exec ls2.
Proof.
  revert s. induction ls1 as [|l ls1 IH]; intros s; simpl; [done|].
  destruct (step s l); [apply IH|done].
Qed.

Lemma exec_Inv ls s s' : Inv s → exec ls s = Some s' → Inv s'.
Proof.
  revert s. induction ls as [|l ls IH]; intros s HI Hex; simpl in Hex.
  - by injection Hex as <-.
  - destruct (step s l) as [s1|] eqn:E; [|done].
    eapply IH; [|done]. by eapply step_Inv.
Qed.

(** *** The invariant of the runs without [clear] and [close] *)

Record InvN s : Prop := {
  n_clearing : clearing s = false;
  n_open : open s = true;
  n_ow : (outp_order s ≤ work_order s)%nat;
  n_live : ∀ i tk, tasks s !! i = Some tk → pc tk ≠ Finished →
      (outp_order s ≤ order tk)%nat ∧ is_Some (items s !! order tk);
  n_blocked : ∀ i tk, tasks s !! i = Some tk → blocked (pc tk) = true →
      order tk = outp_order s ∧ order tk ∈ emitted (trace s);
  n_seq : ∃ n, emitted (trace s) = seq 0 n ∧ (n = outp_order s ∨ n = S (outp_order s))
}.

Lemma InvN_frame s s' :
  InvN s →
  clearing s' = false → open s' = true →
  (∀ k, is_Some (items s !! k) → is_Some (items s' !! k)) →
  work_order s' = work_order s → outp_order s' = outp_order s →
  tasks s' = tasks s → emitted (trace s') = emitted (trace s) →
  InvN s'.
Proof.
  intros [H1 H2 H3 H4 H5 H6] Ec Eop Ei Ew Eo Et Ee.
  split; rewrite ?Ew, ?Eo, ?Et, ?Ee; try done.
  intros i tk Hi Hpc. destruct (H4 i tk Hi Hpc). split; [done|]. by apply Ei.
Qed.

Lemma InvN_stay s s' i tk p :
  Inv s → InvN s → tasks s !! i = Some tk →
  clearing s' = false → open s' = true → items s' = items s →
  work_order s' = work_order s → outp_order s' = outp_order s →
  tasks s' = alter (fun tk => mkTask (order tk) (args tk) p) i (tasks s) →
  emitted (trace s') = emitted (trace s) →
  pc tk ≠ Finished → (blocked p = true → blocked (pc tk) = true) →
  InvN s'.
Proof.
  intros HI [H1 H2 H3 H4 H5 H6] Hi Ec Eop Ei Ew Eo Et Ee Hpc Hb.
  split; rewrite ?Ew, ?Eo, ?Ee, ?Ei; try done.
  - intros j tk' Hj Hpc'. rewrite Et in Hj.
    apply alter_pc_lookup in Hj as (tk0 & Hj0 & -> & _ & [[-> Hp]|[Hne ->]]).
    + assert (tk0 = tk) as -> by congruence. by eapply H4.
    + by eapply H4.
  - intros j tk' Hj Hb'. rewrite Et in Hj.
    apply alter_pc_lookup in Hj as (tk0 & Hj0 & -> & _ & [[-> Hp]|[Hne ->]]).
    + assert (tk0 = tk) as -> by congruence. eapply H5; [done|].
      apply Hb. by rewrite <- Hp.
    + by eapply H5.
Qed.

Lemma InvN_emit s s' i tk :
  Inv s → InvN s → tasks s !! i = Some tk →
  clearing s' = false → open s' = true → items s' = items s →
  work_order s' = work_order s → outp_order s' = outp_order s →
  tasks s' = alter (fun tk => mkTask (order tk) (args tk) Emitting) i (tasks s) →
  emitted (trace s') = emitted (trace s) ++ [order tk] →
  unsent (pc tk) = true → outp_order s = order tk →
  InvN s'.
Proof.
  intros HI [H1 H2 H3 H4 H5 H6] Hi Ec Eop Ei Ew Eo Et Ee Hun Hout.
  split; rewrite ?Ew, ?Eo, ?Ee, ?Ei; try done.
  - intros j tk' Hj Hpc'. rewrite Et in Hj.
    apply alter_pc_lookup in Hj as (tk0 & Hj0 & -> & _ & [[-> Hp]|[Hne ->]]).
    + assert (tk0 = tk) as -> by congruence. eapply H4; [done|].
      intros Hf. by rewrite Hf in Hun.
    + by eapply H4.
  - intros j tk' Hj Hb'. rewrite Et in Hj.
    apply alter_pc_lookup in Hj as (tk0 & Hj0 & -> & _ & [[-> Hp]|[Hne ->]]).
    + assert (tk0 = tk) as -> by congruence. split; [done|].
      apply elem_of_app. right. by apply list_elem_of_singleton.
    + destruct (H5 j tk0 Hj0 Hb') as [? ?]. split; [done|].
      apply elem_of_app. by left.
  - destruct H6 as (n & Hn & Hcase). exists (S n).
    assert (n = outp_order s) as ->.
    { destruct Hcase as [?| ->]; [done|]. exfalso.
      eapply (inv_unsent _ HI i tk Hi Hun). rewrite Hn, <- Hout.
      apply list_elem_of_In, in_seq. lia. }
    split; [|by right]. by rewrite Hn, seq_S, Hout.
Qed.

Lemma InvN_advance s i tk :
  Inv s → InvN s → tasks s !! i = Some tk → blocked (pc tk) = true →
  InvN (callback_finish i (order tk) s).
Proof.
  intros HI [H1 H2 H3 H4 H5 H6] Hi Hb.
  destruct (H5 i tk Hi Hb) as [Hout Hem].
  pose proof (inv_torder _ HI i tk Hi) as Hlt.
  split; simpl; try done.
  - lia.
  - intros j tk' Hj Hpc'.
    apply alter_pc_lookup in Hj as (tk0 & Hj0 & -> & _ & [[-> Hp]|[Hne ->]]).
    { by rewrite Hp in Hpc'. }
    destruct (H4 j tk0 Hj0 Hpc') as [Hle Hsome].
    assert (order tk0 ≠ order tk) as Hne'.
    { intros Heq. apply Hne. eapply (inv_uniq _ HI); eauto. }
    split; [lia|]. by rewrite lookup_delete_ne.
  - intros j tk' Hj Hb'.
    apply alter_pc_lookup in Hj as (tk0 & Hj0 & -> & _ & [[-> Hp]|[Hne ->]]).
    { by rewrite Hp in Hb'. }
    destruct (H5 j tk0 Hj0 Hb') as [Hout' _]. exfalso. apply Hne.
    eapply (inv_uniq _ HI); eauto. congruence.
  - destruct H6 as (n & Hn & Hcase). exists n. split; [done|]. left.
    destruct Hcase as [->|?]; [|done]. exfalso.
    rewrite Hn, Hout in Hem. apply list_elem_of_In, in_seq in Hem. lia.
Qed.

Lemma InvN_callback_continue s i tk res :
  Inv s → InvN s → tasks s !! i = Some tk → unsent (pc tk) = true →
  InvN (callback_continue i (order tk) res s).
Proof.
  intros HI HN Hi Hun. unfold callback_continue.
  rewrite (n_clearing _ HN), (n_open _ HN). simpl.
  assert (pc tk ≠ Finished) as Hpc by (intros Hf; by rewrite Hf in Hun).
  destruct (Nat.eqb_spec (outp_order s) (order tk)) as [Heq|Hne]; simpl.
  - destruct (n_live _ HN i tk Hi Hpc) as [_ Hsome].
    rewrite bool_decide_true by done.
    eapply (InvN_emit s _ i tk); try done; try apply HN.
    simpl. by rewrite emitted_snoc.
  - eapply (InvN_stay s _ i tk (Waiting res)); try done; apply HN.
Qed.

Lemma new_InvN lim : InvN (new lim).
Proof. split; simpl; try done. by exists 0%nat; split; [|left]. Qed.

Lemma step_InvN s l s' :
  Inv s ∧ InvN s → step s l = Some s' → l ≠ Clear → l ≠ Close → Inv s' ∧ InvN s'.
Proof.
  intros HP Hstep Hc1 Hc2.
  refine (step_preserves (fun s => Inv s ∧ InvN s)
            _ _ _ _ _ _ _ _ _ _ _ _ _ s l s' HP Hstep _ _); try done.
  - intros s0 ps [H N]. split; [by eapply Inv_frame|by eapply InvN_frame; try apply N].
  - intros s0 n [H N]. split; [by eapply Inv_frame|by eapply InvN_frame; try apply N].
  - intros s0 [H N]. split; [by eapply Inv_frame|by eapply InvN_frame; try apply N].
  - intros s0 [H N] _ _. split; [by eapply Inv_frame|by eapply InvN_frame; try apply N].
  - intros s0 a [H N] Ho. rewrite (n_open _ N) in Ho. done.
  - intros s0 a [H N] _. split; [by apply Inv_append|].
    eapply InvN_frame; try done; try apply N; simpl.
    + intros k Hk. rewrite lookup_insert. by destruct (decide (push_order s0 = k)).
    + by rewrite emitted_snoc, app_nil_r.
  - intros s0 [H N] Hlt _. split; [by apply Inv_skip|].
    destruct N as [N1 N2 N3 N4 N5 N6]. split; simpl; try done. lia.
  - intros s0 item [H N] _ Hlt Hitem. split; [by apply Inv_dispatch|].
    destruct item as [o a]. destruct (inv_items _ H _ _ _ Hitem) as [-> _].
    unfold callback_start. simpl. rewrite (n_open _ N).
    destruct N as [N1 N2 N3 N4 N5 N6]. split; simpl; try done.
    + lia.
    + intros j tk Hj Hpc. apply lookup_app_Some in Hj as [Hj|[Hge Hj]]; [by eapply N4|].
      apply list_lookup_singleton_Some in Hj as [_ <-]. simpl. split; [lia|by eexists].
    + intros j tk Hj Hb. rewrite emitted_snoc, app_nil_r.
      apply lookup_app_Some in Hj as [Hj|[Hge Hj]]; [by eapply N5|].
      by apply list_lookup_singleton_Some in Hj as [_ <-].
    + by rewrite emitted_snoc, app_nil_r.
  - intros s0 i tk r [H N] Hi Hpc.
    assert (Inv (log (EvReturn (order tk) r) s0)) as H'.
    { eapply Inv_frame; try done. simpl. by rewrite emitted_snoc, app_nil_r. }
    assert (InvN (log (EvReturn (order tk) r) s0)) as N'.
    { eapply InvN_frame; try done; try apply N. simpl. by rewrite emitted_snoc, app_nil_r. }
    split; [apply Inv_callback_continue|apply InvN_callback_continue];
      try done; by rewrite Hpc.
  - intros s0 i tk [H N] Hi Hpc. split.
    + by apply (step_Inv s0 (FuncThrow i)); [|simpl; rewrite Hi; destruct tk; simpl in *; subst].
    + eapply (InvN_stay s0 _ i tk FailedFunc); try done; try apply N.
      by rewrite Hpc.
  - intros s0 i tk res [H N] Hi Hpc.
    split; [apply Inv_callback_continue|apply InvN_callback_continue];
      try done; by rewrite Hpc.
  - intros s0 i tk [H N] Hi Hpc.
    split; [by apply Inv_callback_finish|apply InvN_advance; try done; by rewrite Hpc].
  - intros s0 i tk [H N] Hi Hpc. split.
    + by apply (step_Inv s0 (OutpThrow i)); [|simpl; rewrite Hi; destruct tk; simpl in *; subst].
    + eapply (InvN_stay s0 _ i tk FailedOutp); try done; try apply N.
      * by rewrite Hpc.
      * by rewrite Hpc.
Qed.

Lemma exec_InvN ls s s' :
  Inv s ∧ InvN s → exec ls s = Some s' → Clear ∉ ls → Close ∉ ls → Inv s' ∧ InvN s'.
Proof.
  revert s. induction ls as [|l ls IH]; intros s HP Hex Hc1 Hc2; simpl in Hex.
  - by injection Hex as <-.
  - destruct (step s l) as [s1|] eqn:E; [|done].
    apply not_elem_of_cons in Hc1 as [? ?]. apply not_elem_of_cons in Hc2 as [? ?].
    eapply (IH s1); try done. by eapply step_InvN.
Qed.

(** *** Whose result is emitted *)

Lemma appended_snoc_pq (tr : list event) e :
  appended (tr ++ [e]) = appended tr ++ match e with EvPush a true => [a] | _ => [] end.
Proof. unfold appended. rewrite omap_app. by destruct e as [? []| | |]. Qed.

Lemma outputs_snoc (tr : list event) e :
  outputs (tr ++ [e]) = outputs tr ++ match e with EvOut o res => [(o, res)] | _ => [] end.
Proof. unfold outputs. rewrite omap_app. by destruct e. Qed.

Record InvR s : Prop := {
  r_open : working s = true → open s = true;
  r_len : length (appended (trace s)) = push_order s;
  r_items : ∀ k o a, items s !! k = Some (o, a) → appended (trace s) !! k = Some a;
  r_task : ∀ i tk, tasks s !! i = Some tk →
      appended (trace s) !! order tk = Some (args tk) ∧
      EvCall (order tk) (args tk) ∈ trace s;
  r_wait : ∀ i tk res, tasks s !! i = Some tk → pc tk = Waiting res →
      ∃ r, res = Some r ∧ EvReturn (order tk) r ∈ trace s;
  r_out : ∀ o res, (o, res) ∈ outputs (trace s) →
      ∃ a r, appended (trace s) !! o = Some a ∧ EvCall o a ∈ trace s ∧
             EvReturn o r ∈ trace s ∧ res = Some r
}.

(** A step that appends nothing and starts no call of [callback]. *)
Lemma InvR_mono s s' tr' :
  InvR s →
  (working s' = true → open s' = true) →
  push_order s' = push_order s →
  trace s' = trace s ++ tr' → appended tr' = [] →
  (∀ k v, items s' !! k = Some v → items s !! k = Some v) →
  (∀ j tk', tasks s' !! j = Some tk' →
     ∃ tk0, tasks s !! j = Some tk0 ∧ order tk' = order tk0 ∧ args tk' = args tk0 ∧
       ∀ res, pc tk' = Waiting res →
         pc tk0 = Waiting res ∨ ∃ r, res = Some r ∧ EvReturn (order tk') r ∈ trace s') →
  (∀ o res, (o, res) ∈ outputs tr' →
     ∃ j tk0 r, tasks s !! j = Some tk0 ∧ order tk0 = o ∧
                res = Some r ∧ EvReturn o r ∈ trace s') →
  InvR s'.
Proof.
  intros [R1 R2 R3 R4 R5 R6] Hw Ep Et Ea Ei Htk Hout.
  assert (appended (trace s') = appended (trace s)) as Eapp.
  { rewrite Et. unfold appended in *. by rewrite omap_app, Ea, app_nil_r. }
  assert (∀ e, e ∈ trace s → e ∈ trace s') as Hin.
  { intros e He. rewrite Et. apply elem_of_app. by left. }
  split; rewrite ?Eapp, ?Ep; try done.
  - intros k o a Hk. apply Ei in Hk. eauto.
  - intros j tk' Hj. destruct (Htk j tk' Hj) as (tk0 & Hj0 & -> & -> & _).
    destruct (R4 j tk0 Hj0). split; [done|by apply Hin].
  - intros j tk' res Hj Hpc. destruct (Htk j tk' Hj) as (tk0 & Hj0 & Ho & _ & Hres).
    destruct (Hres res Hpc) as [Hpc0|?]; [|done].
    destruct (R5 j tk0 res Hj0 Hpc0) as (r & -> & Hr). exists r. split; [done|].
    rewrite Ho. by apply Hin.
  - intros o res Hor. rewrite Et in Hor. unfold outputs in Hor.
    rewrite omap_app in Hor. apply elem_of_app in Hor as [Hor|Hor].
    + destruct (R6 o res Hor) as (a & r & ? & ? & ? & ?). exists a, r.
      split_and!; try done; by apply Hin.
    + destruct (Hout o res Hor) as (j & tk0 & r & Hj0 & <- & -> & Hr).
      destruct (R4 j tk0 Hj0). exists (args tk0), r.
      split_and!; try done. by apply Hin.
Qed.

Lemma InvR_set_pc s i tk p :
  InvR s → tasks s !! i = Some tk →
  (∀ res, p = Waiting res → ∃ r, res = Some r ∧ EvReturn (order tk) r ∈ trace s) →
  InvR (set_pc i p s).
Proof.
  intros HR Hi Hp. eapply (InvR_mono s _ []); try done; simpl.
  - apply HR.
  - by rewrite app_nil_r.
  - intros j tk' Hj.
    apply alter_pc_lookup in Hj as (tk0 & Hj0 & Ho & Ha & [[-> Hpc]|[Hne ->]]).
    + exists tk0. split_and!; try done. intros res Hres. right.
      assert (tk0 = tk) as -> by congruence. rewrite Ho. apply Hp. congruence.
    + exists tk0. split_and!; try done. intros res Hres. by left.
  - intros o res Hor. by apply elem_of_nil in Hor.
Qed.

Lemma InvR_callback_finish s i tk :
  InvR s → tasks s !! i = Some tk → InvR (callback_finish i (order tk) s).
Proof.
  intros HR Hi. eapply (InvR_mono s _ []); try done; simpl.
  - apply HR.
  - by rewrite app_nil_r.
  - intros k v. rewrite lookup_delete. by destruct (decide (order tk = k)).
  - intros j tk' Hj.
    apply alter_pc_lookup in Hj as (tk0 & Hj0 & Ho & Ha & [[-> Hpc]|[Hne ->]]).
    + exists tk0. split_and!; try done. intros res Hres. congruence.
    + exists tk0. split_and!; try done. intros res Hres. by left.
  - intros o res Hor. by apply elem_of_nil in Hor.
Qed.

Lemma InvR_callback_continue s i tk r :
  InvR s → tasks s !! i = Some tk → EvReturn (order tk) r ∈ trace s →
  InvR (callback_continue i (order tk) (Some r) s).
Proof.
  intros HR Hi Hr. unfold callback_continue.
  destruct (negb (clearing s) && negb (outp_order s =? order tk)%nat).
  { apply (InvR_set_pc s i tk); [done..|]. intros res [= <-]. eauto. }
  destruct (clearing s).
  { eapply (InvR_mono s _ []); try done; simpl.
    - apply HR.
    - by rewrite app_nil_r.
    - intros j tk' Hj.
      apply alter_pc_lookup in Hj as (tk0 & Hj0 & Ho & Ha & [[-> Hpc]|[Hne ->]]).
      + exists tk0. split_and!; try done. intros res Hres. congruence.
      + exists tk0. split_and!; try done. intros res Hres. by left.
    - intros o res Hor. by apply elem_of_nil in Hor. }
  destruct (open s && bool_decide (is_Some (items s !! order tk))).
  - eapply (InvR_mono s _ [EvOut (order tk) (Some r)]); try done; simpl.
    + apply HR.
    + intros j tk' Hj.
      apply alter_pc_lookup in Hj as (tk0 & Hj0 & Ho & Ha & [[-> Hpc]|[Hne ->]]).
      * exists tk0. split_and!; try done. intros res Hres. congruence.
      * exists tk0. split_and!; try done. intros res Hres. by left.
    + intros o res [= -> ->]%list_elem_of_singleton. exists i, tk, r.
      split_and!; try done. apply elem_of_app. by left.
  - by apply InvR_callback_finish.
Qed.

Lemma new_InvR lim : InvR (new lim).
Proof.
  split; simpl; try done.
  intros o res Hor. by apply elem_of_nil in Hor.
Qed.

Lemma InvR_flags s s' :
  InvR s → (working s' = true → open s' = true) →
  push_order s' = push_order s → trace s' = trace s →
  (∀ k v, items s' !! k = Some v → items s !! k = Some v) →
  tasks s' = tasks s → InvR s'.
Proof.
  intros HR Hw Ep Et Ei Etk. eapply (InvR_mono s _ []); try done.
  - by rewrite app_nil_r.
  - intros j tk' Hj. rewrite Etk in Hj. exists tk'. split_and!; try done.
    intros res Hres. by left.
  - intros o res Hor. by apply elem_of_nil in Hor.
Qed.

Lemma step_InvR s l s' :
  Inv s ∧ InvR s → step s l = Some s' → Inv s' ∧ InvR s'.
Proof.
  intros HP Hstep.
  refine (step_preserves (fun s => Inv s ∧ InvR s)
            _ _ _ _ _ _ _ _ _ _ _ _ _ s l s' HP Hstep _ _).
  - intros s0 ps [H R]. split; [by eapply Inv_frame|eapply InvR_flags; try done; apply R].
  - intros s0 n [H R]. split; [by eapply Inv_frame|eapply InvR_flags; try done; apply R].
  - intros s0 [H R]. split; [by eapply Inv_frame|by eapply InvR_flags].
  - intros s0 [H R] Ho _. split; [by eapply Inv_frame|by eapply InvR_flags].
  - intros s0 a [H R] Ho. split.
    + eapply Inv_frame; try done. simpl. by rewrite emitted_snoc, app_nil_r.
    + eapply (InvR_mono s0 _ [EvPush a false]); try done; simpl.
      * apply R.
      * intros j tk' Hj. exists tk'. split_and!; try done. intros res Hres. by left.
      * intros o res Hor. by apply elem_of_nil in Hor.
  - intros s0 a [H R] Ho. split; [by apply Inv_append|].
    destruct R as [R1 R2 R3 R4 R5 R6].
    assert (∀ e, e ∈ trace s0 → e ∈ trace s0 ++ [EvPush a true]) as Hin.
    { intros e He. apply elem_of_app. by left. }
    split; simpl; rewrite ?appended_snoc_pq, ?outputs_snoc, ?app_nil_r; try done.
    + rewrite length_app. simpl. lia.
    + intros k o a'. rewrite lookup_insert.
      destruct (decide (push_order s0 = k)) as [<-|Hne].
      * intros [= <- <-]. rewrite lookup_app_r by lia.
        by rewrite R2, Nat.sub_diag.
      * intros Hk. apply lookup_app_l_Some. eauto.
    + intros j tk Hj. destruct (R4 j tk Hj). split; [by apply lookup_app_l_Some|by apply Hin].
    + intros j tk res Hj Hpc. destruct (R5 j tk res Hj Hpc) as (r & -> & ?).
      exists r. split; [done|by apply Hin].
    + intros o res Hor. destruct (R6 o res Hor) as (a' & r & ? & ? & ? & ?).
      exists a', r. split_and!; try done; [by apply lookup_app_l_Some|by apply Hin..].
  - intros s0 [H R] Hlt _. split; [by apply Inv_skip|by eapply InvR_flags; try apply R].
  - intros s0 item [H R] Hw Hlt Hitem. split; [by apply Inv_dispatch|].
    destruct item as [o a]. destruct (inv_items _ H _ _ _ Hitem) as [-> _].
    unfold callback_start. simpl. rewrite (r_open _ R Hw).
    pose proof (r_items _ R _ _ _ Hitem) as Happ.
    destruct R as [R1 R2 R3 R4 R5 R6].
    assert (∀ e, e ∈ trace s0 → e ∈ trace s0 ++ [EvCall (work_order s0) a]) as Hin.
    { intros e He. apply elem_of_app. by left. }
    split; simpl; rewrite ?appended_snoc_pq, ?outputs_snoc, ?app_nil_r; try done.
    + intros j tk Hj. apply lookup_app_Some in Hj as [Hj|[Hge Hj]].
      * destruct (R4 j tk Hj). split; [done|by apply Hin].
      * apply list_lookup_singleton_Some in Hj as [_ <-]. simpl. split; [done|].
        apply elem_of_app. right. by apply list_elem_of_singleton.
    + intros j tk res Hj Hpc. apply lookup_app_Some in Hj as [Hj|[Hge Hj]].
      * destruct (R5 j tk res Hj Hpc) as (r & -> & ?). exists r. split; [done|by apply Hin].
      * apply list_lookup_singleton_Some in Hj as [_ <-]. done.
    + intros o res Hor. destruct (R6 o res Hor) as (a' & r & ? & ? & ? & ?).
      exists a', r. split_and!; try done; by apply Hin.
  - intros s0 i tk r [H R] Hi Hpc.
    assert (Inv (log (EvReturn (order tk) r) s0)) as H'.
    { eapply Inv_frame; try done. simpl. by rewrite emitted_snoc, app_nil_r. }
    assert (InvR (log (EvReturn (order tk) r) s0)) as R'.
    { eapply (InvR_mono s0 _ [EvReturn (order tk) r]); try done; simpl.
      - apply R.
      - intros j tk' Hj. exists tk'. split_and!; try done. intros res Hres. by left.
      - intros o res Hor. by apply elem_of_nil in Hor. }
    split; [apply Inv_callback_continue; try done; by rewrite Hpc|].
    apply InvR_callback_continue; try done.
    simpl. apply elem_of_app. right. by apply list_elem_of_singleton.
  - intros s0 i tk [H R] Hi Hpc. split.
    + by apply (step_Inv s0 (FuncThrow i)); [|simpl; rewrite Hi; destruct tk; simpl in *; subst].
    + by apply (InvR_set_pc s0 i tk).
  - intros s0 i tk res [H R] Hi Hpc.
    split; [apply Inv_callback_continue; try done; by rewrite Hpc|].
    destruct (r_wait _ R i tk res Hi Hpc) as (r & -> & Hr).
    by apply InvR_callback_continue.
  - intros s0 i tk [H R] Hi Hpc.
    split; [by apply Inv_callback_finish|by apply InvR_callback_finish].
  - intros s0 i tk [H R] Hi Hpc. split.
    + by apply (step_Inv s0 (OutpThrow i)); [|simpl; rewrite Hi; destruct tk; simpl in *; subst].
    + by apply (InvR_set_pc s0 i tk).
  - intros _. destruct HP as [H R]. split; [by apply Inv_clear|].
    eapply InvR_flags; try done. apply R.
  - intros _. destruct HP as [H R]. split; [by apply Inv_close|].
    by eapply InvR_flags.
Qed.

Lemma exec_InvR ls s s' :
  Inv s ∧ InvR s → exec ls s = Some s' → Inv s' ∧ InvR s'.
Proof.
  revert s. induction ls as [|l ls IH]; intros s HP Hex; simpl in Hex.
  - by injection Hex as <-.
  - destruct (step s l) as [s1|] eqn:E; [|done].
    eapply (IH s1); try done. by eapply step_InvR.
Qed.

(** *** Calls of [callback] that have ended *)

Definition terminal (p : PC Result) : bool :=
  match p with Finished | FailedFunc | FailedOutp => true | _ => false end.

Lemma tasks_callback_finish i o s :
  tasks (callback_finish i o s) =
  alter (fun tk => mkTask (order tk) (args tk) Finished) i (tasks s).
Proof. done. Qed.

Lemma tasks_callback_continue i o res s :
  ∃ p, tasks (callback_continue i o res s) =
       alter (fun tk => mkTask (order tk) (args tk) p) i (tasks s).
Proof.
  unfold callback_continue.
  destruct (negb (clearing s) && negb (outp_order s =? o)%nat); [by eexists|].
  destruct (clearing s); [by eexists|].
  destruct (open s && bool_decide (is_Some (items s !! o))); by eexists.
Qed.

(** A call of [callback] that has ended, or was rejected, takes no further
    step. *)
Lemma step_terminal s l s' i tk0 :
  terminal (pc tk0) = true → tasks s !! i = Some tk0 → step s l = Some s' →
  tasks s' !! i = Some tk0.
Proof.
  intros Hterm Hi Hstep.
  assert (∀ s0 j tk p, tasks s0 !! i = Some tk0 → tasks s0 !! j = Some tk →
            terminal (pc tk) = false →
            alter (fun tk => mkTask (order tk) (args tk) p) j (tasks s0) !! i = Some tk0)
    as Halter.
  { intros s0 j tk p H0 Hj Hpc. rewrite list_lookup_alter_ne; [done|].
    intros ->. assert (tk = tk0) as -> by congruence. congruence. }
  refine (step_preserves (fun s => tasks s !! i = Some tk0)
            _ _ _ _ _ _ _ _ _ _ _ _ _ s l s' Hi Hstep _ _); try done.
  - intros s0 item H0 _ _ _. unfold callback_start. simpl.
    destruct (open s0); simpl; [by apply lookup_app_l_Some|].
    destruct (tasks_callback_continue (length (tasks s0)) item.1 None
                (set_tasks (tasks s0 ++ [mkTask item.1 item.2 (Waiting None)])
                   (set_curr_working (curr_working s0 + 1)
                      (set_work_order (S (work_order s0)) s0)))) as [p ->].
    simpl. rewrite list_lookup_alter_ne; [by apply lookup_app_l_Some|].
    apply lookup_lt_Some in H0. lia.
  - intros s0 j tk r H0 Hj Hpc.
    destruct (tasks_callback_continue j (order tk) (Some r)
                (log (EvReturn (order tk) r) s0)) as [p ->].
    simpl. eapply Halter; eauto. by rewrite Hpc.
  - intros s0 j tk H0 Hj Hpc. simpl. eapply Halter; eauto. by rewrite Hpc.
  - intros s0 j tk res H0 Hj Hpc.
    destruct (tasks_callback_continue j (order tk) res s0) as [p ->].
    eapply Halter; eauto. by rewrite Hpc.
  - intros s0 j tk H0 Hj Hpc. simpl. eapply Halter; eauto. by rewrite Hpc.
  - intros s0 j tk H0 Hj Hpc. simpl. eapply Halter; eauto. by rewrite Hpc.
Qed.

Lemma exec_terminal ls s s' i tk0 :
  terminal (pc tk0) = true → tasks s !! i = Some tk0 → exec ls s = Some s' →
  tasks s' !! i = Some tk0.
Proof.
  intros Hterm. revert s. induction ls as [|l ls IH]; intros s Hi Hex; simpl in Hex.
  - by injection Hex as <-.
  - destruct (step s l) as [s1|] eqn:E; [|done].
    eapply IH; [|done]. by eapply step_terminal.
Qed.

(** *** What [clear] suppresses

    Once the entry of a sequence number below [push_order] is gone from
    [items], [outp_callback] is never called for it. *)
Definition suppressed (k : nat) s : Prop :=
  (k < push_order s)%nat ∧ items s !! k = None ∧ k ∉ emitted (trace s).

Lemma suppressed_continue k i o res s :
  suppressed k s → suppressed k (callback_continue i o res s).
Proof.
  intros (Hk & Hi & He). unfold callback_continue.
  destruct (negb (clearing s) && negb (outp_order s =? o)%nat); [done|].
  destruct (clearing s); [done|].
  destruct (open s && bool_decide (is_Some (items s !! o))) eqn:E.
  - split_and!; simpl; try done. rewrite emitted_snoc.
    apply not_elem_of_app. split; [done|]. intros ->%list_elem_of_singleton.
    apply andb_true_iff in E as [_ E]. apply bool_decide_eq_true in E.
    rewrite Hi in E. by destruct E.
  - split_and!; simpl; try done. rewrite lookup_delete. by destruct (decide (o = k)).
Qed.

Lemma step_suppressed k s l s' :
  suppressed k s → step s l = Some s' → suppressed k s'.
Proof.
  intros HS Hstep.
  refine (step_preserves (suppressed k)
            _ _ _ _ _ _ _ _ _ _ _ _ _ s l s' HS Hstep _ _); try done.
  - intros s0 a (Hk & Hi & He) _. split_and!; simpl; try done.
    by rewrite emitted_snoc, app_nil_r.
  - intros s0 a (Hk & Hi & He) _. split_and!; simpl.
    + lia.
    + rewrite lookup_insert_ne; [done|lia].
    + by rewrite emitted_snoc, app_nil_r.
  - intros s0 item (Hk & Hi & He) _ _ _. unfold callback_start. simpl.
    destruct (open s0).
    + split_and!; simpl; try done. by rewrite emitted_snoc, app_nil_r.
    + by apply suppressed_continue.
  - intros s0 i tk r (Hk & Hi & He) _ _. apply suppressed_continue.
    split_and!; simpl; try done. by rewrite emitted_snoc, app_nil_r.
  - intros s0 i tk res HS0 _ _. by apply suppressed_continue.
  - intros s0 i tk (Hk & Hi & He) _ _. split_and!; simpl; try done.
    rewrite lookup_delete. by destruct (decide (order tk = k)).
  - intros _. destruct HS as (Hk & Hi & He). by split_and!.
  - intros _. destruct HS as (Hk & Hi & He). by split_and!.
Qed.

Lemma exec_suppressed k ls s s' :
  suppressed k s → exec ls s = Some s' → suppressed k s'.
Proof.
  revert s. induction ls as [|l ls IH]; intros s HS Hex; simpl in Hex.
  - by injection Hex as <-.
  - destruct (step s l) as [s1|] eqn:E; [|done].
    eapply IH; [|done]. by eapply step_suppressed.
Qed.

(** After [clear()] the result of no call of [callback] that has not yet
    called [outp_callback] is ever passed to it, while its handler is free
    to finish. *)
Lemma clear_suppresses lim ls s ls' s' i tk :
  exec ls (new lim) = Some s → tasks s !! i = Some tk → unsent (pc tk) = true →
  exec ls' (clear s) = Some s' →
  order tk ∉ emitted (trace s').
Proof.
  intros Hex Hi Hun Hex'.
  pose proof (exec_Inv _ _ _ (new_Inv lim) Hex) as HI.
  eapply (exec_suppressed (order tk) ls' (clear s) s'); [|done].
  split_and!; simpl.
  - pose proof (inv_torder _ HI i tk Hi). pose proof (inv_wp _ HI). lia.
  - done.
  - by eapply (inv_unsent _ HI).
Qed.

(** *** The queue after [clear()] with a handler in flight *)

Lemma called_snoc_pq (tr : list event) e :
  called (tr ++ [e]) = called tr ++ match e with EvCall o a => [(o, a)] | _ => [] end.
Proof. unfold called. rewrite omap_app. by destruct e. Qed.

Lemma emitted_outputs (tr : list event) : emitted tr = (outputs tr).*1.
Proof.
  induction tr as [|e tr IH]; [done|].
  change (e :: tr) with ([e] ++ tr). unfold emitted, outputs in *.
  rewrite !omap_app, fmap_app, IH. by destruct e.
Qed.

(** The state the queue is left in: all calls of [callback] have ended
    without passing on a result, [work] waits for [curr_working] to fall
    below [limit], which nothing decrements any more. *)
Definition stalled (a b : Args) s : Prop :=
  called (trace s) = [(0%nat, a)] ∧ b ∈ appended (trace s) ∧
  emitted (trace s) = [] ∧
  (∀ i tk, tasks s !! i = Some tk → pc tk = Finished) ∧
  ((open s = true ∧ working s = true ∧ limit s ≤ curr_working s) ∨
   (open s = false ∧ working s = false)).

Lemma step_stalled a b s l s' : stalled a b s → step s l = Some s' → stalled a b s'.
Proof.
  intros HS Hstep.
  assert (∀ s0 i tk (p : PC Result), stalled a b s0 → tasks s0 !! i = Some tk →
            pc tk = p → p ≠ Finished → False) as Hno.
  { intros s0 i tk p (_ & _ & _ & Hfin & _) Hi Hpc Hp. apply Hp.
    rewrite <- Hpc. by eapply Hfin. }
  refine (step_preserves_loop (stalled a b)
            (fun s => open s = false ∧ working s = false)
            _ _ _ _ _ _ _ _ _ _ _ _ _ _ s l s' HS Hstep _ _).
  - intros s0 ps H0. exact H0.
  - intros s0 H0 _. exact H0.
  - intros s0 n (H1 & H2 & H3 & H4 & [(Ho & Hw & Hl)|[Ho Hw]]) _ Hlim.
    + unfold at_limit in Hlim. rewrite Ho in Hlim. simpl in Hlim.
      apply Z.leb_gt in Hlim. lia.
    + split; [|done]. split_and!; try done. by right.
  - intros s0 (H1 & H2 & H3 & H4 & [(Ho & Hw & Hl)|[Ho Hw]]) Ho' Hw'; congruence.
  - intros s0 (H1 & H2 & H3 & H4 & _) [Ho Hw]. split_and!; try done. by right.
  - intros s0 a' (H1 & H2 & H3 & H4 & H5) _. split_and!; simpl; try done.
    + by rewrite called_snoc_pq, app_nil_r.
    + rewrite appended_snoc_pq, app_nil_r. done.
    + by rewrite emitted_snoc, app_nil_r.
  - intros s0 a' (H1 & H2 & H3 & H4 & H5) _. split_and!; simpl; try done.
    + by rewrite called_snoc_pq, app_nil_r.
    + rewrite appended_snoc_pq. apply elem_of_app. by left.
    + by rewrite emitted_snoc, app_nil_r.
  - intros s0 _ [_ Hw] Hw'. congruence.
  - intros s0 item _ [_ Hw] Hw'. congruence.
  - intros s0 i tk r H0 Hi Hpc. exfalso. by eapply Hno.
  - intros s0 i tk H0 Hi Hpc. exfalso. by eapply Hno.
  - intros s0 i tk res H0 Hi Hpc. exfalso. by eapply Hno.
  - intros s0 i tk H0 Hi Hpc. exfalso. by eapply Hno.
  - intros s0 i tk H0 Hi Hpc. exfalso. by eapply Hno.
  - intros _. destruct HS as (H1 & H2 & H3 & H4 & H5). by split_and!.
  - intros _. destruct HS as (H1 & H2 & H3 & H4 & H5). split_and!; try done. by right.
Qed.

Lemma exec_stalled a b ls s s' : stalled a b s → exec ls s = Some s' → stalled a b s'.
Proof.
  revert s. induction ls as [|l ls IH]; intros s HS Hex; simpl in Hex.
  - by injection Hex as <-.
  - destruct (step s l) as [s1|] eqn:E; [|done].
    eapply IH; [|done]. by eapply step_stalled.
Qed.

(** C7. The default queue (limit 1): [a] is pushed and handed to its
    handler, [clear()] is called while the handler runs, the handler
    returns, and [b] is pushed and accepted.  Whatever happens afterwards,
    the handler is never called for [b] and [outp_callback] is never called
    at all: the call of [callback] for [a] has returned at
    [if (this.clearing)] without decrementing [curr_working], so [work]
    waits forever. *)
Theorem C7_clear_stalls_queue (a b : Args) (r : Result) ls s :
  exec ([Push a; PushResume 0; Clear; FuncDone 0 r; Push b; PushResume 0] ++ ls)
       (new 1) = Some s →
  b ∈ appended (trace s) ∧ called (trace s) = [(0%nat, a)] ∧ outputs (trace s) = [].
Proof.
  rewrite pq_exec_app.
  destruct (exec [Push a; PushResume 0; Clear; FuncDone 0 r; Push b; PushResume 0]
              (new 1)) as [s0|] eqn:E0; [|done].
  vm_compute in E0. injection E0 as <-. simpl. intros Hex.
  eapply (exec_stalled a b) in Hex.
  - destruct Hex as (H1 & H2 & H3 & _). split_and!; try done.
    rewrite emitted_outputs in H3. by destruct (outputs (trace s)).
  - split_and!; simpl; try done.
    + apply list_elem_of_In. simpl. by right; left.
    + intros [|[|i]] tk; simpl; [by intros [= <-]|done..].
    + left. done.
Qed.

(** The claim C1 as the specification words it: in every run
    [outp_callback] is called for the sequence numbers 0, 1, 2, ... in
    this order, without a gap and without a duplicate. *)
Definition ordered_without_gaps : Prop :=
  ∀ lim ls s,
    exec ls (new lim) = Some s →
    emitted (trace s) = seq 0 (length (emitted (trace s))).

(** The call of [callback] whose turn it is calls [outp_callback] in the
    step in which it looks. *)
Lemma continue_emits i o res s :
  clearing s = false → open s = true → outp_order s = o → is_Some (items s !! o) →
  callback_continue i o res s = set_pc i Emitting (log (EvOut o res) s).
Proof.
  intros Hc Ho Hout Hi. unfold callback_continue.
  rewrite Hc, Ho, Hout, Nat.eqb_refl. simpl. by rewrite bool_decide_true.
Qed.

(** C1, amended.  In every run [outp_callback] is called for strictly
    increasing sequence numbers (so for no number twice, and with the
    result of item [i] before that of item [j] whenever [i < j] and both
    are passed on, in whatever order the handlers return), and what it is
    called with for number [o] is the value the handler returned for the
    [o]-th pushed arguments.  As long as neither [clear()] nor [close()]
    has been called the numbers are 0, 1, 2, ... without a gap, and the
    item whose turn it is is not held back: its result is passed on in the
    step in which its handler returns, or at the next turn of its polling
    loop when the handler had returned before, and the end of
    [outp_callback] gives the turn to the next number. *)
Theorem C1_ordered_output (lim : Z) ls s :
  exec ls (new lim) = Some s →
  StronglySorted lt (emitted (trace s))
  ∧ (∀ o res, (o, res) ∈ outputs (trace s) →
       ∃ a r, appended (trace s) !! o = Some a ∧ EvCall o a ∈ trace s ∧
              EvReturn o r ∈ trace s ∧ res = Some r)
  ∧ (Clear ∉ ls → Close ∉ ls →
       emitted (trace s) = seq 0 (length (emitted (trace s)))
       ∧ (∀ i tk r, tasks s !! i = Some tk → pc tk = Running →
            order tk = outp_order s →
            ∃ s', step s (FuncDone i r) = Some s' ∧
                  outputs (trace s') = outputs (trace s) ++ [(order tk, Some r)])
       ∧ (∀ i tk res, tasks s !! i = Some tk → pc tk = Waiting res →
            order tk = outp_order s →
            ∃ s', step s (TurnPoll i) = Some s' ∧
                  outputs (trace s') = outputs (trace s) ++ [(order tk, res)])
       ∧ (∀ i tk, tasks s !! i = Some tk → pc tk = Emitting →
            ∃ s', step s (OutpDone i) = Some s' ∧
                  outp_order s' = S (order tk))).
Proof.
  intros Hex. split_and!.
  - by apply (exec_Inv _ _ _ (new_Inv lim) Hex).
  - by apply (exec_InvR _ _ _ (conj (new_Inv lim) (new_InvR lim)) Hex).
  - intros Hc1 Hc2.
    destruct (exec_InvN _ _ _ (conj (new_Inv lim) (new_InvN lim)) Hex Hc1 Hc2)
      as [_ HN].
    pose proof (n_clearing _ HN) as Hcl. pose proof (n_open _ HN) as Hop.
    split_and!.
    + destruct (n_seq _ HN) as (n & -> & _). by rewrite length_seq.
    + intros i [o a p] r Hi Hpc Hout. simpl in *. subst p.
      destruct (n_live _ HN i _ Hi ltac:(done)) as [_ Hsome]. simpl in Hsome.
      eexists. rewrite Hi. split; [done|].
      rewrite continue_emits by done. simpl.
      by rewrite !outputs_snoc, app_nil_r.
    + intros i [o a p] res Hi Hpc Hout. simpl in *. subst p.
      destruct (n_live _ HN i _ Hi ltac:(done)) as [_ Hsome]. simpl in Hsome.
      eexists. rewrite Hi. split; [done|].
      rewrite continue_emits by done. simpl.
      by rewrite outputs_snoc.
    + intros i [o a p] Hi Hpc. simpl in *. subst p.
      destruct (n_blocked _ HN i _ Hi eq_refl) as [Hout _]. simpl in Hout.
      eexists. rewrite Hi. split; [done|]. simpl. by rewrite Hout.
Qed.

(** The claim C5 as the specification words it: the error of a handler is
    delivered to the output sink as the result of its item. *)
Definition handler_errors_delivered : Prop :=
  ∀ lim ls s i tk,
    exec ls (new lim) = Some s → tasks s !! i = Some tk → pc tk = FailedFunc →
    ∃ ls' s', exec ls' s = Some s' ∧ order tk ∈ emitted (trace s').

(** C5, amended.  When the handler of an item throws or rejects, its call
    of [callback] ends there: nothing else in the state changes, no other
    call of [callback] is touched, and [outp_callback] is never called for
    the item.  The calls that are made keep the sequence order, and in a
    run without [clear()] and [close()] they are made only for smaller
    sequence numbers: no later item is emitted. *)
Theorem C5_handler_failure (lim : Z) ls s i tk s' ls' s'' :
  exec ls (new lim) = Some s → tasks s !! i = Some tk →
  step s (FuncThrow i) = Some s' → exec ls' s' = Some s'' →
  s' = set_pc i FailedFunc s
  ∧ trace s' = trace s
  ∧ (∀ j, j ≠ i → tasks s' !! j = tasks s !! j)
  ∧ (order tk ∉ emitted (trace s''))
  ∧ StronglySorted lt (emitted (trace s''))
  ∧ (Clear ∉ (ls ++ ls') → Close ∉ (ls ++ ls') →
       ∀ e, e ∈ emitted (trace s'') → (e < order tk)%nat).
Proof.
  intros Hex Hi Hstep Hex'.
  assert (exec (ls ++ FuncThrow i :: ls') (new lim) = Some s'') as Hall.
  { rewrite pq_exec_app, Hex.
    change (match step s (FuncThrow i) with
            | Some s1 => exec ls' s1
            | None => None
            end = Some s''). by rewrite Hstep. }
  pose proof (exec_Inv _ _ _ (new_Inv lim) Hall) as HI''.
  simpl in Hstep. rewrite Hi in Hstep.
  destruct tk as [o a p]. destruct p; try done. injection Hstep as <-.
  assert (tasks s'' !! i = Some (mkTask o a FailedFunc)) as Hi''.
  { eapply (exec_terminal ls' _ s''); [done| |exact Hex'].
    simpl. by rewrite list_lookup_alter_eq, Hi. }
  split_and!; try done.
  - intros j Hne. simpl. by rewrite list_lookup_alter_ne.
  - by apply (inv_unsent _ HI'' i _ Hi'').
  - apply HI''.
  - intros Hc1 Hc2 e He.
    assert (Clear ∉ (ls ++ FuncThrow i :: ls')) as Hc1'.
    { intros Hin. apply Hc1. apply elem_of_app in Hin as [?|Hin];
        [apply elem_of_app; by left|].
      apply elem_of_cons in Hin as [?|?]; [done|apply elem_of_app; by right]. }
    assert (Close ∉ (ls ++ FuncThrow i :: ls')) as Hc2'.
    { intros Hin. apply Hc2. apply elem_of_app in Hin as [?|Hin];
        [apply elem_of_app; by left|].
      apply elem_of_cons in Hin as [?|?]; [done|apply elem_of_app; by right]. }
    destruct (exec_InvN _ _ _ (conj (new_Inv lim) (new_InvN lim)) Hall Hc1' Hc2')
      as [_ HN].
    destruct (n_live _ HN i _ Hi'' ltac:(done)) as [Hle _].
    destruct (Inv_emitted_le _ _ HI'' He) as [Hle' _].
    pose proof (inv_unsent _ HI'' i _ Hi'' eq_refl) as Hnot. simpl in *.
    destruct (decide (e = o)) as [->|]; [done|lia].
Qed.
End ParalelQueueProofs.

Section ParalelQueueRuns.
Import ParalelQueue.

(** The scenario of the specification: the handler of item 1 returns
    before that of item 0. *)
Lemma C1_ordered_output_witness :
  let ls := [Push "a"; PushResume 0; Push "b"; PushResume 0;
             FuncDone 1 "rb"; FuncDone 0 "ra"; OutpDone 0; TurnPoll 1;
             OutpDone 1]%string in
  ∃ s : t string string,
    exec ls (new 2) = Some s ∧
    outputs (trace s) = [(0, Some "ra"); (1, Some "rb")]%string%nat ∧
    StronglySorted lt (emitted (trace s)).
Proof.
  intros ls.
  pose (s := default (new 0) (exec (Args := string) (Result := string) ls (new 2))).
  assert (exec ls (new 2) = Some s) as Hex by (vm_compute; reflexivity).
  exists s. split_and!; [exact Hex|vm_compute; reflexivity|].
  exact (proj1 (C1_ordered_output 2 ls s Hex)).
Defined.

(** C1, counterexample: with limit 3, [a] and [b] are pushed and handed
    to their handlers, [clear()] is called, [c] is pushed, and the three
    handlers return: [outp_callback] is called for number 2 alone. *)
Lemma C1_counterexample : ¬ ordered_without_gaps (Args := string) (Result := string).
Proof.
  intros H.
  pose (ls := [Push "a"; PushResume 0; Push "b"; PushResume 0; Clear;
               Push "c"; PushResume 0; FuncDone 0 "ra"; FuncDone 1 "rb";
               FuncDone 2 "rc"]%string : list (Label string string)).
  pose (s := default (new 0) (exec ls (new 3))).
  assert (exec ls (new 3) = Some s) as Hex by (vm_compute; reflexivity).
  specialize (H 3 ls s Hex). vm_compute in H. discriminate H.
Qed.

(** C5, counterexample: the handler of the only item throws; in no
    continuation is [outp_callback] called for it. *)
Lemma C5_counterexample : ¬ handler_errors_delivered (Args := string) (Result := string).
Proof.
  intros H.
  pose (ls := [Push "a"; PushResume 0]%string : list (Label string string)).
  pose (s := default (new 0) (exec ls (new 1))).
  pose (s' := default (new 0) (step s (FuncThrow 0))).
  pose (tk := mkTask (Result := string) 0%nat "a"%string Running).
  pose (tk' := mkTask (Result := string) 0%nat "a"%string FailedFunc).
  assert (exec ls (new 1) = Some s) as Hex by (vm_compute; reflexivity).
  assert (tasks s !! 0%nat = Some tk) as Htk by (vm_compute; reflexivity).
  assert (step s (FuncThrow 0) = Some s') as Hstep by (vm_compute; reflexivity).
  assert (exec (ls ++ [FuncThrow 0%nat]) (new 1) = Some s') as Hex'
    by (vm_compute; reflexivity).
  assert (tasks s' !! 0%nat = Some tk') as Htk' by (vm_compute; reflexivity).
  destruct (H 1 (ls ++ [FuncThrow 0%nat]) s' 0%nat tk' Hex' Htk' eq_refl)
    as (ls' & s'' & Hrun & Hem).
  pose proof (exec_terminal ls' s' s'' 0%nat tk' eq_refl Htk' Hrun) as Htk''.
  pose proof (exec_Inv _ _ _ (exec_Inv _ _ _ (new_Inv 1) Hex') Hrun) as HI.
  by apply (inv_unsent _ HI 0%nat tk' Htk'').
Qed.

Lemma C5_handler_failure_witness :
  let ls := [Push "a"; PushResume 0; Push "b"; PushResume 0]%string in
  let ls' := [FuncDone 1 "rb"; TurnPoll 1]%string in
  ∃ s s' s'' : t string string,
    exec ls (new 2) = Some s ∧ step s (FuncThrow 0) = Some s' ∧
    exec ls' s' = Some s'' ∧
    trace s' = trace s ∧ emitted (trace s'') = [] ∧
    tasks s'' !! 1%nat = Some (mkTask 1%nat "b"%string (Waiting (Some "rb"%string))).
Proof.
  intros ls ls'.
  pose (s := default (new 0) (exec (Args := string) (Result := string) ls (new 2))).
  pose (s' := default (new 0) (step s (FuncThrow 0))).
  pose (s'' := default (new 0) (exec ls' s')).
  pose (tk := mkTask (Result := string) 0%nat "a"%string Running).
  assert (exec ls (new 2) = Some s) as Hex by (vm_compute; reflexivity).
  assert (tasks s !! 0%nat = Some tk) as Htk by (vm_compute; reflexivity).
  assert (step s (FuncThrow 0) = Some s') as Hstep by (vm_compute; reflexivity).
  assert (exec ls' s' = Some s'') as Hrun by (vm_compute; reflexivity).
  exists s, s', s''.
  destruct (C5_handler_failure 2 ls s 0%nat tk s' ls' s'' Hex Htk Hstep Hrun)
    as (_ & Ht & _).
  split_and!; [exact Hex|exact Hstep|exact Hrun|exact Ht|
               vm_compute; reflexivity|vm_compute; reflexivity].
Defined.

Lemma C7_clear_stalls_queue_witness :
  let ls := [WorkPoll; Push "c"; PushPoll 0; PushPoll 0]%string in
  ∃ s : t string string,
    exec ([Push "a"; PushResume 0; Clear; FuncDone 0 "ra"; Push "b"; PushResume 0]%string
            ++ ls) (new 1) = Some s ∧
    pushers s = [Polling "c"%string] ∧
    called (trace s) = [(0%nat, "a"%string)] ∧ outputs (trace s) = [].
Proof.
  intros ls.
  pose (s := default (new 0)
               (exec (Args := string) (Result := string)
                  ([Push "a"; PushResume 0; Clear; FuncDone 0 "ra"; Push "b";
                    PushResume 0]%string ++ ls) (new 1))).
  assert (exec ([Push "a"; PushResume 0; Clear; FuncDone 0 "ra"; Push "b";
                 PushResume 0]%string ++ ls) (new 1) = Some s) as Hex
    by (vm_compute; reflexivity).
  exists s.
  destruct (C7_clear_stalls_queue "a"%string "b"%string "ra"%string ls s Hex)
    as (_ & Hc & Ho).
  split_and!; [exact Hex|vm_compute; reflexivity|exact Hc|exact Ho].
Defined.
End ParalelQueueRuns.

(** ** The constructors *)

(** C10. [new SerialQueue(callback, limit)] and [new ParalelQueue(f, g,
    limit)] with a limit of zero or below do not fail: they give an open
    queue whose limit is 1.  [new OrderedQueue(limit)] with such a limit
    throws. *)
Theorem C10_constructor_limits (Args Result : Type) (lim : Z) :
  lim ≤ 0 →
  SerialQueue.max (SerialQueue.new (Args := Args) lim) = 1
  ∧ SerialQueue.open (SerialQueue.new (Args := Args) lim) = true
  ∧ ParalelQueue.max (ParalelQueue.new (Args := Args) (Result := Result) lim) = 1
  ∧ ParalelQueue.open (ParalelQueue.new (Args := Args) (Result := Result) lim) = true
  ∧ OrderedQueue.new lim = inl "Limit cannot be less than 1."%string.
Proof.
  intros Hlim. unfold SerialQueue.new, ParalelQueue.new, OrderedQueue.new,
    SerialQueue.max, ParalelQueue.max. simpl.
  destruct (Z.ltb_spec 0 lim); [lia|].
  destruct (Z.ltb_spec lim 1); [done|lia].
Qed.

Lemma C10_constructor_limits_witness :
  SerialQueue.max (SerialQueue.new (Args := string) (-3)) = 1
  ∧ ParalelQueue.max (ParalelQueue.new (Args := string) (Result := string) 0) = 1
  ∧ OrderedQueue.new 0 = inl "Limit cannot be less than 1."%string.
Proof.
  destruct (C10_constructor_limits string string (-3) ltac:(lia)) as (H1 & _).
  destruct (C10_constructor_limits string string 0 ltac:(lia)) as (_ & _ & H2 & _ & H3).
  exact (conj H1 (conj H2 H3)).
Defined.

(* ===================================================================== *)
(** * Part III: further properties of the code                            *)
(* ===================================================================== *)

(** ** OrderedQueue: tickets and events *)

Section OrderedQueueTickets.
Import OrderedQueue.

(** *** Positions in a filtered queue *)

Lemma indexOf_cons (a : string) (l : list string) x :
  indexOf (a :: l) x =
  if decide (x = a) then 0
  else if decide (x ∈ l) then indexOf l x + 1 else -1.
Proof.
  unfold indexOf. simpl. destruct (decide (x = a)) as [->|Hne]; [done|].
  destruct (decide (x ∈ l)) as [Hin|Hin].
  - destruct (indexOf_first l x Hin) as (i & Hi & _). unfold indexOf in Hi.
    destruct (list_find (eq x) l) as [[j y]|]; simpl in *; lia.
  - pose proof (indexOf_notin l x Hin) as Hi. unfold indexOf in Hi.
    destruct (list_find (eq x) l) as [[j y]|]; simpl in *; [lia|done].
Qed.

Lemma indexOf_elem (l : list string) x : x ∈ l → 0 ≤ indexOf l x < Z.of_nat (length l).
Proof.
  intros Hin. destruct (indexOf_first l x Hin) as (i & -> & Hi & _).
  apply lookup_lt_Some in Hi. lia.
Qed.

(** The position of a ticket that stays, after others have left and
    new ones have arrived behind: the number of tickets ahead of it that
    stay. *)
Lemma indexOf_filter (P : string → Prop) `{!∀ x, Decision (P x)}
    (l rest : list string) x :
  x ∈ l → P x →
  indexOf (filter P l ++ rest) x
  = Z.of_nat (length (filter P (take (Z.to_nat (indexOf l x)) l))).
Proof.
  intros Hin HP. induction l as [|a l IH]; [by apply elem_of_nil in Hin|].
  rewrite (indexOf_cons a l x). destruct (decide (x = a)) as [->|Hne].
  - rewrite filter_cons_True by done. simpl.
    rewrite indexOf_cons. by rewrite decide_True.
  - apply elem_of_cons in Hin as [?|Hin]; [done|].
    rewrite decide_True by done.
    pose proof (indexOf_elem l x Hin) as Hr.
    replace (Z.to_nat (indexOf l x + 1)) with (S (Z.to_nat (indexOf l x))) by lia.
    simpl. destruct (decide (P a)) as [Ha|Ha].
    + rewrite !filter_cons_True by done. simpl.
      rewrite indexOf_cons, decide_False by done.
      rewrite decide_True.
      * rewrite IH by done. lia.
      * apply elem_of_app. left. by apply list_elem_of_filter.
    + rewrite !filter_cons_False by done. by apply IH.
Qed.

Lemma filter_take_mono (P : string → Prop) `{!∀ x, Decision (P x)}
    (l : list string) (i j : nat) :
  (i ≤ j)%nat →
  (length (filter P (take i l)) ≤ length (filter P (take j l)))%nat.
Proof.
  intros Hij. replace j with (i + (j - i))%nat by lia.
  rewrite <- take_take_drop, filter_app, length_app. lia.
Qed.

Lemma filter_take_strict (P : string → Prop) `{!∀ x, Decision (P x)}
    (l : list string) (i j : nat) x :
  l !! i = Some x → P x → (i < j)%nat →
  (length (filter P (take i l)) < length (filter P (take j l)))%nat.
Proof.
  intros Hi HP Hij.
  pose proof (filter_take_mono P l (S i) j ltac:(lia)) as Hm.
  rewrite (take_S_r _ _ _ Hi) in Hm.
  rewrite filter_app, length_app, filter_cons_True in Hm by done.
  simpl in Hm. lia.
Qed.

(** *** The queue after one call *)

Lemma filter_all (P : string → Prop) `{!∀ x, Decision (P x)} (l : list string) :
  (∀ x, x ∈ l → P x) → filter P l = l.
Proof.
  induction l as [|a l IH]; intros Hall; [done|].
  rewrite filter_cons_True by (apply Hall; left).
  f_equal. apply IH. intros x Hx. apply Hall. by right.
Qed.

Lemma filter_ext_in (P Q : string → Prop) `{!∀ x, Decision (P x)}
    `{!∀ x, Decision (Q x)} (l : list string) :
  (∀ x, x ∈ l → P x ↔ Q x) → filter P l = filter Q l.
Proof.
  induction l as [|a l IH]; intros Hall; [done|].
  rewrite !filter_cons.
  rewrite IH by (intros x Hx; apply Hall; by right).
  destruct (decide (P a)) as [Ha|Ha], (decide (Q a)) as [Hb|Hb]; try done.
  - exfalso. apply Hb, (Hall a); [left|done].
  - exfalso. apply Ha, (Hall a); [left|done].
Qed.

Lemma delete_filter_NoDup (l : list string) (i : nat) id :
  NoDup l → l !! i = Some id → delete i l = filter (λ x, x ≠ id) l.
Proof.
  revert i. induction l as [|a l IH]; intros i Hnd Hi; [done|].
  apply NoDup_cons in Hnd as [Ha Hnd]. destruct i as [|i]; simpl in *.
  - injection Hi as ->. rewrite filter_cons_False by (intros H; by apply H).
    symmetry. apply filter_all. intros x Hx ->. done.
  - rewrite filter_cons_True.
    + f_equal. by apply IH.
    + intros ->. apply Ha. by eapply list_elem_of_lookup_2.
Qed.

(** In a reachable state a call removes at most its ticket and appends
    at most its ticket. *)
Lemma exec_queue K s a :
  QueueInv K s →
  queue (exec s a) =
  match a with
  | Enqueue id => queue s ++ [id]
  | Dequeue id => filter (λ x, x ≠ id) (queue s)
  end.
Proof.
  intros HI. destruct a as [id|id]; simpl.
  - by rewrite processQueue_queue.
  - destruct (decide (id ∈ queue s)) as [Hin|Hin].
    + apply list_elem_of_lookup in Hin as [i Hi].
      rewrite (dequeue_present _ _ i) by (done || apply HI). simpl.
      rewrite processQueue_queue. simpl.
      apply delete_filter_NoDup; [apply HI|done].
    + rewrite dequeue_absent by done. simpl.
      symmetry. apply filter_all. intros x Hx ->. done.
Qed.

(** The tickets of an earlier state that are still enqueued are the
    front of the queue, in their old order; the tickets behind them are
    new. *)
Lemma run_queue_front K s0 acts1 acts2 :
  new K = inr s0 → fresh_ids (acts1 ++ acts2) →
  let s1 := run acts1 s0 in
  let s2 := run acts2 s1 in
  ∃ rest, queue s2 = filter (λ x, x ∈ queue s2) (queue s1) ++ rest
          ∧ ∀ x, x ∈ rest → x ∉ queue s1.
Proof.
  intros Hnew. cbv zeta. set (s1 := run acts1 s0).
  induction acts2 as [|a acts2 IH] using rev_ind; intros Hfresh.
  - exists []. simpl. split; [|by intros x ?%elem_of_nil].
    rewrite app_nil_r. symmetry. by apply filter_all.
  - rewrite app_assoc in Hfresh.
    pose proof (fresh_ids_app_l _ _ Hfresh) as Hfresh'.
    destruct (IH Hfresh') as (rest & Hq & Hrest).
    pose proof (run_QueueInv K s0 _ Hnew Hfresh') as HI.
    rewrite run_app in HI. fold s1 in HI.
    rewrite run_snoc in *.
    set (s2 := run acts2 s1) in *.
    rewrite (exec_queue K) in * by done.
    destruct a as [id|id].
    + assert (id ∉ queue s1) as Hid1.
      { intros Hin. unfold fresh_ids in Hfresh. rewrite issued_snoc in Hfresh.
        apply NoDup_app in Hfresh as (_ & Hdisj & _).
        apply (Hdisj id); [|by left].
        unfold issued. rewrite omap_app. apply elem_of_app. left.
        apply run_queue_issued in Hin as [Hin|Hin]; [|done].
        rewrite (new_queue K) in Hin by done. by apply elem_of_nil in Hin. }
      exists (rest ++ [id]). split.
      * rewrite app_assoc. f_equal. rewrite Hq at 1. f_equal.
        apply filter_ext_in. intros x Hx. rewrite elem_of_app, list_elem_of_singleton.
        split; [by left|]. intros [?| ->]; done.
      * intros x [?| ->%list_elem_of_singleton]%elem_of_app; [by apply Hrest|done].
    + exists (filter (λ x, x ≠ id) rest). split.
      * rewrite Hq at 1. rewrite filter_app. f_equal.
        rewrite list_filter_filter. apply list_filter_iff. intros x.
        rewrite list_elem_of_filter. tauto.
      * intros x [_ Hx]%list_elem_of_filter. by apply Hrest.
Qed.

(** X1. [dequeue(id)] in a reachable state returns whether the ticket is
    enqueued.  For a ticket that is not enqueued it changes nothing and
    emits nothing.  An enqueued ticket is removed and only this ticket: the
    others keep their order and [size] drops by one; 'dequeue' is emitted;
    afterwards the ticket is neither enqueued nor active, its position is
    -1, [wait] on it gives [false] at once and a second [dequeue] returns
    [false]. *)
Theorem dequeue_removes_ticket (K : Z) (s0 : t) (acts : list Action) (id : string) :
  new K = inr s0 → fresh_ids acts →
  let s := run acts s0 in
  let s' := (dequeue id s).1 in
  (dequeue id s).2 = inqueue s id
  ∧ (inqueue s id = false → s' = s)
  ∧ (inqueue s id = true →
       getQueue s' = filter (λ x, x ≠ id) (getQueue s)
       ∧ size s' = size s - 1
       ∧ inqueue s' id = false ∧ active s' id = false ∧ getPosition s' id = -1
       ∧ wait s' id = Immediate false
       ∧ (dequeue id s').2 = false
       ∧ ∃ evs, events s' = events s ++ EvDequeue id :: evs).
Proof.
  intros Hnew Hfresh s s'.
  pose proof (run_QueueInv K s0 acts Hnew Hfresh) as HI. fold s in HI.
  pose proof (dequeue_QueueInv K s id HI) as HI'. fold s' in HI'.
  pose proof (exec_queue K s (Dequeue id) HI) as Hq. simpl in Hq. fold s' in Hq.
  unfold inqueue. split_and!.
  - case_bool_decide as Hin.
    + apply list_elem_of_lookup in Hin as [i Hi].
      by rewrite (dequeue_present _ _ i) by (done || apply HI).
    + by rewrite dequeue_absent.
  - intros Hin%bool_decide_eq_false. unfold s'. by rewrite dequeue_absent.
  - intros Hin%bool_decide_eq_true.
    assert (id ∉ queue s') as Hout.
    { rewrite Hq. intros [H _]%list_elem_of_filter. by apply H. }
    split_and!.
    + done.
    + unfold size. apply list_elem_of_lookup in Hin as [i Hi].
      unfold s'. rewrite (dequeue_present _ _ i) by (done || apply HI). simpl.
      rewrite processQueue_queue. simpl.
      rewrite length_delete by done.
      apply lookup_lt_Some in Hi. lia.
    + by apply bool_decide_eq_false.
    + unfold active. by rewrite indexOf_notin.
    + unfold getPosition. by apply indexOf_notin.
    + by apply (Inv_not_queued K).
    + by rewrite dequeue_absent.
    + apply list_elem_of_lookup in Hin as [i Hi].
      unfold s'. rewrite (dequeue_present _ _ i) by (done || apply HI). simpl.
      unfold processQueue. rewrite processOne_fold. simpl.
      eexists. by rewrite <- app_assoc.
Qed.

Lemma dequeue_removes_ticket_witness :
  ∃ s0, new 2 = inr s0 ∧
  let s := run [Enqueue "A"; Enqueue "B"; Enqueue "C"]%string s0 in
  let s' := (dequeue "B"%string s).1 in
  getQueue s' = ["A"; "C"]%string ∧ size s' = 2 ∧
  wait s' "B"%string = Immediate false.
Proof.
  eexists. split; [reflexivity|]. cbv zeta.
  destruct (dequeue_removes_ticket 2 _ [Enqueue "A"; Enqueue "B"; Enqueue "C"]%string
              "B"%string eq_refl) as (_ & _ & H).
  - unfold fresh_ids. by_compute.
  - destruct H as (Hq & Hs & _ & _ & _ & Hw & _); [by_compute|].
    split_and!; [by rewrite Hq|by rewrite Hs|done].
Defined.

(** X2. Tickets never overtake one another.  Between two states of a run
    the tickets of the earlier state that are still enqueued are the front
    of the queue, in their old order, and everything behind them is new.
    The position of such a ticket is the number of the tickets that were
    ahead of it and are still enqueued: it never grows, an active ticket
    stays active until it is dequeued, and two tickets keep their relative
    order. *)
Theorem tickets_never_overtake (K : Z) (s0 : t) (acts1 acts2 : list Action) :
  new K = inr s0 → fresh_ids (acts1 ++ acts2) →
  let s1 := run acts1 s0 in
  let s2 := run acts2 s1 in
  (∃ rest, getQueue s2 = filter (λ x, x ∈ getQueue s2) (getQueue s1) ++ rest
           ∧ ∀ x, x ∈ rest → inqueue s1 x = false)
  ∧ ∀ id, inqueue s1 id = true → inqueue s2 id = true →
      getPosition s2 id
      = Z.of_nat (length (filter (λ x, x ∈ getQueue s2)
                            (take (Z.to_nat (getPosition s1 id)) (getQueue s1))))
      ∧ 0 ≤ getPosition s2 id ≤ getPosition s1 id
      ∧ (active s1 id = true → active s2 id = true)
      ∧ ∀ id', inqueue s1 id' = true → inqueue s2 id' = true →
          getPosition s1 id' < getPosition s1 id →
          getPosition s2 id' < getPosition s2 id.
Proof.
  intros Hnew Hfresh s1 s2.
  destruct (run_queue_front K s0 acts1 acts2 Hnew Hfresh) as (rest & Hq & Hrest).
  fold s1 s2 in Hq. unfold getQueue, getPosition, inqueue.
  assert (∀ id, id ∈ queue s1 → id ∈ queue s2 →
            indexOf (queue s2) id
            = Z.of_nat (length (filter (λ x, x ∈ queue s2)
                                  (take (Z.to_nat (indexOf (queue s1) id)) (queue s1)))))
    as Hpos.
  { intros id H1 H2. rewrite Hq at 1. by apply indexOf_filter. }
  split.
  { exists rest. split; [done|]. intros x Hx. apply bool_decide_eq_false. by apply Hrest. }
  intros id H1%bool_decide_eq_true H2%bool_decide_eq_true.
  pose proof (indexOf_elem _ _ H1) as Hr1.
  assert (0 ≤ indexOf (queue s2) id ≤ indexOf (queue s1) id) as Hle.
  { rewrite (Hpos id H1 H2).
    pose proof (length_filter (λ x, x ∈ queue s2)
                  (take (Z.to_nat (indexOf (queue s1) id)) (queue s1))) as Hl.
    rewrite length_take in Hl. lia. }
  pose proof (run_QueueInv K s0 _ Hnew (fresh_ids_app_l _ _ Hfresh)) as HI1.
  fold s1 in HI1.
  pose proof (run_QueueInv K s0 _ Hnew Hfresh) as HI2.
  rewrite run_app in HI2. fold s1 s2 in HI2.
  split_and!; [by apply Hpos|lia|lia|..].
  - unfold active. rewrite (inv_limit _ _ HI1), (inv_limit _ _ HI2).
    rewrite !andb_true_iff, !Z.ltb_lt. lia.
  - intros id' H1'%bool_decide_eq_true H2'%bool_decide_eq_true Hlt.
    rewrite (Hpos id H1 H2), (Hpos id' H1' H2').
    destruct (indexOf_first _ _ H1') as (i & Hi & Hli & _).
    pose proof (indexOf_elem _ _ H1') as Hr1'.
    apply inj_lt. eapply filter_take_strict; [|exact H2'|lia].
    rewrite Hi, Nat2Z.id. done.
Qed.

Lemma tickets_never_overtake_witness :
  ∃ s0, new 1 = inr s0 ∧
  let s1 := run [Enqueue "A"; Enqueue "B"; Enqueue "C"]%string s0 in
  let s2 := run [Dequeue "A"; Enqueue "D"]%string s1 in
  getPosition s2 "C"%string = 1 ∧ getPosition s2 "B"%string < getPosition s2 "C"%string.
Proof.
  eexists. split; [reflexivity|]. cbv zeta.
  destruct (tickets_never_overtake 1 _ [Enqueue "A"; Enqueue "B"; Enqueue "C"]%string
              [Dequeue "A"; Enqueue "D"]%string eq_refl) as (_ & H).
  - unfold fresh_ids. by_compute.
  - destruct (H "C"%string) as (Hp & _ & _ & Ho); [by_compute..|].
    split; [by rewrite Hp|]. apply Ho; by_compute.
Defined.

(** X3. What a call emits, in a reachable state: [enqueue] and a
    [dequeue] that finds its ticket emit 'active' once for every ticket of
    the window of the new queue, in queue order, whether the ticket was
    active before or not, a [dequeue] after its 'dequeue'; a [dequeue] that
    does not find its ticket emits nothing. *)
Theorem active_is_emitted_again (K : Z) (s0 : t) (acts : list Action) (a : Action) :
  new K = inr s0 → fresh_ids (acts ++ [a]) →
  let s := run acts s0 in
  let s' := exec s a in
  events s' = events s ++
    match a with
    | Enqueue _ => EvActive <$> take (Z.to_nat K) (getQueue s')
    | Dequeue id =>
        if inqueue s id
        then EvDequeue id :: (EvActive <$> take (Z.to_nat K) (getQueue s'))
        else []
    end.
Proof.
  intros Hnew Hfresh s s'.
  pose proof (run_QueueInv K s0 _ Hnew (fresh_ids_app_l _ _ Hfresh)) as HI.
  fold s in HI.
  pose proof (run_QueueInv K s0 _ Hnew Hfresh) as HI'.
  rewrite run_snoc in HI'. fold s s' in HI'.
  pose proof (inv_K _ _ HI) as HK.
  assert (∀ s1, limit s1 = K → (∀ id, id ∈ queue s1 → is_Some (waiting s1 !! id)) →
            events (processQueue s1) =
            events s1 ++ (EvActive <$> take (Z.to_nat K) (queue (processQueue s1))))
    as Hpq.
  { intros s1 Hl Hdom. rewrite processQueue_queue.
    unfold processQueue. rewrite processOne_fold. simpl. f_equal. f_equal.
    rewrite Hl, slice0_take by lia.
    apply filter_all_true. intros id Hid. apply bool_decide_eq_true.
    apply Hdom. eapply subseteq_take, Hid. }
  unfold getQueue, inqueue. destruct a as [id|id]; subst s'; simpl in *.
  - rewrite Hpq; simpl; [done|apply HI|].
    intros x Hx. destruct (decide (x = id)) as [->|Hne].
    + rewrite lookup_insert_eq. eauto.
    + rewrite lookup_insert_ne by done. apply HI.
      apply elem_of_app in Hx as [?|?%list_elem_of_singleton]; done.
  - case_bool_decide as Hin.
    + apply list_elem_of_lookup in Hin as [i Hi].
      rewrite (dequeue_present _ _ i) in * by (done || apply HI). simpl in *.
      rewrite Hpq; simpl; [by rewrite <- app_assoc|apply HI|].
      intros x Hx.
      apply (elem_of_delete_NoDup _ _ id) in Hx as [Hx Hne]; [|apply HI|done].
      rewrite lookup_delete_ne by done. by apply HI.
    + rewrite dequeue_absent by done. simpl. by rewrite app_nil_r.
Qed.

Lemma active_is_emitted_again_witness :
  ∃ s0, new 2 = inr s0 ∧
  let s := run [Enqueue "A"]%string s0 in
  events (exec s (Enqueue "B"%string))
  = events s ++ [EvActive "A"%string; EvActive "B"%string].
Proof.
  eexists. split; [reflexivity|]. cbv zeta.
  rewrite (active_is_emitted_again 2 _ [Enqueue "A"]%string (Enqueue "B"%string) eq_refl).
  - reflexivity.
  - unfold fresh_ids. by_compute.
Defined.

End OrderedQueueTickets.

(** ** QueueTrackerController *)

Section QueueStateProofs.
Import OrderedQueue QueueTracker.

(** The socket [getQueueState] takes a ticket to belong to. *)
Definition owner (m : gmap string string) (id : string) : string :=
  default ""%string (m !! id).

Lemma fullQueue_lookup (s : QueueTracker.t) (i : nat) :
  fullQueue s !! i
  = (λ id, mkItem id (Some (owner (socketIdMap s) id))
             (position_of (limit (base s)) (Z.of_nat i))) <$> queue (base s) !! i.
Proof. unfold fullQueue. by rewrite list_lookup_imap. Qed.


Lemma find_list_find {A} (P : A → bool) (l : list A) :
  List.find P l = snd <$> list_find (λ x, P x = true) l.
Proof.
  induction l as [|a l IH]; simpl; [done|].
  destruct (P a) eqn:E.
  - by rewrite decide_True.
  - rewrite decide_False by done. rewrite IH.
    by destruct (list_find _ l) as [[i x]|].
Qed.

(** [find(...)?.position || 0] over the items: the position of the first
    item that satisfies the test, and 0 when there is none. *)
Lemma find_position_first (P : QueuedItem → bool) (l : list QueuedItem) :
  (∃ (i : nat) item, l !! i = Some item ∧ P item = true ∧
      find_position P l = item_position item ∧
      ∀ (j : nat) item', l !! j = Some item' → (j < i)%nat → P item' = false)
  ∨ (find_position P l = 0 ∧ ∀ item, item ∈ l → P item = false).
Proof.
  unfold find_position. rewrite find_list_find.
  destruct (list_find _ l) as [[i x]|] eqn:E; simpl.
  - apply list_find_Some in E as (Hi & HP & Hmin). left.
    exists i, x. split_and!; try done.
    intros j y Hj Hlt. apply not_true_is_false. by eapply Hmin.
  - apply list_find_None in E. right. split; [done|].
    intros item Hin. apply not_true_is_false.
    rewrite Forall_forall in E. by apply E.
Qed.







(** A socket that has a ticket in the queue is given a position. *)
Lemma own_position_nonzero (c : QueueTracker.t) (socket : string) (i : nat) id :
  queue (base c) !! i = Some id → owner (socketIdMap c) id = socket →
  let st := getQueueState c (Some socket) in
  activePosition st < 0 ∨ 0 < waitingPosition st.
Proof.
  intros Hi Ho. simpl.
  assert (∃ item, fullQueue c !! i = Some item ∧
            same_socket (Some socket) item = true ∧
            item_position item = position_of (limit (base c)) (Z.of_nat i))
    as (item & Hitem & Hs & Hp).
  { rewrite fullQueue_lookup, Hi. simpl. eexists. split_and!; [done| |done].
    unfold same_socket. simpl. apply bool_decide_eq_true. by rewrite Ho. }
  destruct (find_position_first
              (λ item, same_socket (Some socket) item && (item_position item <? 0))
              (fullQueue c))
    as [(j & it & _ & HP & -> & _)|[_ HnoneA]].
  { left. apply andb_true_iff in HP as [_ HP]. by apply Z.ltb_lt. }
  destruct (find_position_first
              (λ item, same_socket (Some socket) item && (0 <? item_position item))
              (fullQueue c))
    as [(j & it & _ & HP & -> & _)|[_ HnoneW]].
  { right. apply andb_true_iff in HP as [_ HP]. by apply Z.ltb_lt. }
  assert (item ∈ fullQueue c) as Hin by (by eapply list_elem_of_lookup_2).
  specialize (HnoneA item Hin). specialize (HnoneW item Hin).
  rewrite Hs in HnoneA, HnoneW. simpl in *.
  apply Z.ltb_ge in HnoneA, HnoneW. rewrite Hp in *.
  unfold position_of in *. destruct (Z.leb_spec (limit (base c)) (Z.of_nat i)); lia.
Qed.

End QueueStateProofs.

Section TrackerControllerProofs.
Import OrderedQueue QueueTracker QueueTrackerController.

Implicit Types (c : QueueTrackerController.t) (io : option (list string)).

(** The invariant of the controller; [ids] are the values [randomUUID]
    has given so far. *)
Record TrackerInv (K : Z) (ids : list string) c : Prop := {
  ti_base : QueueInv K (base (tracker c));
  ti_issued : ∀ id, id ∈ queue (base (tracker c)) → id ∈ ids;
  ti_map : ∀ id socket, socketIdMap (tracker c) !! id = Some socket →
      id ∈ queue (base (tracker c)) ∧ socket ≠ ""%string;
  ti_rev : ∀ socket id, reverseMap c !! socket = Some id →
      socketIdMap (tracker c) !! id = Some socket;
  ti_sent : ∀ socket st, (socket, st) ∈ sent c →
      activePosition st < 0 ∨ 0 < waitingPosition st
}.

Lemma new_TrackerInv K c0 : QueueTrackerController.new K = inr c0 → TrackerInv K [] c0.
Proof.
  unfold QueueTrackerController.new.
  destruct (OrderedQueue.new K) as [e|b] eqn:E; [done|]. intros [= <-].
  pose proof (new_queue K b E) as Hq.
  split; simpl.
  - by apply new_QueueInv.
  - intros id. rewrite Hq. by intros ?%elem_of_nil.
  - intros id socket. by rewrite lookup_empty.
  - intros socket id. by rewrite lookup_empty.
  - intros socket st. by intros ?%elem_of_nil.
Qed.

Lemma TrackerInv_weaken K ids ids' c :
  TrackerInv K ids c → ids ⊆ ids' → TrackerInv K ids' c.
Proof. intros [H1 H2 H3 H4 H5] Hsub. split; try done. intros id Hid. by apply Hsub, H2. Qed.

Lemma truthy_nonempty (socket : string) :
  QueueTrackerController.truthy (Some socket) = true ↔ socket ≠ ""%string.
Proof. destruct socket; simpl; split; done. Qed.

Lemma broadcast_TrackerInv K ids io c :
  TrackerInv K ids c → TrackerInv K ids (broadcastUpdates io c).1.
Proof.
  intros HI. unfold broadcastUpdates. destruct io as [sockets|]; simpl; [|done].
  destruct HI as [H1 H2 H3 H4 H5]. split; simpl; try done.
  intros socket st [Hin|Hin]%elem_of_app; [by eapply H5|].
  apply list_elem_of_omap in Hin as (sock & _ & Hsome).
  case_bool_decide as Hrev; [|done]. injection Hsome as <- <-.
  destruct Hrev as [id Hrev].
  pose proof (H4 _ _ Hrev) as Hm.
  destruct (H3 _ _ Hm) as [[i Hi]%list_elem_of_lookup _].
  apply (own_position_nonzero _ _ i id); [done|].
  unfold owner. by rewrite Hm.
Qed.

Lemma broadcast_fields io c :
  tracker (broadcastUpdates io c).1 = tracker c ∧
  reverseMap (broadcastUpdates io c).1 = reverseMap c ∧
  ((broadcastUpdates io c).2 = Throws ↔ io = None).
Proof. unfold broadcastUpdates. by destruct io. Qed.

(** The state of [enqueue] before its broadcast. *)
Lemma enqueued_TrackerInv K ids c (socketId : option string) id :
  TrackerInv K ids c → id ∉ ids →
  let r := OrderedQueue.enqueue id (base (tracker c)) in
  let socket := default ""%string socketId in
  TrackerInv K (ids ++ [id])
    (QueueTrackerController.mk
       (QueueTracker.mk r.1
          (if QueueTrackerController.truthy socketId
           then <[r.2 := socket]> (socketIdMap (tracker c))
           else socketIdMap (tracker c)))
       (if QueueTrackerController.truthy socketId
        then <[socket := r.2]> (reverseMap c) else reverseMap c)
       (sent c)).
Proof.
  intros [H1 H2 H3 H4 H5] Hid r socket.
  assert (id ∉ queue (base (tracker c))) as Hq by (intros H; by apply Hid, H2).
  assert (queue r.1 = queue (base (tracker c)) ++ [id]) as Hq'.
  { unfold r. simpl. by rewrite processQueue_queue. }
  assert (r.2 = id) as Hr2 by done.
  split; cbn [tracker base socketIdMap reverseMap sent].
  - by apply enqueue_QueueInv.
  - intros x. rewrite Hq'. rewrite !elem_of_app. intros [?|?]; [left; by apply H2|by right].
  - intros x sock Hx. rewrite Hq'. rewrite elem_of_app, list_elem_of_singleton.
    destruct (QueueTrackerController.truthy socketId) eqn:Et.
    + rewrite Hr2 in Hx. destruct (decide (x = id)) as [->|Hne].
      * rewrite lookup_insert_eq in Hx. injection Hx as <-. split; [by right|].
        destruct socketId as [sk|]; [|done]. simpl in *. by apply truthy_nonempty.
      * rewrite lookup_insert_ne in Hx by done.
        destruct (H3 _ _ Hx). split; [by left|done].
    + destruct (H3 _ _ Hx). split; [by left|done].
  - intros sock x Hx.
    destruct (QueueTrackerController.truthy socketId) eqn:Et.
    + rewrite Hr2 in *. destruct (decide (sock = socket)) as [->|Hne].
      * rewrite lookup_insert_eq in Hx. injection Hx as <-.
        by rewrite lookup_insert_eq.
      * rewrite lookup_insert_ne in Hx by done.
        pose proof (H4 _ _ Hx) as Hm.
        rewrite lookup_insert_ne; [done|].
        intros <-. by destruct (H3 _ _ Hm).
    + by apply H4.
  - done.
Qed.

Lemma enqueue_unfold io (socketId : option string) id c :
  let r := OrderedQueue.enqueue id (base (tracker c)) in
  let socket := default ""%string socketId in
  let c1 := QueueTrackerController.mk
       (QueueTracker.mk r.1
          (if QueueTrackerController.truthy socketId
           then <[r.2 := socket]> (socketIdMap (tracker c))
           else socketIdMap (tracker c)))
       (if QueueTrackerController.truthy socketId
        then <[socket := r.2]> (reverseMap c) else reverseMap c)
       (sent c) in
  QueueTrackerController.enqueue io socketId id c =
  if QueueTrackerController.truthy socketId then
    match io with
    | None => (c, Throws)
    | Some sockets =>
        if bool_decide (socket ∈ sockets)
        then ((broadcastUpdates io c1).1, Returns (Some id))
        else (c, Returns None)
    end
  else
    ((broadcastUpdates io c1).1,
     match io with None => Throws | Some _ => Returns (Some id) end).
Proof.
  unfold QueueTrackerController.enqueue.
  destruct socketId as [[|a sk]|]; simpl; destruct io as [sockets|]; simpl; try done.
  by case_bool_decide.
Qed.

Lemma enqueue_TrackerInv K ids io socketId id c :
  TrackerInv K ids c → id ∉ ids →
  TrackerInv K (ids ++ [id]) (QueueTrackerController.enqueue io socketId id c).1.
Proof.
  intros HI Hid.
  assert (TrackerInv K (ids ++ [id]) c) as HIw.
  { eapply TrackerInv_weaken; [done|]. intros x Hx. apply elem_of_app. by left. }
  pose proof (enqueued_TrackerInv K ids c socketId id HI Hid) as HI1.
  cbv zeta in HI1.
  rewrite enqueue_unfold.
  destruct (QueueTrackerController.truthy socketId).
  - destruct io as [sockets|]; [|done].
    case_bool_decide; [|done]. cbn [fst]. by apply broadcast_TrackerInv.
  - cbn [fst]. by apply broadcast_TrackerInv.
Qed.

Lemma dequeue_unfold io id c :
  let b := base (tracker c) in
  let m := socketIdMap (tracker c) in
  let c1 := QueueTrackerController.mk
       (QueueTracker.mk (OrderedQueue.dequeue id b).1 (delete id m))
       (match m !! id with
        | Some socket =>
            if QueueTrackerController.truthy (Some socket)
            then delete socket (reverseMap c) else reverseMap c
        | None => reverseMap c
        end)
       (sent c) in
  QueueTrackerController.dequeue io id c =
  if bool_decide (id ∈ queue b) then
    ((broadcastUpdates io c1).1,
     match io with None => Throws | Some _ => Returns true end)
  else (c, Returns false).
Proof.
  unfold QueueTrackerController.dequeue. simpl.
  case_bool_decide as Hin.
  - unfold OrderedQueue.dequeue at 1.
    destruct (indexOf_first _ _ Hin) as (i & -> & _).
    assert ((-1 <? Z.of_nat i) = true) as -> by (apply Z.ltb_lt; lia). simpl.
    destruct (socketIdMap (tracker c) !! id) as [[|a sk]|]; simpl;
      by destruct io.
  - rewrite dequeue_absent by done. simpl. by destruct c as [[? ?] ? ?].
Qed.

Lemma dequeue_TrackerInv K ids io id c :
  TrackerInv K ids c → TrackerInv K ids (QueueTrackerController.dequeue io id c).1.
Proof.
  intros HI. rewrite dequeue_unfold. cbv zeta.
  case_bool_decide as Hin; [|done]. cbn [fst].
  apply broadcast_TrackerInv.
  destruct HI as [H1 H2 H3 H4 H5].
  pose proof (exec_queue K _ (OrderedQueue.Dequeue id) H1) as Hq. simpl in Hq.
  split; cbn [tracker base socketIdMap reverseMap sent].
  - by apply dequeue_QueueInv.
  - intros x. rewrite Hq. intros [_ Hx]%list_elem_of_filter. by apply H2.
  - intros x sock Hx. apply lookup_delete_Some in Hx as [Hne Hx].
    destruct (H3 _ _ Hx). split; [|done].
    rewrite Hq. by apply list_elem_of_filter.
  - intros sock x Hx.
    assert (reverseMap c !! sock = Some x ∧
            (∀ sk, socketIdMap (tracker c) !! id = Some sk → sock ≠ sk)) as [Hx' Hne].
    { destruct (socketIdMap (tracker c) !! id) as [sk|] eqn:Em.
      - destruct (H3 _ _ Em) as [_ Hsk]. apply truthy_nonempty in Hsk.
        rewrite Hsk in Hx. apply lookup_delete_Some in Hx as [Hne Hx].
        split; [done|]. by intros ? [= <-].
      - split; [done|]. by intros. }
    pose proof (H4 _ _ Hx') as Hm.
    rewrite lookup_delete_ne; [done|].
    intros <-. by apply (Hne sock).
  - done.
Qed.

Lemma tracker_issued_snoc acts a :
  QueueTrackerController.issued (acts ++ [a]) =
  QueueTrackerController.issued acts ++
  match a with QueueTrackerController.Enqueue _ _ id => [id] | _ => [] end.
Proof. unfold QueueTrackerController.issued. rewrite omap_app. by destruct a. Qed.

Lemma run_TrackerInv K c0 acts :
  QueueTrackerController.new K = inr c0 →
  NoDup (QueueTrackerController.issued acts) →
  TrackerInv K (QueueTrackerController.issued acts) (QueueTrackerController.run acts c0).
Proof.
  intros Hnew. induction acts as [|a acts IH] using rev_ind; intros Hnd.
  - by apply new_TrackerInv.
  - rewrite tracker_issued_snoc in *.
    apply NoDup_app in Hnd as (Hnd & Hdisj & _).
    unfold QueueTrackerController.run. rewrite foldl_app. simpl.
    fold (QueueTrackerController.run acts c0).
    destruct a as [io socketId id|io id]; simpl.
    + apply enqueue_TrackerInv; [by apply IH|].
      intros Hin. apply (Hdisj id Hin). by left.
    + rewrite app_nil_r. apply dequeue_TrackerInv. by apply IH.
Qed.

(** X6. The bookkeeping of the controller, in every state reached by calls
    of [enqueue] and [dequeue] (whatever sockets are connected at each
    call): [socketIdMap] has entries only for tickets that are in the queue,
    and never for the empty socket name; an entry of [reverseMap] is the
    converse of an entry of [socketIdMap]; and every "queue-update" that was
    sent went to a socket that had a ticket in the queue, and told it a
    position that is not 0. *)
Theorem tracker_bookkeeping (K : Z) (c0 : QueueTrackerController.t)
    (acts : list QueueTrackerController.Action) :
  QueueTrackerController.new K = inr c0 →
  NoDup (QueueTrackerController.issued acts) →
  let c := QueueTrackerController.run acts c0 in
  (∀ id socket, socketIdMap (tracker c) !! id = Some socket →
     inqueue (base (tracker c)) id = true ∧ socket ≠ ""%string)
  ∧ (∀ socket id, reverseMap c !! socket = Some id →
       socketIdMap (tracker c) !! id = Some socket
       ∧ inqueue (base (tracker c)) id = true)
  ∧ (∀ socket st, (socket, st) ∈ sent c →
       activePosition st < 0 ∨ 0 < waitingPosition st).
Proof.
  intros Hnew Hnd c.
  destruct (run_TrackerInv K c0 acts Hnew Hnd) as [H1 H2 H3 H4 H5]. fold c in H1, H2, H3, H4, H5.
  unfold inqueue. split_and!.
  - intros id socket Hm. destruct (H3 _ _ Hm). split; [by apply bool_decide_eq_true|done].
  - intros socket id Hr. pose proof (H4 _ _ Hr) as Hm. split; [done|].
    destruct (H3 _ _ Hm). by apply bool_decide_eq_true.
  - done.
Qed.

Lemma tracker_bookkeeping_witness :
  ∃ c0, QueueTrackerController.new 1 = inr c0 ∧
  let c := QueueTrackerController.run
             [QueueTrackerController.Enqueue (Some ["s1"; "s2"]) (Some "s1") "A";
              QueueTrackerController.Enqueue (Some ["s1"; "s2"]) (Some "s2") "B";
              QueueTrackerController.Dequeue (Some ["s2"]) "A"]%string c0 in
  length (sent c) = 4%nat ∧
  ∀ socket st, (socket, st) ∈ sent c → activePosition st < 0 ∨ 0 < waitingPosition st.
Proof.
  eexists. split; [reflexivity|]. cbv zeta.
  split; [by vm_compute|].
  eapply (tracker_bookkeeping 1); [reflexivity|].
  by_compute.
Defined.

(** X7. What [enqueue(socketId)] answers in a reachable state.  With a
    socket name that no connected socket has, it returns [null] and changes
    nothing.  Otherwise the ticket is appended to the queue, recorded for
    the socket if one was named, and returned; it is active at once
    exactly when fewer than [K] tickets were enqueued.  While [io] is not
    set the call throws: before anything is changed when a socket is named,
    but after the ticket has been enqueued when none is, so that this
    ticket stays in the queue without anybody knowing it. *)
Theorem tracker_enqueue_outcome (K : Z) (c0 : QueueTrackerController.t)
    (acts : list QueueTrackerController.Action) io (socketId : option string)
    (id : string) :
  QueueTrackerController.new K = inr c0 →
  NoDup (QueueTrackerController.issued (acts ++ [QueueTrackerController.Enqueue io socketId id])) →
  let c := QueueTrackerController.run acts c0 in
  let c' := (QueueTrackerController.enqueue io socketId id c).1 in
  let res := (QueueTrackerController.enqueue io socketId id c).2 in
  let named := QueueTrackerController.truthy socketId in
  let connected := match io with
                   | Some sockets => bool_decide (default ""%string socketId ∈ sockets)
                   | None => false
                   end in
  (named = true → connected = false →
     c' = c ∧ res = match io with Some _ => Returns None | None => Throws end)
  ∧ (named = false ∨ connected = true →
       res = match io with Some _ => Returns (Some id) | None => Throws end
       ∧ getQueue (base (tracker c')) = getQueue (base (tracker c)) ++ [id]
       ∧ active (base (tracker c')) id = bool_decide (size (base (tracker c)) < K)
       ∧ socketIdMap (tracker c') !! id = (if named then socketId else None)
       ∧ (named = true → reverseMap c' !! default ""%string socketId = Some id)).
Proof.
  intros Hnew Hnd c c' res named connected.
  rewrite tracker_issued_snoc in Hnd.
  pose proof Hnd as Hnd'. apply NoDup_app in Hnd' as (Hnd0 & Hdisj & _).
  pose proof (run_TrackerInv K c0 acts Hnew Hnd0) as HI. fold c in HI.
  assert (id ∉ QueueTrackerController.issued acts) as Hid.
  { intros Hin. apply (Hdisj id Hin). by left. }
  pose proof (enqueue_unfold io socketId id c) as Hun. cbv zeta in Hun.
  set (r := OrderedQueue.enqueue id (base (tracker c))) in *.
  set (c1 := QueueTrackerController.mk _ _ _) in Hun.
  pose proof (ti_base _ _ _ HI) as HIb.
  assert (id ∉ queue (base (tracker c))) as Hnq.
  { intros Hin. by apply Hid, (ti_issued _ _ _ HI). }
  pose proof (enqueue_QueueInv K _ id HIb Hnq) as HIb'. fold r in HIb'.
  assert (queue r.1 = queue (base (tracker c)) ++ [id]) as Hq.
  { unfold r. simpl. by rewrite processQueue_queue. }
  assert (getQueue (base (tracker c1)) = getQueue (base (tracker c)) ++ [id]) as F1
    by done.
  assert (active (base (tracker c1)) id = bool_decide (size (base (tracker c)) < K))
    as F2.
  { destruct (Inv_active_index K r.1 id HIb') as (i & p & Hi & _ & Ha & _).
    { rewrite Hq. apply elem_of_app. right. by left. }
    assert (i = length (queue (base (tracker c)))) as ->.
    { eapply (NoDup_lookup (queue r.1)); [apply HIb'|done|].
      rewrite Hq. by rewrite list_lookup_middle. }
    done. }
  assert (socketIdMap (tracker c1) !! id = (if named then socketId else None)) as F3.
  { unfold c1, named. cbn [tracker socketIdMap]. change r.2 with id.
    destruct (QueueTrackerController.truthy socketId) eqn:En.
    - rewrite lookup_insert_eq. destruct socketId; [done|discriminate En].
    - destruct (socketIdMap (tracker c) !! id) as [sk|] eqn:Em; [|done].
      exfalso. apply Hnq. by apply (ti_map _ _ _ HI id sk). }
  assert (named = true → reverseMap c1 !! default ""%string socketId = Some id) as F4.
  { unfold c1, named. cbn [reverseMap]. change r.2 with id. intros ->.
    by rewrite lookup_insert_eq. }
  clearbody c1.
  unfold c', res. rewrite Hun. fold named. clear Hun.
  destruct (broadcast_fields io c1) as (Hb1 & Hb2 & _).
  split.
  - intros Hn Hc. rewrite Hn. destruct io as [sockets|]; [|done].
    unfold connected in Hc. by rewrite Hc.
  - intros Hcase.
    assert ((if named
             then match io with
                  | Some sockets =>
                      if bool_decide (default ""%string socketId ∈ sockets)
                      then ((broadcastUpdates io c1).1, Returns (Some id))
                      else (c, Returns None)
                  | None => (c, Throws)
                  end
             else ((broadcastUpdates io c1).1,
                   match io with None => Throws | Some _ => Returns (Some id) end))
            = ((broadcastUpdates io c1).1,
               match io with Some _ => Returns (Some id) | None => Throws end)) as ->.
    { destruct named eqn:En.
      - destruct Hcase as [?|Hc]; [done|]. unfold connected in Hc.
        destruct io as [sockets|]; [|done]. by rewrite Hc.
      - by destruct io. }
    cbn [fst snd]. rewrite Hb1, Hb2. done.
Qed.

Lemma tracker_enqueue_outcome_witness :
  ∃ c0, QueueTrackerController.new 1 = inr c0 ∧
  let c := QueueTrackerController.run
             [QueueTrackerController.Enqueue (Some ["s1"]) (Some "s1") "A"]%string c0 in
  (QueueTrackerController.enqueue None None "B" c).2 = Throws (A := option string) ∧
  getQueue (base (tracker (QueueTrackerController.enqueue None None "B" c).1))
  = ["A"; "B"]%string.
Proof.
  eexists. split; [reflexivity|]. cbv zeta.
  destruct (tracker_enqueue_outcome 1 _
              [QueueTrackerController.Enqueue (Some ["s1"]) (Some "s1") "A"]%string
              None None "B"%string eq_refl) as (_ & H).
  - by_compute.
  - destruct H as (Hr & Hq & _); [by left|].
    split; [exact Hr|]. rewrite Hq. reflexivity.
Defined.

End TrackerControllerProofs.

(** ** StreamPiper: progress, header and pausing *)

Section StreamPiperProgress.
Import StreamPiper.
Context `{HL : HashLib}.

(** The chunks the source has produced in a run, as it cut them. *)
Definition chunks_of (ls : list Label) : list (list byte) :=
  omap (fun l => match l with SrcData c => Some c | _ => None end) ls.

(** The 'progress' events for these chunks: the [k]-th one carries the
    number of the bytes of the chunks up to the [k]-th. *)
Definition progress_of (size : Z) (cs : list (list byte)) : list Event :=
  imap (fun k _ => EvProgress (Z.of_nat (length (concat (take (S k) cs)))) size) cs.

Lemma chunks_of_snoc ls l :
  chunks_of (ls ++ [l]) = chunks_of ls ++ match l with SrcData c => [c] | _ => [] end.
Proof. unfold chunks_of. rewrite omap_app. by destruct l. Qed.

Lemma progress_of_snoc size cs c :
  progress_of size (cs ++ [c])
  = progress_of size cs ++ [EvProgress (Z.of_nat (length (concat (cs ++ [c])))) size].
Proof.
  unfold progress_of. rewrite imap_app. simpl. f_equal.
  - apply imap_ext. intros k x Hk. simpl.
    apply lookup_lt_Some in Hk. by rewrite take_app_le by lia.
  - rewrite Nat.add_0_r. by rewrite take_ge by (rewrite length_app; simpl; lia).
Qed.

Record PiperLog (size : Z) (ls : list Label) (s : t) : Prop := {
  log_size : fileSize s = Z.max 0 size;
  log_init : isInitialized s = false → chunks_of ls = [];
  log_bytes : bytesProcessed s = Z.of_nat (length (concat (chunks_of ls)));
  log_chunks : chunks (outputStream s) = chunks_of ls;
  log_events : events s = progress_of (fileSize s) (chunks_of ls)
}.

Lemma new_PiperLog size : PiperLog size [] (new size).
Proof.
  split; simpl; try done. destruct (Z.ltb_spec 0 size); lia.
Qed.

Lemma initialize_log (s : t) :
  let s' := _initialize s in
  fileSize s' = fileSize s ∧
  chunks (outputStream s') = chunks (outputStream s) ∧
  events s' = events s ∧ isInitialized s' = true ∧
  bytesProcessed s' = (if isInitialized s then bytesProcessed s else 0).
Proof. unfold _initialize. by destruct (isInitialized s) eqn:E. Qed.

(** A step that is no 'data' event and keeps the log, the byte count
    being reset where [_initialize] runs for the first time. *)
Lemma PiperLog_ext size ls s s' l :
  PiperLog size ls s →
  fileSize s' = fileSize s →
  chunks (outputStream s') = chunks (outputStream s) →
  events s' = events s →
  (isInitialized s' = false → isInitialized s = false) →
  bytesProcessed s' = (if isInitialized s then bytesProcessed s else 0)
    ∨ bytesProcessed s' = bytesProcessed s →
  chunks_of [l] = [] →
  PiperLog size (ls ++ [l]) s'.
Proof.
  intros [H1 H2 H3 H4 H5] E1 E2 E3 E4 E5 Hl.
  assert (chunks_of (ls ++ [l]) = chunks_of ls) as Hc.
  { rewrite chunks_of_snoc. unfold chunks_of in Hl. destruct l; simpl in *;
      rewrite ?app_nil_r; done. }
  split; rewrite ?Hc, ?E1, ?E2, ?E3; try done.
  - intros Hi. by apply H2, E4.
  - destruct E5 as [-> | ->]; [|done].
    destruct (isInitialized s) eqn:Ei; [done|]. by rewrite H2.
Qed.

Lemma on_data_log c (s : t) :
  let s' := on_data c s in
  fileSize s' = fileSize s ∧ isInitialized s' = isInitialized s ∧
  bytesProcessed s' = bytesProcessed s + Z.of_nat (length c) ∧
  chunks (outputStream s') = chunks (outputStream s) ++ [c] ∧
  events s' = events s ++ [EvProgress (bytesProcessed s + Z.of_nat (length c)) (fileSize s)].
Proof.
  unfold on_data. by destruct (if isHeaderFinalized s then _ else _) as [[? ?] ?].
Qed.

Lemma step_PiperLog size ls s l s' :
  PiperLog size ls s → step s l = Some s' → PiperLog size (ls ++ [l]) s'.
Proof.
  intros HI Hstep. destruct l; simpl in Hstep.
  - injection Hstep as <-. unfold getHeader.
    destruct (isHeaderFinalized s) eqn:E.
    + eapply PiperLog_ext; eauto.
    + destruct (initialize_log s) as (?&?&?&?&?).
      eapply PiperLog_ext; eauto; simpl; try congruence; by left.
  - destruct (headerWaiters s), (headerPromise s); try done.
    injection Hstep as <-. eapply PiperLog_ext; eauto.
  - injection Hstep as <-. unfold getStream.
    destruct (initialize_log s) as (?&?&?&?&?).
    eapply PiperLog_ext; eauto; simpl; try congruence; by left.
  - injection Hstep as <-. unfold getHash. destruct (truthy (dataHash s)).
    + eapply PiperLog_ext; eauto.
    + destruct (initialize_log s) as (?&?&?&?&?).
      eapply PiperLog_ext; eauto; simpl; try congruence; by left.
  - destruct (flowing s) eqn:E; [|done]. injection Hstep as <-.
    destruct HI as [H1 H2 H3 H4 H5].
    destruct (on_data_log chunk s) as (E1 & E2 & E3 & E4 & E5).
    assert (isInitialized s = true) as Hi.
    { unfold flowing in E. by destruct (isInitialized s). }
    split; rewrite ?chunks_of_snoc, ?E1, ?E2, ?E3, ?E4, ?E5; try done.
    + by rewrite Hi.
    + rewrite H3, concat_app, !length_app. simpl. rewrite app_nil_r. lia.
    + by rewrite H4.
    + rewrite progress_of_snoc, H5, H3. do 3 f_equal.
      rewrite !concat_app, !length_app. simpl. rewrite app_nil_r. lia.
  - destruct (flowing s) eqn:E; [|done]. injection Hstep as <-.
    eapply PiperLog_ext; eauto.
  - destruct (status s) eqn:E; try done. destruct (isInitialized s); [|done].
    injection Hstep as <-. eapply PiperLog_ext; eauto.
Qed.

Lemma exec_PiperLog size ls s : exec ls (new size) = Some s → PiperLog size ls s.
Proof.
  revert s. induction ls as [|l ls IH] using rev_ind; intros s Hex.
  - injection Hex as <-. apply new_PiperLog.
  - rewrite piper_exec_snoc in Hex.
    destruct (exec ls (new size)) as [s1|] eqn:E; [|done]. simpl in Hex.
    eapply step_PiperLog; eauto.
Qed.

(** X9. The 'progress' events of a piper.  In every run the output stream
    has been given the chunks of the source one by one, as the source cut
    them, and one 'progress' event has been emitted for each chunk, in
    order: the event of the [k]-th chunk is computed from the number of
    bytes of the chunks up to it (so the numbers never decrease and end at
    the number of the bytes delivered) and from the file size given to the
    constructor, taken as 0 when it is negative. *)
Theorem progress_events_cumulative (size : Z) (ls : list Label) (s : t) :
  exec ls (new size) = Some s →
  let cs := chunks_of ls in
  chunks (outputStream s) = cs
  ∧ delivered ls = concat cs
  ∧ bytesProcessed s = Z.of_nat (length (delivered ls))
  ∧ events s =
      imap (fun k _ =>
              EvProgress (Z.of_nat (length (concat (take (S k) cs)))) (Z.max 0 size)) cs
  ∧ (∀ (j k : nat) b b' f f', (j ≤ k)%nat →
       events s !! j = Some (EvProgress b f) →
       events s !! k = Some (EvProgress b' f') →
       0 ≤ b ≤ b' ∧ b' ≤ Z.of_nat (length (delivered ls))).
Proof.
  intros Hex cs.
  destruct (exec_PiperLog size ls s Hex) as [H1 H2 H3 H4 H5]. fold cs in H3, H4, H5.
  assert (events s =
      imap (fun k _ =>
              EvProgress (Z.of_nat (length (concat (take (S k) cs)))) (Z.max 0 size)) cs)
    as Hev by (by rewrite H5, H1).
  split_and!; try done.
  intros j k b b' f f' Hjk Hj Hk. rewrite Hev in Hj, Hk.
  rewrite list_lookup_imap in Hj, Hk.
  destruct (cs !! j) as [cj|] eqn:Ej; [|done].
  destruct (cs !! k) as [ck|] eqn:Ek; [|done].
  simpl in Hj, Hk. injection Hj as <- <-. injection Hk as <- <-.
  assert (∀ (a c : nat), (a ≤ c)%nat →
            (length (concat (take a cs)) ≤ length (concat (take c cs)))%nat) as Hmono.
  { intros a c Hac. replace c with (a + (c - a))%nat by lia.
    rewrite <- take_take_drop, concat_app, length_app. lia. }
  pose proof (Hmono (S j) (S k) ltac:(lia)) as Hle.
  pose proof (Hmono (S k) (length cs) ltac:(apply lookup_lt_Some in Ek; lia)) as Hle'.
  rewrite firstn_all in Hle'. unfold delivered. fold (chunks_of ls). fold cs. lia.
Qed.

End StreamPiperProgress.

Section StreamPiperHeader.
Import StreamPiper.
Context `{HL : HashLib} {HS : HashStreaming HL}.

(** X8. The header of a piper is ready as early as it can be and never
    changes.  At every point of a run the bytes delivered so far have all
    been written to the output stream and [header] holds the first
    [HEADER_SIZE] of them.  The promise of [getHeader] is resolved exactly
    when [HEADER_SIZE] bytes have been delivered or the source has ended,
    with these bytes; and once it is resolved, [header] and the promise
    keep this value in every later state, whatever the source delivers
    afterwards, so a wait of [getHeader] does not last until the end of a
    long stream. *)
Theorem header_ready_early (size : Z) (ls ls' : list Label) (s s' : t) :
  exec ls (new size) = Some s →
  exec ls' s = Some s' →
  let data := delivered ls in
  header s = take (Z.to_nat HEADER_SIZE) data
  ∧ drain (outputStream s) = data
  ∧ headerPromise s =
      (if (HEADER_SIZE <=? Z.of_nat (length data)) || is_ended (status s)
       then Some (take (Z.to_nat HEADER_SIZE) data) else None)
  ∧ (∀ h, headerPromise s = Some h →
       headerPromise s' = Some h ∧ header s' = h ∧
       getHeader_value s s' = Some h ∧ getHeader_value s' s' = Some h ∧
       h = take (Z.to_nat HEADER_SIZE) (delivered (ls ++ ls'))).
Proof.
  intros Hex Hex' data.
  pose proof (exec_PiperInv _ _ _ Hex) as HI.
  assert (exec (ls ++ ls') (new size) = Some s') as Hex2.
  { rewrite piper_exec_app, Hex. done. }
  pose proof (exec_PiperInv _ _ _ Hex2) as HI'.
  pose proof (inv_header _ _ HI) as Hh. fold data in Hh.
  assert (isHeaderFinalized s
          = (HEADER_SIZE <=? Z.of_nat (length data)) || is_ended (status s)) as Hfin.
  { rewrite (inv_final _ _ HI), Hh, length_take. f_equal.
    unfold HEADER_SIZE.
    destruct (Z.leb_spec 1024 (Z.of_nat (length data))),
             (Z.leb_spec 1024 (Z.of_nat (Z.to_nat 1024 `min` length data))); lia. }
  assert (headerPromise s =
      (if (HEADER_SIZE <=? Z.of_nat (length data)) || is_ended (status s)
       then Some (take (Z.to_nat HEADER_SIZE) data) else None)) as Hp.
  { rewrite (inv_hpromise _ _ HI), Hfin, Hh. done. }
  split_and!; [done|apply HI|done|].
  intros h Hsome. rewrite Hp in Hsome.
  destruct ((HEADER_SIZE <=? Z.of_nat (length data)) || is_ended (status s)) eqn:Hcase;
    [|done].
  injection Hsome as <-.
  assert (delivered (ls ++ ls') = data ++ delivered ls') as Hd by apply delivered_app.
  assert (take (Z.to_nat HEADER_SIZE) (delivered (ls ++ ls'))
          = take (Z.to_nat HEADER_SIZE) data ∧ isHeaderFinalized s' = true) as [Ht Hf'].
  { apply orb_true_iff in Hcase as [Hlen|Hend].
    - apply Z.leb_le in Hlen. split.
      + rewrite Hd. rewrite take_app_le; [done|]. lia.
      + rewrite (inv_final _ _ HI'), (inv_header _ _ HI'), Hd, length_take, length_app.
        apply orb_true_iff. left. apply Z.leb_le. unfold HEADER_SIZE in *. lia.
    - assert (status s ≠ Open) as Hno by (by destruct (status s)).
      destruct (piper_exec_closed _ _ _ Hno Hex') as (_&_&_&_&E5&_&_&E8).
      split.
      + by rewrite Hd, E8, app_nil_r.
      + by rewrite E5, Hfin. }
  assert (header s' = take (Z.to_nat HEADER_SIZE) data) as Hh'.
  { by rewrite (inv_header _ _ HI'), Ht. }
  assert (headerPromise s' = Some (take (Z.to_nat HEADER_SIZE) data)) as Hp'.
  { by rewrite (inv_hpromise _ _ HI'), Hf', Hh'. }
  unfold getHeader_value. rewrite Hf', Hfin, Hh, Hh'. done.
Qed.

End StreamPiperHeader.

Section StreamPiperPause.
Import StreamPiper.
Context `{HL : HashLib}.











End StreamPiperPause.

Section StreamPiperMoreRuns.
Import StreamPiper.
#[local] Existing Instance list_hash.

Lemma progress_events_cumulative_witness :
  let ls := [GetStream; SrcData [x01; x02]%byte; SrcData [x03]%byte] in
  ∃ s, exec (H := list_hash) ls (new 4) = Some s ∧
       events s = [EvProgress 2 4; EvProgress 3 4] ∧
       chunks (outputStream s) = [[x01; x02]; [x03]]%byte.
Proof.
  intros ls.
  pose (s := default (new 0) (exec (H := list_hash) ls (new 4))).
  exists s.
  destruct (progress_events_cumulative 4 ls s eq_refl) as (Hc & _ & _ & He & _).
  split_and!; [reflexivity|by rewrite He|by rewrite Hc].
Defined.

Lemma header_ready_early_witness :
  let ls := [GetHeader; SrcData (replicate 1024 x01%byte); SrcData [x02]%byte] in
  ∃ s s', exec (H := list_hash) ls (new 0) = Some s ∧
          exec [SrcData [x03]%byte; SrcEnd] s = Some s' ∧
          headerPromise s = Some (replicate 1024 x01%byte) ∧
          headerPromise s' = Some (replicate 1024 x01%byte).
Proof.
  intros ls.
  pose (s := default (new 0) (exec (H := list_hash) ls (new 0))).
  pose (s' := default (new 0) (exec (H := list_hash) [SrcData [x03]%byte; SrcEnd] s)).
  exists s, s'.
  assert (exec (H := list_hash) ls (new 0) = Some s) as Hex by (vm_compute; reflexivity).
  assert (exec (H := list_hash) [SrcData [x03]%byte; SrcEnd] s = Some s') as Hex'
    by (vm_compute; reflexivity).
  destruct (header_ready_early (HS := list_hash_streaming) 0 ls _ s s' Hex Hex')
    as (_ & _ & Hp & Hlater).
  assert (headerPromise s = Some (replicate 1024 x01%byte)) as Hh
    by (vm_compute; reflexivity).
  split_and!; [exact Hex|exact Hex'|exact Hh|].
  by destruct (Hlater _ Hh) as (-> & _).
Defined.


End StreamPiperMoreRuns.

(** ** SerialQueue: draining, exceptions and back-pressure *)

Section SerialQueueMore.
Import SerialQueue.
Context {Args : Type}.
Implicit Types (s : t Args) (l : Label Args) (ls : list (Label Args)).

(** X11. [waitForQueue(true)] on a serial queue.  In a run without a call
    of [clear], when the loop of [waitForQueue(true)] ends (its condition
    is false) on an open queue, the queue has drained: the handler has been
    called on every item that was appended, in the order of appending, the
    last call has returned, and [work] has ended.  On a closed queue the
    loop ends at once: the backlog is empty, and the handler was called on
    a prefix of the appended items only. *)
Theorem serial_wait_for_empty (lim : Z) ls s :
  exec ls (new lim) = Some s →
  Clear ∉ ls →
  queue_busy s = false →
  size s = 0
  ∧ (open s = true →
       called (trace s) = appended (trace s) ∧ running s = [] ∧ working s = false)
  ∧ (open s = false →
       called (trace s) `prefix_of` appended (trace s) ∧ working s = false).
Proof.
  intros Hex Hc Hbusy.
  unfold queue_busy in Hbusy. unfold size.
  destruct (open s) eqn:Eo; simpl in Hbusy.
  - pose proof (exec_SerialInvF _ _ _ (new_SerialInv lim) (new_SerialInvF lim) Hc Hex)
      as [F1 _].
    apply Z.ltb_ge in Hbusy.
    assert (items s = []) as Hi by (destruct (items s); [done|simpl in Hbusy; lia]).
    split_and!; [by rewrite Hi| |done].
    intros _. destruct (F1 Eo) as (d & Ha & [(Hcd & Hr & Hw)|(x & rest & Hx & _)]).
    + rewrite Hi, app_nil_r in Ha. by rewrite Ha, Hcd.
    + by rewrite Hi in Hx.
  - pose proof (exec_SerialInv _ _ _ (new_SerialInv lim) Hex) as HI.
    pose proof (exec_SerialInvF _ _ _ (new_SerialInv lim) (new_SerialInvF lim) Hc Hex)
      as [_ F2].
    destruct (inv_closed _ HI Eo) as (Hi & Hw & _).
    split_and!; [by rewrite Hi|done|]. intros _. split; [by apply F2|done].
Qed.

(** After an exception of the handler: no call of [work] is suspended,
    and [work] still counts as running, or the queue is closed. *)
Definition wedged s : Prop :=
  running s = [] ∧ (working s = true ∨ open s = false).

Lemma step_wedged s l s' :
  wedged s → step s l = Some s' →
  wedged s' ∧ called (trace s') = called (trace s) ∧
  (l ≠ Clear → l ≠ Close → open s = true →
     open s' = true ∧ ∃ more, items s' = items s ++ more).
Proof.
  intros [Hr Hw] Hstep.
  assert (∃ more, items s = items s ++ more) as Hsame
    by (exists []; by rewrite app_nil_r).
  destruct l as [a|i|i|k b1|k| |]; simpl in Hstep.
  - by injection Hstep as <-.
  - destruct (pushers s !! i) as [[a|a]|]; try done.
    destruct (queue_full s); by injection Hstep as <-.
  - destruct (pushers s !! i) as [[a|a]|] eqn:Ep; try done.
    injection Hstep as <-. unfold push_resume.
    destruct (open s) eqn:Eo; simpl.
    + destruct Hw as [Hw|?]; [|done]. rewrite Hw. simpl.
      rewrite called_snoc, app_nil_r. split; [split; [done|by left]|].
      split; [done|]. intros _ _ _. split; [done|]. by exists [a].
    + rewrite called_snoc, app_nil_r. split; [split; [done|by right]|].
      split; [done|]. done.
  - by rewrite Hr in Hstep.
  - by rewrite Hr in Hstep.
  - injection Hstep as <-. split; [done|]. split; [done|]. done.
  - injection Hstep as <-. split; [split; [done|by right]|]. split; [done|]. done.
Qed.

Lemma exec_wedged ls s s' :
  wedged s → exec ls s = Some s' →
  wedged s' ∧ called (trace s') = called (trace s) ∧
  (Clear ∉ ls → Close ∉ ls → open s = true →
     open s' = true ∧ ∃ more, items s' = items s ++ more).
Proof.
  revert s. induction ls as [|l ls IH]; intros s Hw Hex; simpl in Hex.
  - injection Hex as <-. split_and!; [done..|].
    intros _ _ Ho. split; [done|]. exists []. by rewrite app_nil_r.
  - destruct (step s l) as [s1|] eqn:E; [|done].
    destruct (step_wedged _ _ _ Hw E) as (Hw1 & Hc1 & Hg1).
    destruct (IH s1 Hw1 Hex) as (Hw2 & Hc2 & Hg2).
    split_and!; [done|congruence|].
    intros [Hn1 Hn1']%not_elem_of_cons [Hn2 Hn2']%not_elem_of_cons Ho.
    destruct (Hg1 ltac:(done) ltac:(done) Ho) as (Ho1 & m1 & Hi1).
    destruct (Hg2 Hn1' Hn2' Ho1) as (Ho2 & m2 & Hi2).
    split; [done|]. exists (m1 ++ m2). by rewrite Hi2, Hi1, app_assoc.
Qed.

(** X12. An exception of the handler wedges a serial queue.  When the
    handler throws (or its promise is rejected), [work] ends with this
    exception before it has cleared [working]; from then on the handler is
    never called again, whatever is pushed.  As long as the queue is neither
    cleared nor closed it stays open, [work] still counts as running, and
    the backlog only grows. *)
Theorem serial_handler_exception_wedges (lim : Z) ls ls' s s1 s2 (k : nat) :
  exec ls (new lim) = Some s →
  step s (Throw k) = Some s1 →
  exec ls' s1 = Some s2 →
  called (trace s2) = called (trace s)
  ∧ running s2 = []
  ∧ (Clear ∉ ls' → Close ∉ ls' → open s = true →
       open s2 = true ∧ working s2 = true ∧
       ∃ more, items s2 = items s ++ more).
Proof.
  intros Hex Hstep Hex'.
  pose proof (exec_SerialInv _ _ _ (new_SerialInv lim) Hex) as HI.
  simpl in Hstep. destruct (running s !! k) as [x|] eqn:Ek; [|done].
  injection Hstep as <-.
  assert (running s = [x]) as Hrun.
  { pose proof (inv_one _ HI) as Hone.
    destruct (running s) as [|y [|z r]]; simpl in *; [done| |lia].
    destruct k; simpl in Ek; [by injection Ek as ->|done]. }
  assert (k = 0%nat) as ->.
  { apply lookup_lt_Some in Ek. rewrite Hrun in Ek. simpl in Ek. lia. }
  assert (wedged (mk (items s) (limit s) (working s) (open s) (pushers s)
                     (delete 0%nat (running s)) (trace s))) as Hw.
  { split; simpl; [by rewrite Hrun|]. apply (inv_busy _ HI). by rewrite Hrun. }
  destruct (exec_wedged _ _ _ Hw Hex') as ([Hr2 Hw2] & Hc2 & Hg2).
  simpl in *. split_and!; [done..|].
  intros Hn1 Hn2 Ho. destruct (Hg2 Hn1 Hn2 Ho) as (Ho2 & more & Hi2).
  split_and!; [done| |by exists more].
  destruct Hw2 as [?|?]; [done|congruence].
Qed.

(** A run of a single producer: [push] is called only when no earlier
    call of [push] is still suspended, as in a loop of [await queue.push(x)]. *)
Fixpoint pushes_awaited ls s : bool :=
  match ls with
  | [] => true
  | l :: ls' =>
      match l, pushers s with
      | Push _, _ :: _ => false
      | _, _ =>
          match step s l with
          | Some s' => pushes_awaited ls' s'
          | None => true
          end
      end
  end.

(** The backlog is within the limit, and a call of [push] that has left
    [waitForQueue] has room for its item. *)
Definition within_limit s : Prop :=
  1 ≤ limit s ∧ Z.of_nat (length (items s)) ≤ limit s
  ∧ (open s = false → items s = [])
  ∧ match pushers s with
    | [] | [Polling _] => True
    | [Ready _] => open s = true → Z.of_nat (length (items s)) < limit s
    | _ => False
    end.

Lemma work_loop_fields s :
  items (work_loop s) = items s ∧ limit (work_loop s) = limit s ∧
  open (work_loop s) = open s ∧ pushers (work_loop s) = pushers s.
Proof. unfold work_loop. by destruct (working s), (items s). Qed.

Lemma within_limit_ext s s' :
  limit s' = limit s → open s' = open s → pushers s' = pushers s →
  (length (items s') ≤ length (items s))%nat →
  within_limit s → within_limit s'.
Proof.
  unfold within_limit. intros -> -> -> Hle (H1 & H2 & H3 & H4).
  split_and!; [done|lia| |].
  - intros Ho. specialize (H3 Ho). rewrite H3 in Hle.
    destruct (items s'); [done|simpl in Hle; lia].
  - destruct (pushers s) as [|[a|a] [|]]; try done. intros Ho. specialize (H4 Ho). lia.
Qed.

Lemma within_limit_work_loop s : within_limit s → within_limit (work_loop s).
Proof.
  destruct (work_loop_fields s) as (E1 & E2 & E3 & E4).
  unfold within_limit. by rewrite E1, E2, E3, E4.
Qed.

Lemma within_limit_single s (i : nat) p :
  within_limit s → pushers s !! i = Some p → pushers s = [p] ∧ i = 0%nat.
Proof.
  intros (_ & _ & _ & H4) Hp.
  destruct (pushers s) as [|q [|q' r]]; simpl in *; [done| |by destruct q].
  destruct i; simpl in *; [by injection Hp as ->|done].
Qed.

Lemma step_within_limit s l s' :
  within_limit s →
  (∀ a, l = Push a → pushers s = []) →
  step s l = Some s' → within_limit s'.
Proof.
  intros HB Hpush Hstep.
  destruct l as [a|i|i|k b1|k| |]; simpl in Hstep.
  - injection Hstep as <-. destruct HB as (H1 & H2 & H3 & H4).
    unfold within_limit, push_call. simpl. rewrite (Hpush a eq_refl). simpl.
    split_and!; [done..|].
    unfold queue_full. destruct (open s); simpl; [|done].
    destruct (Z.leb_spec (limit s) (Z.of_nat (length (items s)))); [done|]. by intros _.
  - destruct (pushers s !! i) as [[a|a]|] eqn:Ep; try done.
    destruct (queue_full s) eqn:Ef; injection Hstep as <-; [done|].
    destruct (within_limit_single _ _ _ HB Ep) as [Hps ->].
    destruct HB as (H1 & H2 & H3 & H4).
    unfold within_limit. simpl. rewrite Hps. simpl. split_and!; [done..|].
    intros Ho.
    unfold queue_full in Ef. rewrite Ho in Ef. simpl in Ef. by apply Z.leb_gt in Ef.
  - destruct (pushers s !! i) as [[a|a]|] eqn:Ep; try done.
    injection Hstep as <-.
    destruct (within_limit_single _ _ _ HB Ep) as [Hps ->].
    destruct HB as (H1 & H2 & H3 & H4).
    rewrite Hps in H4.
    unfold push_resume. destruct (open s) eqn:Eo; simpl.
    + specialize (H4 eq_refl).
      assert (within_limit (mk (items s ++ [a]) (limit s) (working s) true
                              (delete 0%nat (pushers s)) (running s)
                              (trace s ++ [EvPush a true]))) as HB'.
      { unfold within_limit. simpl. rewrite Hps. simpl.
        rewrite length_app. simpl. split_and!; [done|lia|done|done]. }
      destruct (working s); simpl; [done|].
      unfold work. apply within_limit_work_loop.
      by eapply within_limit_ext; [| | | |exact HB'].
    + unfold within_limit. simpl. rewrite Hps. simpl. by split_and!.
  - destruct (running s !! k); [|done]. injection Hstep as <-.
    unfold work_resume. destruct b1 as [[|]|]; simpl.
    + apply within_limit_work_loop.
      eapply within_limit_ext; [| | | |exact HB]; simpl; try done.
      destruct (items s); simpl; lia.
    + destruct HB as (H1 & H2 & H3 & H4). unfold within_limit. simpl.
      split_and!; [done|lia|done|].
      by destruct (pushers s) as [|[?|?] [|]].
    + apply within_limit_work_loop.
      eapply within_limit_ext; [| | | |exact HB]; simpl; try done.
      destruct (items s); simpl; lia.
  - destruct (running s !! k); [|done]. injection Hstep as <-.
    by eapply within_limit_ext; [| | | |exact HB].
  - injection Hstep as <-.
    eapply within_limit_ext; [| | | |exact HB]; simpl; try done. lia.
  - injection Hstep as <-. destruct HB as (H1 & H2 & H3 & H4).
    unfold within_limit. simpl. split_and!; [done|lia|done|].
    by destruct (pushers s) as [|[?|?] [|]].
Qed.

(** X13. The back-pressure of [push] on a serial queue.  For a producer
    that awaits each [push] before the next one, the backlog (which
    includes the item in the hands of the handler) never exceeds the limit
    of the queue: [size() <= max()] in every state, and at most one [push]
    is suspended. *)
Theorem serial_backlog_within_limit (lim : Z) ls s :
  exec ls (new lim) = Some s →
  pushes_awaited ls (new lim) = true →
  0 ≤ size s ≤ max s ∧ (length (pushers s) ≤ 1)%nat.
Proof.
  intros Hex Haw.
  assert (within_limit (new (Args := Args) lim)) as HB.
  { unfold within_limit. simpl. destruct (Z.ltb_spec 0 lim); split_and!; (done || lia). }
  assert (within_limit s) as (H1 & H2 & H3 & H4).
  { revert Hex Haw HB. generalize (new (Args := Args) lim).
    induction ls as [|l ls IH]; intros s0 Hex Haw HB; simpl in Hex.
    - by injection Hex as <-.
    - destruct (step s0 l) as [s1|] eqn:E; [|done].
      apply (IH s1); [done| |].
      + simpl in Haw. rewrite E in Haw.
        destruct l; try done. by destruct (pushers s0).
      + eapply step_within_limit; [done| |done].
        intros a ->. simpl in Haw. by destruct (pushers s0). }
  unfold size, max. split; [lia|].
  destruct (pushers s) as [|p [|q r]]; simpl in *; [lia|lia|by destruct p].
Qed.

(** X19. [clear()] while the handler runs costs the next item.  Take a
    state of an open queue in which a call of the handler is in flight.
    [clear()] empties the backlog, the item in the hands of the handler
    included; when an item is pushed before the handler returns, it is
    appended to the empty backlog, and the [shift()] that follows the
    return of the handler removes this new item instead of the handled
    one: the queue is then empty and idle, and the handler has not been
    called for the new item. *)
Theorem serial_clear_drops_next_push (lim : Z) ls s s1 s2 s3 (i k : nat)
    (b1 : option bool) :
  exec ls (new lim) = Some s →
  open s = true → running s ≠ [] →
  step s Clear = Some s1 →
  step s1 (PushResume i) = Some s2 →
  b1 ≠ Some false →
  step s2 (Done k b1) = Some s3 →
  ∃ a, trace s3 = trace s ++ [EvPush a true]
       ∧ appended (trace s3) = appended (trace s) ++ [a]
       ∧ called (trace s3) = called (trace s)
       ∧ items s3 = [] ∧ running s3 = [] ∧ working s3 = false
       ∧ queue_busy s3 = false.
Proof.
  intros Hex Ho Hrun Hc Hp Hb Hd.
  pose proof (exec_SerialInv _ _ _ (new_SerialInv lim) Hex) as HI.
  destruct (inv_busy _ HI Hrun) as [Hw|?]; [|congruence].
  assert (∃ x, running s = [x]) as [x Hx].
  { pose proof (inv_one _ HI). destruct (running s) as [|x [|y r]]; [done| |simpl in *; lia].
    by exists x. }
  simpl in Hc. injection Hc as <-.
  simpl in Hp. destruct (pushers s !! i) as [[a|a]|] eqn:Ep; try done.
  injection Hp as <-.
  unfold push_resume in Hd. simpl in Hd. rewrite Ho, Hw, Hx in Hd. simpl in Hd.
  destruct k as [|k]; simpl in Hd; [|done]. injection Hd as <-.
  exists a. unfold work_resume, queue_busy.
  destruct b1 as [[|]|]; simpl; try done;
    rewrite appended_snoc, called_snoc, app_nil_r, ?Ho; by split_and!.
Qed.

End SerialQueueMore.

Section SerialQueueMoreRuns.
Import SerialQueue.

Lemma serial_wait_for_empty_witness :
  let ls := [Push "a"; PushResume 0; Push "b"; PushResume 0;
             Done 0 None; Done 0 (Some true)]%string in
  ∃ s, exec ls (new 2) = Some s ∧ queue_busy s = false ∧
       called (trace s) = ["a"; "b"]%string ∧ running s = [].
Proof.
  intros ls.
  pose (s := default (new 0) (exec ls (new 2))).
  exists s.
  destruct (serial_wait_for_empty 2 ls s eq_refl) as (_ & Hopen & _).
  - intros Hin. by repeat (apply elem_of_cons in Hin as [?|Hin]; [done|]);
      apply elem_of_nil in Hin.
  - reflexivity.
  - destruct (Hopen eq_refl) as (Hc & Hr & _).
    split_and!; [reflexivity..|by rewrite Hc|exact Hr].
Defined.

Lemma serial_handler_exception_wedges_witness :
  let ls := [Push "a"; PushResume 0]%string in
  let ls' := [Push "b"; PushResume 0; Push "c"; PushResume 0]%string in
  ∃ s s1 s2, exec ls (new 3) = Some s ∧ step s (Throw 0) = Some s1 ∧
             exec ls' s1 = Some s2 ∧
             called (trace s2) = ["a"%string] ∧
             items s2 = ["a"; "b"; "c"]%string.
Proof.
  intros ls ls'.
  pose (s := default (new 0) (exec ls (new 3))).
  pose (s1 := default (new 0) (step s (Throw 0))).
  pose (s2 := default (new 0) (exec ls' s1)).
  exists s, s1, s2.
  destruct (serial_handler_exception_wedges 3 ls ls' s s1 s2 0 eq_refl eq_refl eq_refl)
    as (Hc & _ & _).
  split_and!; [reflexivity..|by rewrite Hc|reflexivity].
Defined.

Lemma serial_backlog_within_limit_witness :
  let ls := [Push "a"; PushResume 0; Push "b"; PushResume 0; Push "c"; PushPoll 0;
             Done 0 None; PushPoll 0; PushResume 0]%string in
  ∃ s, exec ls (new 2) = Some s ∧ items s = ["b"; "c"]%string ∧ size s ≤ max s.
Proof.
  intros ls.
  pose (s := default (new 0) (exec ls (new 2))).
  exists s.
  destruct (serial_backlog_within_limit 2 ls s eq_refl eq_refl) as ((_ & Hle) & _).
  split_and!; [reflexivity..|exact Hle].
Defined.

Lemma serial_clear_drops_next_push_witness :
  let ls := [Push "x"; PushResume 0; Push "a"]%string in
  ∃ s s1 s2 s3,
    exec ls (new 2) = Some s ∧ step s Clear = Some s1 ∧
    step s1 (PushResume 0) = Some s2 ∧ step s2 (Done 0 None) = Some s3 ∧
    appended (trace s3) = ["x"; "a"]%string ∧ called (trace s3) = ["x"%string] ∧
    items s3 = [].
Proof.
  intros ls.
  pose (s := default (new 0) (exec ls (new 2))).
  pose (s1 := default (new 0) (step s Clear)).
  pose (s2 := default (new 0) (step s1 (PushResume 0))).
  pose (s3 := default (new 0) (step s2 (Done 0 None))).
  exists s, s1, s2, s3.
  destruct (serial_clear_drops_next_push 2 ls s s1 s2 s3 0 0 None
              eq_refl eq_refl ltac:(done) eq_refl eq_refl ltac:(done) eq_refl)
    as (a & _ & Ha & Hc & Hi & _).
  split_and!; [reflexivity..|by rewrite Hc|exact Hi].
Defined.

End SerialQueueMoreRuns.

(** ** ParalelQueue: concurrency, closing, draining and back-pressure *)

Section ParalelQueueMore.
Import ParalelQueue.
Context {Args Result : Type}.
Implicit Types (s : t Args Result) (l : Label Args Result)
  (ls : list (Label Args Result)) (tk : Task Args Result).

(** *** The number of calls in flight *)

(** A call of [callback] that has not come to its end and has not been
    rejected. *)
Definition in_flight (p : PC Result) : bool :=
  match p with Running | Waiting _ | Emitting => true | _ => false end.

(** The number of these calls. *)
Definition flying (ts : list (Task Args Result)) : nat :=
  length (List.filter (fun tk => in_flight (pc tk)) ts).

Definition one (b : bool) : nat := if b then 1%nat else 0%nat.

Lemma flying_app ts1 ts2 : flying (ts1 ++ ts2) = (flying ts1 + flying ts2)%nat.
Proof. unfold flying. by rewrite List.filter_app, length_app. Qed.

Lemma flying_alter ts (i : nat) tk p :
  ts !! i = Some tk →
  (flying (alter (fun tk => mkTask (order tk) (args tk) p) i ts) + one (in_flight (pc tk))
   = flying ts + one (in_flight p))%nat.
Proof.
  revert i. induction ts as [|x ts IH]; intros i Hi; [done|].
  destruct i as [|i]; simpl in Hi.
  - injection Hi as ->. unfold flying, one. simpl.
    destruct (in_flight p), (in_flight (pc tk)); simpl; lia.
  - specialize (IH i Hi). unfold flying, one in *. simpl.
    destruct (in_flight (pc x)); simpl; [f_equal|]; exact IH.
Qed.

Record Bound s : Prop := {
  b_limit : 1 ≤ limit s;
  b_low : Z.of_nat (flying (tasks s)) ≤ curr_working s;
  b_high : curr_working s ≤ limit s;
  b_open : working s = true → open s = true;
  b_idle : open s = true → working s = false → curr_working s < limit s
}.

(** Inside the loop of [work], at its condition. *)
Definition has_room s : Prop := open s = true → curr_working s < limit s.

Lemma Bound_frame s s' :
  limit s' = limit s → curr_working s' = curr_working s →
  working s' = working s → open s' = open s → tasks s' = tasks s →
  Bound s → Bound s'.
Proof.
  intros E1 E2 E3 E4 E5 [H1 H2 H3 H4 H5].
  split; rewrite ?E1, ?E2, ?E3, ?E4, ?E5; done.
Qed.

Lemma new_Bound lim : Bound (new (Args := Args) (Result := Result) lim).
Proof. split; simpl; try done; destruct (Z.ltb_spec 0 lim); lia. Qed.

(** The call [i] moves on without giving its place back. *)
Lemma Bound_set_pc s i tk p :
  Bound s → tasks s !! i = Some tk → in_flight (pc tk) = true →
  Bound (set_pc i p s).
Proof.
  intros [H1 H2 H3 H4 H5] Hi Hf. split; simpl; try done.
  pose proof (flying_alter (tasks s) i tk p Hi) as Hc. rewrite Hf in Hc.
  unfold one in Hc. destruct (in_flight p); simpl in Hc; lia.
Qed.

Lemma Bound_callback_finish s i tk :
  Bound s → tasks s !! i = Some tk → in_flight (pc tk) = true →
  Bound (callback_finish i (order tk) s).
Proof.
  intros [H1 H2 H3 H4 H5] Hi Hf. split; simpl; try done; try lia.
  pose proof (flying_alter (tasks s) i tk Finished Hi) as Hc. rewrite Hf in Hc.
  simpl in Hc. lia.
Qed.

Lemma Bound_callback_continue s i tk res :
  Bound s → tasks s !! i = Some tk → in_flight (pc tk) = true →
  Bound (callback_continue i (order tk) res s).
Proof.
  intros HB Hi Hf. unfold callback_continue.
  destruct (negb (clearing s) && negb (outp_order s =? order tk)%nat).
  { by eapply Bound_set_pc. }
  destruct (clearing s).
  { eapply (Bound_set_pc _ i tk); [|done..]. by eapply Bound_frame; [..|exact HB]. }
  destruct (open s && bool_decide (is_Some (items s !! order tk))).
  - eapply (Bound_set_pc _ i tk); [|done..]. by eapply Bound_frame; [..|exact HB].
  - by apply Bound_callback_finish.
Qed.

Lemma step_Bound s l s' : Bound s → step s l = Some s' → Bound s'.
Proof.
  intros HB Hstep.
  refine (step_preserves_loop Bound has_room _ _ _ _ _ _ _ _ _ _ _ _ _ _
            s l s' HB Hstep _ _).
  - intros s0 ps H. by eapply Bound_frame; [..|exact H].
  - intros s0 H _. by eapply Bound_frame; [..|exact H].
  - intros s0 n H _ Hl. split; [by eapply Bound_frame; [..|exact H]|].
    intros Ho. unfold at_limit in Hl. simpl in *. rewrite Ho in Hl. simpl in Hl.
    by apply Z.leb_gt in Hl.
  - intros s0 [H1 H2 H3 H4 H5] Ho Hw. split; [by split|].
    intros _. by apply H5.
  - intros s0 [H1 H2 H3 H4 H5] HL. split; simpl; try done.
    intros Ho _. by apply HL.
  - intros s0 a H _. by eapply Bound_frame; [..|exact H].
  - intros s0 a H _. by eapply Bound_frame; [..|exact H].
  - intros s0 H HL _ _ _. split; [by eapply Bound_frame; [..|exact H]|done].
  - intros s0 item [H1 H2 H3 H4 H5] HL Hw _ _ s2.
    pose proof (H4 Hw) as Ho. specialize (HL Ho).
    assert (Bound s2) as HB2.
    { unfold s2, callback_start. simpl. rewrite Ho.
      split; simpl; try done; try lia; [|congruence].
      rewrite flying_app. unfold flying at 2. simpl. lia. }
    split; [done|]. intros Hl Ho2. unfold at_limit in Hl. rewrite Ho2 in Hl.
    simpl in Hl. by apply Z.leb_gt in Hl.
  - intros s0 i tk r H Hi Hpc.
    apply Bound_callback_continue; [|done|by rewrite Hpc].
    by eapply Bound_frame; [..|exact H].
  - intros s0 i tk H Hi Hpc. eapply Bound_set_pc; [done..|by rewrite Hpc].
  - intros s0 i tk res H Hi Hpc.
    apply Bound_callback_continue; [done..|by rewrite Hpc].
  - intros s0 i tk H Hi Hpc. apply Bound_callback_finish; [done..|by rewrite Hpc].
  - intros s0 i tk H Hi Hpc. eapply Bound_set_pc; [done..|by rewrite Hpc].
  - intros _. by eapply Bound_frame; [..|exact HB].
  - intros _. destruct HB as [H1 H2 H3 H4 H5]. by split.
Qed.

Lemma exec_Bound ls s s' : Bound s → exec ls s = Some s' → Bound s'.
Proof.
  revert s. induction ls as [|l ls IH]; intros s HB Hex; simpl in Hex.
  - by injection Hex as <-.
  - destruct (step s l) as [s1|] eqn:E; [|done].
    eapply IH; [|done]. by eapply step_Bound.
Qed.

(** X14. The limit of a parallel queue bounds its concurrency.  In every
    run, whatever is cleared or closed on the way, the calls of [callback]
    that are in flight (their handler is running, or they wait for their
    turn, or they are in [outp_callback]) are at most [size()], and
    [size()] is at most [max()]: never more than [limit] handlers run at
    the same time. *)
Theorem parallel_concurrency_bound (lim : Z) ls s :
  exec ls (new lim) = Some s →
  Z.of_nat (length (List.filter (fun tk => in_flight (pc tk)) (tasks s))) ≤ size s
  ∧ 0 ≤ size s ≤ max s.
Proof.
  intros Hex.
  destruct (exec_Bound _ _ _ (new_Bound lim) Hex) as [H1 H2 H3 H4 H5].
  unfold size, max. fold (flying (tasks s)). lia.
Qed.

(** *** A closed queue *)

(** A closed queue is not working and holds no item. *)
Definition shut s : Prop := open s = false → working s = false ∧ items s = ∅.

Lemma shut_frame s s' :
  open s' = open s → working s' = working s → items s' = items s →
  shut s → shut s'.
Proof. unfold shut. by intros -> -> ->. Qed.

Lemma shut_callback_finish i o s : shut s → shut (callback_finish i o s).
Proof.
  unfold shut. simpl. intros H Ho. destruct (H Ho) as [Hw Hi].
  split; [done|]. rewrite Hi. apply delete_empty.
Qed.

Lemma shut_callback_continue i o res s : shut s → shut (callback_continue i o res s).
Proof.
  intros H. unfold callback_continue.
  destruct (negb (clearing s) && negb (outp_order s =? o)%nat); [done|].
  destruct (clearing s); [done|].
  destruct (open s && bool_decide (is_Some (items s !! o))); [done|].
  by apply shut_callback_finish.
Qed.

Lemma step_shut s l s' : shut s → step s l = Some s' → shut s'.
Proof.
  intros HS Hstep.
  refine (step_preserves shut _ _ _ _ _ _ _ _ _ _ _ _ _ s l s' HS Hstep _ _).
  - by intros s0 ps H.
  - by intros s0 n H.
  - intros s0 H Ho. by destruct (H Ho).
  - intros s0 H Ho _ Ho'. simpl in Ho'. congruence.
  - by intros s0 a H _.
  - intros s0 a H Ho Ho'. simpl in Ho'. congruence.
  - by intros s0 H _ _.
  - intros s0 item H Hw _ _. unfold callback_start. simpl.
    destruct (open s0) eqn:Eo.
    + intros Ho'. simpl in Ho'. congruence.
    + destruct (H Eo). congruence.
  - intros s0 i tk r H _ _. apply shut_callback_continue. by eapply shut_frame.
  - by intros s0 i tk H _ _.
  - intros s0 i tk res H _ _. by apply shut_callback_continue.
  - intros s0 i tk H _ _. by apply shut_callback_finish.
  - by intros s0 i tk H _ _.
  - intros _ Ho. simpl in *. by destruct (HS Ho).
  - by intros _ _.
Qed.

Lemma exec_shut ls s s' : shut s → exec ls s = Some s' → shut s'.
Proof.
  revert s. induction ls as [|l ls IH]; intros s HS Hex; simpl in Hex.
  - by injection Hex as <-.
  - destruct (step s l) as [s1|] eqn:E; [|done].
    eapply IH; [|done]. by eapply step_shut.
Qed.

(** A closed queue on which so far [cs] was called, [os] passed on and
    [as] appended. *)
Definition closed_with (cs : list (nat * Args)) (os : list (nat * option Result))
    (aps : list Args) s : Prop :=
  open s = false ∧ working s = false ∧ items s = ∅ ∧
  called (trace s) = cs ∧ outputs (trace s) = os ∧ appended (trace s) = aps.

Lemma closed_with_frame cs os aps s s' :
  open s' = open s → working s' = working s → items s' = items s →
  trace s' = trace s →
  closed_with cs os aps s → closed_with cs os aps s'.
Proof. unfold closed_with. by intros -> -> -> ->. Qed.

Lemma closed_with_log cs os aps s e :
  (match e with EvPush _ false | EvReturn _ _ => True | _ => False end) →
  closed_with cs os aps s → closed_with cs os aps (log e s).
Proof.
  unfold closed_with. simpl. intros He (H1 & H2 & H3 & H4 & H5 & H6).
  rewrite called_snoc_pq, outputs_snoc, appended_snoc_pq.
  destruct e as [a [|]| | |]; try done; by rewrite !app_nil_r.
Qed.

Lemma closed_with_finish cs os aps i o s :
  closed_with cs os aps s → closed_with cs os aps (callback_finish i o s).
Proof.
  unfold closed_with. simpl. intros (H1 & H2 & H3 & H4 & H5 & H6).
  split_and!; try done. rewrite H3. apply delete_empty.
Qed.

Lemma closed_with_continue cs os aps i o res s :
  closed_with cs os aps s → closed_with cs os aps (callback_continue i o res s).
Proof.
  intros H. unfold callback_continue.
  destruct (negb (clearing s) && negb (outp_order s =? o)%nat); [done|].
  destruct (clearing s); [done|].
  destruct H as (H1 & H2 & H3 & H4 & H5 & H6). rewrite H1. simpl.
  by apply closed_with_finish.
Qed.

Lemma step_closed_with cs os aps s l s' :
  closed_with cs os aps s → step s l = Some s' → closed_with cs os aps s'.
Proof.
  intros HC Hstep.
  refine (step_preserves (closed_with cs os aps) _ _ _ _ _ _ _ _ _ _ _ _ _
            s l s' HC Hstep _ _).
  - by intros s0 ps H.
  - by intros s0 n H.
  - intros s0 (H1 & H2 & H3 & H4 & H5 & H6). by split_and!.
  - intros s0 (H1 & _) Ho _. congruence.
  - intros s0 a H _. by apply closed_with_log.
  - intros s0 a (H1 & _) Ho. congruence.
  - by intros s0 H _ _.
  - intros s0 item (_ & H2 & _) Hw _ _. congruence.
  - intros s0 i tk r H _ _. apply closed_with_continue. by apply closed_with_log.
  - by intros s0 i tk H _ _.
  - intros s0 i tk res H _ _. by apply closed_with_continue.
  - intros s0 i tk H _ _. by apply closed_with_finish.
  - by intros s0 i tk H _ _.
  - intros _. destruct HC as (H1 & H2 & H3 & H4 & H5 & H6). by split_and!.
  - intros _. destruct HC as (H1 & H2 & H3 & H4 & H5 & H6). by split_and!.
Qed.

Lemma exec_closed_with cs os aps ls s s' :
  closed_with cs os aps s → exec ls s = Some s' → closed_with cs os aps s'.
Proof.
  revert s. induction ls as [|l ls IH]; intros s HC Hex; simpl in Hex.
  - by injection Hex as <-.
  - destruct (step s l) as [s1|] eqn:E; [|done].
    eapply IH; [|done]. by eapply step_closed_with.
Qed.

(** X15. A closed parallel queue stays closed and idle.  Once [open] is
    false (after [close()]) the queue holds no item and is not working, and
    in every later state this is still so: the handler is never called
    again, [outp_callback] is never called again, also not for the calls
    that were in flight when the queue was closed, every [push] is refused,
    and neither loop of [waitForQueue] waits. *)
Theorem parallel_closed_queue_is_idle (lim : Z) ls ls' s s' :
  exec ls (new lim) = Some s →
  open s = false →
  exec ls' s = Some s' →
  open s' = false ∧ working s' = false ∧ items s' = ∅
  ∧ called (trace s') = called (trace s)
  ∧ outputs (trace s') = outputs (trace s)
  ∧ appended (trace s') = appended (trace s)
  ∧ queue_full s' = false ∧ queue_busy s' = false.
Proof.
  intros Hex Ho Hex'.
  assert (shut s) as HS.
  { eapply exec_shut; [|exact Hex]. by intros ?. }
  destruct (HS Ho) as [Hw Hi].
  assert (closed_with (called (trace s)) (outputs (trace s)) (appended (trace s)) s')
    as (H1 & H2 & H3 & H4 & H5 & H6).
  { eapply exec_closed_with; [|exact Hex']. by split_and!. }
  unfold queue_full, queue_busy. rewrite H1. by split_and!.
Qed.

(** X16. [waitForQueue(true)] on a parallel queue.  In a run without
    [clear] and [close], when the loop of [waitForQueue(true)] ends (its
    condition is false) the queue has drained: [outp_callback] has been
    called once for every item that was appended, in the order of
    appending, each time with the value the handler returned for that
    item, and every call of [callback] has come to its end. *)
Theorem parallel_wait_for_empty (lim : Z) ls s :
  exec ls (new lim) = Some s →
  Clear ∉ ls → Close ∉ ls →
  queue_busy s = false →
  emitted (trace s) = seq 0 (length (appended (trace s)))
  ∧ length (outputs (trace s)) = length (appended (trace s))
  ∧ (∀ (o : nat) a, appended (trace s) !! o = Some a →
       ∃ r, outputs (trace s) !! o = Some (o, Some r) ∧
            EvCall o a ∈ trace s ∧ EvReturn o r ∈ trace s)
  ∧ (∀ i tk, tasks s !! i = Some tk → pc tk = Finished)
  ∧ work_order s = push_order s.
Proof.
  intros Hex Hc1 Hc2 Hbusy.
  destruct (exec_InvN _ _ _ (conj (new_Inv lim) (new_InvN lim)) Hex Hc1 Hc2)
    as [HI HN].
  destruct (exec_InvR _ _ _ (conj (new_Inv lim) (new_InvR lim)) Hex) as [_ HR].
  unfold queue_busy in Hbusy. rewrite (n_open _ HN) in Hbusy. simpl in Hbusy.
  apply negb_false_iff, Nat.eqb_eq in Hbusy.
  pose proof (inv_wp _ HI) as Hwp. pose proof (n_ow _ HN) as How.
  assert (emitted (trace s) = seq 0 (push_order s)) as Hem.
  { destruct (n_seq _ HN) as (n & Hn & [->| ->]); [by rewrite Hn, Hbusy|].
    exfalso.
    assert (outp_order s ∈ emitted (trace s)) as Hin.
    { rewrite Hn. apply elem_of_seq. lia. }
    destruct (inv_emitted _ HI _ Hin) as [Hlt _]. lia. }
  assert (length (outputs (trace s)) = push_order s) as Hlen.
  { rewrite <- (length_fmap fst), <- emitted_outputs, Hem. apply length_seq. }
  rewrite (r_len _ HR). split_and!; [done|done| | |lia].
  - intros o a Ha.
    assert (o < push_order s)%nat as Hlt.
    { apply lookup_lt_Some in Ha. by rewrite (r_len _ HR) in Ha. }
    destruct (lookup_lt_is_Some_2 (outputs (trace s)) o) as [[o' res] Ho];
      [by rewrite Hlen|].
    assert (o' = o) as ->.
    { assert (emitted (trace s) !! o = Some o') as He.
      { by rewrite emitted_outputs, list_lookup_fmap, Ho. }
      rewrite Hem, lookup_seq_lt in He by done. simpl in He. by injection He. }
    destruct (r_out _ HR o res) as (a' & r & Ha' & Hcall & Hret & ->).
    { by eapply list_elem_of_lookup_2. }
    rewrite Ha in Ha'. injection Ha' as <-. by exists r.
  - intros i tk Hi. destruct (pc tk) eqn:Epc; try done;
      destruct (n_live _ HN i tk Hi ltac:(by rewrite Epc)) as [Hle _];
      pose proof (inv_torder _ HI i tk Hi); lia.
Qed.

(** *** The calls of the handler *)

Record InvC s : Prop := {
  c_items : ∀ k o a, items s !! k = Some (o, a) → o = k;
  c_called : ∀ o a, (o, a) ∈ called (trace s) →
      (o < work_order s)%nat ∧ ∃ i p, tasks s !! i = Some (mkTask o a p);
  c_sorted : StronglySorted lt (called (trace s)).*1
}.

(** Items are removed, [work_order] grows, calls of [callback] move on,
    and the handler is not called. *)
Lemma InvC_mono s s' :
  InvC s →
  (∀ k v, items s' !! k = Some v → items s !! k = Some v) →
  (work_order s ≤ work_order s')%nat →
  (∀ i o a p, tasks s !! i = Some (mkTask o a p) →
     ∃ p', tasks s' !! i = Some (mkTask o a p')) →
  called (trace s') = called (trace s) →
  InvC s'.
Proof.
  intros [H1 H2 H3] Ei Ew Et Ec. split; rewrite ?Ec; try done.
  - intros k o a Hk. by eapply H1, Ei.
  - intros o a Hin. destruct (H2 o a Hin) as (Hlt & i & p & Hi).
    split; [lia|]. destruct (Et _ _ _ _ Hi) as [p' Hi']. by exists i, p'.
Qed.

Lemma tasks_set_pc s (i : nat) p (j : nat) o a q :
  tasks s !! j = Some (mkTask o a q) →
  ∃ q', tasks (set_pc i p s) !! j = Some (mkTask o a q').
Proof.
  intros Hj. simpl. destruct (decide (i = j)) as [->|Hne].
  - rewrite list_lookup_alter_eq, Hj. simpl. by eexists.
  - rewrite list_lookup_alter_ne by done. by eexists.
Qed.

Lemma InvC_set_pc s i p : InvC s → InvC (set_pc i p s).
Proof.
  intros HC. eapply InvC_mono; [exact HC|done|done| |done].
  intros j o a q Hj. by apply (tasks_set_pc s i p j o a q).
Qed.

Lemma InvC_callback_finish s i o : InvC s → InvC (callback_finish i o s).
Proof.
  intros HC. eapply InvC_mono; [exact HC| |done| |done].
  - intros k v. simpl. rewrite lookup_delete. by destruct (decide (o = k)).
  - intros j o' a q Hj. by apply (tasks_set_pc s i Finished j o' a q).
Qed.

Lemma InvC_log s e :
  (match e with EvCall _ _ => False | _ => True end) → InvC s → InvC (log e s).
Proof.
  intros He HC. eapply InvC_mono; [exact HC|done|done|by eauto|].
  simpl. rewrite called_snoc_pq. destruct e; try done; by rewrite app_nil_r.
Qed.

Lemma InvC_callback_continue s i o res : InvC s → InvC (callback_continue i o res s).
Proof.
  intros HC. unfold callback_continue.
  destruct (negb (clearing s) && negb (outp_order s =? o)%nat).
  { by apply InvC_set_pc. }
  destruct (clearing s).
  { apply InvC_set_pc. by eapply InvC_mono; [exact HC|..]; eauto. }
  destruct (open s && bool_decide (is_Some (items s !! o))).
  - apply InvC_set_pc. by apply InvC_log.
  - by apply InvC_callback_finish.
Qed.

Lemma new_InvC lim : InvC (new (Args := Args) (Result := Result) lim).
Proof.
  split; simpl; try done; [|constructor].
  intros o a Hin. by apply elem_of_nil in Hin.
Qed.

Lemma step_InvC s l s' : InvC s → step s l = Some s' → InvC s'.
Proof.
  intros HC Hstep.
  refine (step_preserves InvC _ _ _ _ _ _ _ _ _ _ _ _ _ s l s' HC Hstep _ _).
  - intros s0 ps H. by eapply InvC_mono; [exact H|..]; eauto.
  - intros s0 n H. by eapply InvC_mono; [exact H|..]; eauto.
  - intros s0 H. by eapply InvC_mono; [exact H|..]; eauto.
  - intros s0 H _ _. by eapply InvC_mono; [exact H|..]; eauto.
  - intros s0 a H _. by apply InvC_log.
  - intros s0 a [H1 H2 H3] _. split; simpl; rewrite ?called_snoc_pq, ?app_nil_r;
      try done.
    intros k o a'. rewrite lookup_insert.
    destruct (decide (push_order s0 = k)) as [<-|Hne]; [by intros [= <- <-]|].
    apply H1.
  - intros s0 H Hlt _. eapply InvC_mono; [exact H|done|simpl; lia|by eauto|done].
  - intros s0 [o a] [H1 H2 H3] _ Hlt Hitem.
    pose proof (H1 _ _ _ Hitem) as ->. simpl.
    assert (∀ q, InvC (set_tasks (tasks s0 ++ [mkTask (work_order s0) a q])
                         (set_curr_working (curr_working s0 + 1)
                            (set_work_order (S (work_order s0)) s0)))) as Hspawn.
    { intros q. eapply InvC_mono; [by split|done|simpl; lia| |done].
      intros j o' a' p' Hj. exists p'. simpl. by apply lookup_app_l_Some. }
    unfold callback_start. simpl. destruct (open s0).
    + split; simpl; rewrite ?called_snoc_pq; try done.
      * intros o' a' [Hin|Hin%list_elem_of_singleton]%elem_of_app.
        -- destruct (H2 o' a' Hin) as (Hlt' & j & p & Hj).
           split; [lia|]. exists j, p. by apply lookup_app_l_Some.
        -- injection Hin as -> ->. split; [lia|].
           exists (length (tasks s0)), Running.
           by rewrite lookup_app_r, Nat.sub_diag.
      * rewrite fmap_app. simpl. apply StronglySorted_snoc; [done|].
        intros x [[o' a'] [-> Hin]]%list_elem_of_fmap. simpl.
        by destruct (H2 o' a' Hin).
    + apply InvC_callback_continue, Hspawn.
  - intros s0 i tk r H _ _. apply InvC_callback_continue. by apply InvC_log.
  - intros s0 i tk H _ _. by apply InvC_set_pc.
  - intros s0 i tk res H _ _. by apply InvC_callback_continue.
  - intros s0 i tk H _ _. by apply InvC_callback_finish.
  - intros s0 i tk H _ _. by apply InvC_set_pc.
  - intros _. eapply InvC_mono; [exact HC| |done|by eauto|done].
    intros k v. simpl. by rewrite lookup_empty.
  - intros _. eapply InvC_mono; [exact HC| |done|by eauto|done].
    intros k v. simpl. by rewrite lookup_empty.
Qed.

Lemma exec_InvC ls s s' : InvC s → exec ls s = Some s' → InvC s'.
Proof.
  revert s. induction ls as [|l ls IH]; intros s HC Hex; simpl in Hex.
  - by injection Hex as <-.
  - destruct (step s l) as [s1|] eqn:E; [|done].
    eapply IH; [|done]. by eapply step_InvC.
Qed.

(** X17. The handler of a parallel queue is started in the order of
    pushing.  In every run the sequence numbers for which [func_callback]
    has been called are strictly increasing, so it is called at most once
    for an item and never for an earlier item after a later one, and it is
    called with the arguments that were pushed for that number; all these
    numbers are below [work_order]. *)
Theorem parallel_handler_started_in_order (lim : Z) ls s :
  exec ls (new lim) = Some s →
  StronglySorted lt (called (trace s)).*1
  ∧ NoDup (called (trace s)).*1
  ∧ ∀ o a, (o, a) ∈ called (trace s) →
      appended (trace s) !! o = Some a ∧ (o < work_order s ≤ push_order s)%nat.
Proof.
  intros Hex.
  destruct (exec_InvC _ _ _ (new_InvC lim) Hex) as [H1 H2 H3].
  destruct (exec_InvR _ _ _ (conj (new_Inv lim) (new_InvR lim)) Hex) as [HI HR].
  split_and!; [done| |].
  - clear -H3. induction H3 as [|x l Hs IH Hall]; constructor; [|done].
    intros Hin. rewrite Forall_forall in Hall. specialize (Hall x Hin). lia.
  - intros o a Hin. destruct (H2 o a Hin) as (Hlt & i & p & Hi).
    destruct (r_task _ HR i _ Hi) as [Ha _]. simpl in Ha.
    pose proof (inv_wp _ HI). split; [done|lia].
Qed.

(** *** The back-pressure of [push] *)

(** A run of a single producer: [push] is called only when no earlier
    call of [push] is still suspended. *)
Fixpoint one_push_at_a_time ls s : bool :=
  match ls with
  | [] => true
  | l :: ls' =>
      match l, pushers s with
      | Push _, _ :: _ => false
      | _, _ =>
          match step s l with
          | Some s' => one_push_at_a_time ls' s'
          | None => true
          end
      end
  end.

(** The items are within the limit, and a call of [push] that has left
    [waitForQueue] has room for its item. *)
Definition has_space s : Prop :=
  1 ≤ limit s ∧ Z.of_nat (base.size (items s)) ≤ limit s
  ∧ (open s = false → items s = ∅)
  ∧ match pushers s with
    | [] | [Polling _] => True
    | [Ready _] => open s = true → Z.of_nat (base.size (items s)) < limit s
    | _ => False
    end.

(** Nothing is appended and no call of [push] moves. *)
Definition shrinks s0 s : Prop :=
  limit s = limit s0 ∧ open s = open s0 ∧ pushers s = pushers s0 ∧
  items s ⊆ items s0.

Lemma shrinks_refl s : shrinks s s.
Proof. by split_and!. Qed.

Lemma shrinks_frame s0 s s' :
  limit s' = limit s → open s' = open s → pushers s' = pushers s →
  items s' ⊆ items s → shrinks s0 s → shrinks s0 s'.
Proof.
  intros E1 E2 E3 E4 (H1 & H2 & H3 & H4).
  split_and!; [congruence..|]. by etrans.
Qed.

Lemma has_space_shrinks s s' : shrinks s s' → has_space s → has_space s'.
Proof.
  intros (E1 & E2 & E3 & E4) (H1 & H2 & H3 & H4).
  pose proof (map_subseteq_size _ _ E4) as Hle.
  unfold has_space. rewrite E1, E2, E3. split_and!; [done|lia| |].
  - intros Ho. specialize (H3 Ho). rewrite H3 in E4.
    apply map_eq. intros k. rewrite lookup_empty.
    destruct (items s' !! k) eqn:Ek; [|done].
    eapply lookup_weaken in Ek; [|exact E4]. by rewrite lookup_empty in Ek.
  - destruct (pushers s) as [|[a|a] [|]]; try done. intros Ho. specialize (H4 Ho). lia.
Qed.

Lemma shrinks_callback_finish s0 s i o :
  shrinks s0 s → shrinks s0 (callback_finish i o s).
Proof.
  intros H. eapply shrinks_frame; [..|exact H]; try done. simpl. apply delete_subseteq.
Qed.

Lemma shrinks_callback_continue s0 s i o res :
  shrinks s0 s → shrinks s0 (callback_continue i o res s).
Proof.
  intros H. unfold callback_continue.
  destruct (negb (clearing s) && negb (outp_order s =? o)%nat).
  { by eapply shrinks_frame; [..|exact H]. }
  destruct (clearing s).
  { by eapply shrinks_frame; [..|exact H]. }
  destruct (open s && bool_decide (is_Some (items s !! o))).
  - by eapply shrinks_frame; [..|exact H].
  - by apply shrinks_callback_finish.
Qed.

Lemma shrinks_work_loop s0 n s : shrinks s0 s → shrinks s0 (work_loop n s).
Proof.
  intros H.
  refine (work_loop_preserves (shrinks s0) (fun _ => True) _ _ _ _ n s H I).
  - intros s1 H1 _. by eapply shrinks_frame; [..|exact H1].
  - intros s1 H1 _. by eapply shrinks_frame; [..|exact H1].
  - intros s1 H1 _ _ _ _. split; [|done]. by eapply shrinks_frame; [..|exact H1].
  - intros s1 item H1 _ _ _ _ s2. split; [|done].
    unfold s2, callback_start. simpl. destruct (open s1).
    + by eapply shrinks_frame; [..|exact H1].
    + apply shrinks_callback_continue. by eapply shrinks_frame; [..|exact H1].
Qed.

(** The steps that are no step of [push] and do not close the queue. *)
Lemma step_shrinks s l s' :
  step s l = Some s' →
  match l with Push _ | PushPoll _ | PushResume _ | Close => True | _ => shrinks s s' end.
Proof.
  intros Hstep. destruct l as [a|i|i| |i r|i|i|i|i| |]; simpl in Hstep; try done.
  - destruct (workers s) as [|n]; [done|].
    destruct (at_limit s); injection Hstep as <-; [apply shrinks_refl|].
    unfold work_continue. apply shrinks_work_loop.
    by eapply shrinks_frame; [..|apply shrinks_refl].
  - destruct (tasks s !! i) as [[o a []]|]; try done. injection Hstep as <-.
    apply shrinks_callback_continue. by eapply shrinks_frame; [..|apply shrinks_refl].
  - destruct (tasks s !! i) as [[o a []]|]; try done. injection Hstep as <-.
    by eapply shrinks_frame; [..|apply shrinks_refl].
  - destruct (tasks s !! i) as [[o a []]|]; try done. injection Hstep as <-.
    apply shrinks_callback_continue, shrinks_refl.
  - destruct (tasks s !! i) as [[o a []]|]; try done. injection Hstep as <-.
    apply shrinks_callback_finish, shrinks_refl.
  - destruct (tasks s !! i) as [[o a []]|]; try done. injection Hstep as <-.
    by eapply shrinks_frame; [..|apply shrinks_refl].
  - injection Hstep as <-. eapply shrinks_frame; [..|apply shrinks_refl]; try done.
    simpl. apply map_empty_subseteq.
Qed.

Lemma has_space_single s (i : nat) p :
  has_space s → pushers s !! i = Some p → pushers s = [p] ∧ i = 0%nat.
Proof.
  intros (_ & _ & _ & H4) Hp.
  destruct (pushers s) as [|q [|q' r]]; simpl in *; [done| |by destruct q].
  destruct i; simpl in *; [by injection Hp as ->|done].
Qed.

Lemma step_has_space s l s' :
  has_space s →
  (∀ a, l = Push a → pushers s = []) →
  step s l = Some s' → has_space s'.
Proof.
  intros HB Hpush Hstep.
  pose proof (step_shrinks s l s' Hstep) as Hshr.
  destruct l as [a|i|i| |i r|i|i|i|i| |];
    try (by eapply has_space_shrinks; [exact Hshr|]); simpl in Hstep.
  - injection Hstep as <-. destruct HB as (H1 & H2 & H3 & H4).
    unfold has_space, push_call. simpl. rewrite (Hpush a eq_refl). simpl.
    split_and!; [done..|].
    unfold queue_full. destruct (open s); simpl; [|done].
    destruct (Z.leb_spec (limit s) (Z.of_nat (base.size (items s)))); [done|].
    by intros _.
  - destruct (pushers s !! i) as [[a|a]|] eqn:Ep; try done.
    destruct (queue_full s) eqn:Ef; injection Hstep as <-; [done|].
    destruct (has_space_single _ _ _ HB Ep) as [Hps ->].
    destruct HB as (H1 & H2 & H3 & H4).
    unfold has_space. simpl. rewrite Hps. simpl. split_and!; [done..|].
    intros Ho.
    unfold queue_full in Ef. rewrite Ho in Ef. simpl in Ef. by apply Z.leb_gt in Ef.
  - destruct (pushers s !! i) as [[a|a]|] eqn:Ep; try done.
    injection Hstep as <-.
    destruct (has_space_single _ _ _ HB Ep) as [Hps ->].
    destruct HB as (H1 & H2 & H3 & H4). rewrite Hps in H4.
    unfold push_resume. simpl. destruct (open s) eqn:Eo; simpl.
    + specialize (H4 eq_refl).
      set (s2 := log (EvPush a true) _).
      assert (has_space s2) as HB'.
      { unfold has_space, s2. simpl. rewrite Hps, Eo. simpl.
        rewrite map_size_insert.
        split_and!; [done| |done|done].
        destruct (items s !! push_order s); simpl; lia. }
      destruct (working s); simpl; [done|].
      eapply has_space_shrinks; [|exact HB'].
      unfold work, work_continue. apply shrinks_work_loop.
      by eapply shrinks_frame; [..|apply shrinks_refl].
    + unfold has_space. simpl. rewrite Hps, Eo. simpl. by split_and!.
  - injection Hstep as <-. destruct HB as (H1 & H2 & H3 & H4).
    unfold has_space. simpl. rewrite map_size_empty.
    split_and!; [done|lia|done|].
    by destruct (pushers s) as [|[?|?] [|]].
Qed.

(** X18. The back-pressure of [push] on a parallel queue.  For a producer
    that awaits each [push] before the next one, the number of the items
    the queue holds (those not yet handled and those whose call of
    [callback] has not finished) never exceeds the limit, and at most one
    [push] is suspended. *)
Theorem parallel_items_within_limit (lim : Z) ls s :
  exec ls (new lim) = Some s →
  one_push_at_a_time ls (new lim) = true →
  Z.of_nat (base.size (items s)) ≤ max s ∧ (length (pushers s) ≤ 1)%nat.
Proof.
  intros Hex Haw.
  assert (has_space (new (Args := Args) (Result := Result) lim)) as HB.
  { unfold has_space. simpl. rewrite map_size_empty.
    destruct (Z.ltb_spec 0 lim); split_and!; (done || lia). }
  assert (has_space s) as (H1 & H2 & H3 & H4).
  { revert Hex Haw HB. generalize (new (Args := Args) (Result := Result) lim).
    induction ls as [|l ls IH]; intros s0 Hex Haw HB; simpl in Hex.
    - by injection Hex as <-.
    - destruct (step s0 l) as [s1|] eqn:E; [|done].
      apply (IH s1); [done| |].
      + simpl in Haw. rewrite E in Haw.
        destruct l; try done. by destruct (pushers s0).
      + eapply step_has_space; [done| |done].
        intros a ->. simpl in Haw. by destruct (pushers s0). }
  unfold max. split; [done|].
  destruct (pushers s) as [|p [|q r]]; simpl in *; [lia|lia|by destruct p].
Qed.

(** *** What a drained queue holds *)

(** A call of [callback] that has not come to its end. *)
Definition unfinished (p : PC Result) : bool :=
  match p with Finished => false | _ => true end.

Definition unfinished_calls (ts : list (Task Args Result)) : nat :=
  length (List.filter (fun tk => unfinished (pc tk)) ts).

Lemma unfinished_calls_app ts1 ts2 :
  unfinished_calls (ts1 ++ ts2) = (unfinished_calls ts1 + unfinished_calls ts2)%nat.
Proof. unfold unfinished_calls. by rewrite List.filter_app, length_app. Qed.

Lemma unfinished_calls_alter ts (i : nat) tk p :
  ts !! i = Some tk →
  (unfinished_calls (alter (fun tk => mkTask (order tk) (args tk) p) i ts)
   + one (unfinished (pc tk))
   = unfinished_calls ts + one (unfinished p))%nat.
Proof.
  revert i. induction ts as [|x ts IH]; intros i Hi; [done|].
  destruct i as [|i]; simpl in Hi.
  - injection Hi as ->. unfold unfinished_calls, one. simpl.
    destruct (unfinished p), (unfinished (pc tk)); simpl; lia.
  - specialize (IH i Hi). unfold unfinished_calls, one in *. simpl.
    destruct (unfinished (pc x)); simpl; [f_equal|]; exact IH.
Qed.

(** The invariant of the runs without [clear] and [close] that counts:
    [curr_working] is the number of the calls of [callback] that have not
    finished, and an item is still to be handled or belongs to such a
    call. *)
Record InvD s : Prop := {
  d_clearing : clearing s = false;
  d_open : open s = true;
  d_wp : (work_order s ≤ push_order s)%nat;
  d_items : ∀ k o a, items s !! k = Some (o, a) → o = k ∧ (k < push_order s)%nat;
  d_count : curr_working s = Z.of_nat (unfinished_calls (tasks s));
  d_cover : ∀ k, is_Some (items s !! k) →
      (work_order s ≤ k)%nat ∨
      ∃ i tk, tasks s !! i = Some tk ∧ order tk = k ∧ unfinished (pc tk) = true
}.

Lemma new_InvD lim : InvD (new (Args := Args) (Result := Result) lim).
Proof.
  split; simpl; try done.
  intros k [v Hk]. by rewrite lookup_empty in Hk.
Qed.

Lemma InvD_frame s s' :
  clearing s' = false → open s' = true →
  push_order s' = push_order s → work_order s' = work_order s →
  items s' = items s → curr_working s' = curr_working s → tasks s' = tasks s →
  InvD s → InvD s'.
Proof.
  intros E1 E2 E3 E4 E5 E6 E7 [H1 H2 H3 H4 H5 H6].
  split; rewrite ?E3, ?E4, ?E5, ?E6, ?E7; done.
Qed.

(** The call [i] moves on and stays unfinished. *)
Lemma InvD_set_pc s i tk p :
  InvD s → tasks s !! i = Some tk → unfinished (pc tk) = true → unfinished p = true →
  InvD (set_pc i p s).
Proof.
  intros [H1 H2 H3 H4 H5 H6] Hi Hu Hp. split; simpl; try done.
  - pose proof (unfinished_calls_alter (tasks s) i tk p Hi) as Hc. rewrite Hu, Hp in Hc. lia.
  - intros k Hk. destruct (H6 k Hk) as [?|(j & tj & Hj & Ho & Huj)]; [by left|].
    right. destruct (decide (i = j)) as [->|Hne].
    + exists j, (mkTask (order tj) (args tj) p).
      rewrite list_lookup_alter_eq, Hj. done.
    + exists j, tj. by rewrite list_lookup_alter_ne.
Qed.

Lemma InvD_callback_finish s i tk :
  InvD s → tasks s !! i = Some tk → unfinished (pc tk) = true →
  InvD (callback_finish i (order tk) s).
Proof.
  intros [H1 H2 H3 H4 H5 H6] Hi Hu. split; simpl; try done.
  - intros k o a. rewrite lookup_delete.
    destruct (decide (order tk = k)); [done|]. apply H4.
  - pose proof (unfinished_calls_alter (tasks s) i tk Finished Hi) as Hc. rewrite Hu in Hc.
    simpl in Hc. lia.
  - intros k. rewrite lookup_delete.
    destruct (decide (order tk = k)) as [<-|Hne]; [by intros [? ?]|].
    intros Hk. destruct (H6 k Hk) as [?|(j & tj & Hj & Ho & Huj)]; [by left|].
    right. exists j, tj. split_and!; try done.
    rewrite list_lookup_alter_ne; [done|]. intros ->. congruence.
Qed.

Lemma InvD_callback_continue s i tk res :
  InvD s → tasks s !! i = Some tk → unfinished (pc tk) = true →
  InvD (callback_continue i (order tk) res s).
Proof.
  intros HD Hi Hu. unfold callback_continue. rewrite (d_clearing _ HD). simpl.
  destruct (negb (outp_order s =? order tk)%nat).
  { by eapply InvD_set_pc. }
  destruct (open s && bool_decide (is_Some (items s !! order tk))).
  - eapply (InvD_set_pc _ i tk); [|done..].
    eapply InvD_frame; [..|exact HD]; try done; apply HD.
  - by apply InvD_callback_finish.
Qed.

Lemma step_InvD s l s' :
  InvD s → step s l = Some s' → l ≠ Clear → l ≠ Close → InvD s'.
Proof.
  intros HD Hstep Hc1 Hc2.
  refine (step_preserves InvD _ _ _ _ _ _ _ _ _ _ _ _ _ s l s' HD Hstep _ _);
    try done.
  - intros s0 ps H. eapply InvD_frame; [..|exact H]; try done; apply H.
  - intros s0 n H. eapply InvD_frame; [..|exact H]; try done; apply H.
  - intros s0 H. eapply InvD_frame; [..|exact H]; try done; apply H.
  - intros s0 H _ _. eapply InvD_frame; [..|exact H]; try done; apply H.
  - intros s0 a H Ho. by rewrite (d_open _ H) in Ho.
  - intros s0 a [H1 H2 H3 H4 H5 H6] _. split; simpl; try done.
    + lia.
    + intros k o a'. rewrite lookup_insert.
      destruct (decide (push_order s0 = k)) as [<-|Hne].
      * intros [= <- <-]. split; [done|lia].
      * intros Hk. destruct (H4 _ _ _ Hk). split; [done|lia].
    + intros k. rewrite lookup_insert.
      destruct (decide (push_order s0 = k)) as [<-|Hne]; [intros _; by left|].
      apply H6.
  - intros s0 [H1 H2 H3 H4 H5 H6] Hlt Hnone. split; simpl; try done.
    intros k Hk. destruct (H6 k Hk) as [Hle|?]; [|by right]. left.
    destruct (decide (k = work_order s0)) as [->|]; [|lia].
    rewrite Hnone in Hk. by destruct Hk.
  - intros s0 [o a] [H1 H2 H3 H4 H5 H6] _ Hlt Hitem.
    destruct (H4 _ _ _ Hitem) as [-> _]. unfold callback_start. simpl. rewrite H2.
    split; simpl; try done.
    + rewrite unfinished_calls_app. unfold unfinished_calls at 2. simpl. lia.
    + intros k Hk. destruct (H6 k Hk) as [Hle|(j & tj & Hj & Ho & Hu)].
      * destruct (decide (k = work_order s0)) as [->|]; [|left; lia].
        right. exists (length (tasks s0)), (mkTask (work_order s0) a Running).
        by rewrite lookup_app_r, Nat.sub_diag.
      * right. exists j, tj. split_and!; try done. by apply lookup_app_l_Some.
  - intros s0 i tk r H Hi Hpc.
    apply InvD_callback_continue; [|done|by rewrite Hpc].
    eapply InvD_frame; [..|exact H]; try done; apply H.
  - intros s0 i tk H Hi Hpc. eapply InvD_set_pc; [done..|by rewrite Hpc|done].
  - intros s0 i tk res H Hi Hpc.
    apply InvD_callback_continue; [done..|by rewrite Hpc].
  - intros s0 i tk H Hi Hpc. apply InvD_callback_finish; [done..|by rewrite Hpc].
  - intros s0 i tk H Hi Hpc. eapply InvD_set_pc; [done..|by rewrite Hpc|done].
Qed.

Lemma exec_InvD ls s s' :
  InvD s → exec ls s = Some s' → Clear ∉ ls → Close ∉ ls → InvD s'.
Proof.
  revert s. induction ls as [|l ls IH]; intros s HD Hex Hc1 Hc2; simpl in Hex.
  - by injection Hex as <-.
  - destruct (step s l) as [s1|] eqn:E; [|done].
    apply not_elem_of_cons in Hc1 as [? ?]. apply not_elem_of_cons in Hc2 as [? ?].
    eapply (IH s1); try done. by eapply step_InvD.
Qed.

(** X20. A drained parallel queue is empty.  In a run without [clear] and
    [close], [size()] is the number of the calls of [callback] that have
    not finished (a call whose handler or [outp_callback] threw keeps its
    place for ever), and when the loop of [waitForQueue(true)] ends the
    queue holds no item, [size()] is 0 and a [push] does not have to
    wait. *)
Theorem parallel_drained_queue_is_empty (lim : Z) ls s :
  exec ls (new lim) = Some s →
  Clear ∉ ls → Close ∉ ls →
  size s = Z.of_nat (length (List.filter (fun tk => unfinished (pc tk)) (tasks s)))
  ∧ (queue_busy s = false →
       items s = ∅ ∧ size s = 0 ∧ queue_full s = false).
Proof.
  intros Hex Hc1 Hc2.
  destruct (exec_InvD _ _ _ (new_InvD lim) Hex Hc1 Hc2) as [D1 D2 D3 D4 D5 D6].
  split; [exact D5|]. intros Hbusy.
  destruct (exec_InvN _ _ _ (conj (new_Inv lim) (new_InvN lim)) Hex Hc1 Hc2)
    as [HI HN].
  pose proof (exec_Bound _ _ _ (new_Bound lim) Hex) as HB.
  unfold queue_busy in Hbusy. rewrite D2 in Hbusy. simpl in Hbusy.
  apply negb_false_iff, Nat.eqb_eq in Hbusy.
  pose proof (n_ow _ HN) as How.
  assert (∀ i tk, tasks s !! i = Some tk → unfinished (pc tk) = false) as Hfin.
  { intros i tk Hi. destruct (pc tk) eqn:Epc; try done;
      destruct (n_live _ HN i tk Hi ltac:(by rewrite Epc)) as [Hle _];
      pose proof (inv_torder _ HI i tk Hi); lia. }
  assert (items s = ∅) as Hitems.
  { apply map_eq. intros k. rewrite lookup_empty.
    destruct (items s !! k) as [[o a]|] eqn:Ek; [|done]. exfalso.
    destruct (D4 _ _ _ Ek) as [_ Hlt].
    destruct (D6 k ltac:(by eexists)) as [Hle|(i & tk & Hi & _ & Hu)]; [lia|].
    by rewrite (Hfin i tk Hi) in Hu. }
  assert (size s = 0) as Hsize.
  { unfold size. rewrite D5. unfold unfinished_calls.
    rewrite filter_all_false; [done|].
    intros tk [i Hi]%list_elem_of_lookup. by eapply Hfin. }
  split_and!; [done..|].
  unfold queue_full. rewrite Hitems, map_size_empty, D2. simpl.
  apply Z.leb_gt. pose proof (b_limit _ HB). lia.
Qed.

(** *** No item is passed over *)

(** The invariant of the runs without [clear] and [close] for the loop of
    [work]: the items from [work_order] on are all there, and the handler
    has been called for the numbers below [work_order]. *)
Record InvE s : Prop := {
  e_open : open s = true;
  e_wp : (work_order s ≤ push_order s)%nat;
  e_items : ∀ k o a, items s !! k = Some (o, a) → o = k;
  e_window : ∀ k, (work_order s ≤ k < push_order s)%nat → is_Some (items s !! k);
  e_torder : ∀ i tk, tasks s !! i = Some tk → (order tk < work_order s)%nat;
  e_called : (called (trace s)).*1 = seq 0 (work_order s)
}.

Lemma new_InvE lim : InvE (new (Args := Args) (Result := Result) lim).
Proof. split; simpl; try done. intros k ?. lia. Qed.

Lemma InvE_frame s s' :
  open s' = true → push_order s' = push_order s → work_order s' = work_order s →
  items s' = items s → tasks s' = tasks s → called (trace s') = called (trace s) →
  InvE s → InvE s'.
Proof.
  intros E1 E2 E3 E4 E5 E6 [H1 H2 H3 H4 H5 H6].
  split; rewrite ?E2, ?E3, ?E4, ?E5, ?E6; done.
Qed.

Lemma InvE_set_pc s i p : InvE s → InvE (set_pc i p s).
Proof.
  intros [H1 H2 H3 H4 H5 H6]. split; simpl; try done.
  intros j tk Hj. apply alter_pc_lookup in Hj as (tk0 & Hj & -> & _). by eapply H5.
Qed.

Lemma InvE_callback_finish s i tk :
  InvE s → tasks s !! i = Some tk → InvE (callback_finish i (order tk) s).
Proof.
  intros [H1 H2 H3 H4 H5 H6] Hi. split; simpl; try done.
  - intros k o a. rewrite lookup_delete.
    destruct (decide (order tk = k)); [done|]. apply H3.
  - intros k Hk. rewrite lookup_delete_ne; [by apply H4|].
    specialize (H5 i tk Hi). lia.
  - intros j tj Hj. apply alter_pc_lookup in Hj as (tk0 & Hj & -> & _). by eapply H5.
Qed.

Lemma InvE_log s e :
  (match e with EvCall _ _ => False | _ => True end) → InvE s → InvE (log e s).
Proof.
  intros He H. eapply InvE_frame; [..|exact H]; try done; [apply H|].
  simpl. rewrite called_snoc_pq. destruct e; try done; by rewrite app_nil_r.
Qed.

Lemma InvE_callback_continue s i tk res :
  InvE s → tasks s !! i = Some tk → InvE (callback_continue i (order tk) res s).
Proof.
  intros HE Hi. unfold callback_continue.
  destruct (negb (clearing s) && negb (outp_order s =? order tk)%nat).
  { by apply InvE_set_pc. }
  destruct (clearing s).
  { apply InvE_set_pc. eapply InvE_frame; [..|exact HE]; try done. apply HE. }
  destruct (open s && bool_decide (is_Some (items s !! order tk))).
  - apply InvE_set_pc. by apply InvE_log.
  - by apply InvE_callback_finish.
Qed.

Lemma step_InvE s l s' :
  InvE s → step s l = Some s' → l ≠ Clear → l ≠ Close → InvE s'.
Proof.
  intros HE Hstep Hc1 Hc2.
  refine (step_preserves InvE _ _ _ _ _ _ _ _ _ _ _ _ _ s l s' HE Hstep _ _);
    try done.
  - intros s0 ps H. eapply InvE_frame; [..|exact H]; try done; apply H.
  - intros s0 n H. eapply InvE_frame; [..|exact H]; try done; apply H.
  - intros s0 H. eapply InvE_frame; [..|exact H]; try done; apply H.
  - intros s0 H _ _. eapply InvE_frame; [..|exact H]; try done; apply H.
  - intros s0 a H Ho. by rewrite (e_open _ H) in Ho.
  - intros s0 a [H1 H2 H3 H4 H5 H6] _. split; simpl;
      rewrite ?called_snoc_pq, ?app_nil_r; try done.
    + lia.
    + intros k o a'. rewrite lookup_insert.
      destruct (decide (push_order s0 = k)) as [<-|Hne]; [by intros [= <- <-]|].
      apply H3.
    + intros k Hk. rewrite lookup_insert.
      destruct (decide (push_order s0 = k)) as [<-|Hne]; [by eexists|].
      apply H4. lia.
  - intros s0 H Hlt Hnone. exfalso.
    destruct (e_window _ H (work_order s0)) as [v Hv]; [lia|]. congruence.
  - intros s0 [o a] [H1 H2 H3 H4 H5 H6] _ Hlt Hitem.
    pose proof (H3 _ _ _ Hitem) as ->. unfold callback_start. simpl. rewrite H1.
    split; simpl; rewrite ?called_snoc_pq; try done.
    + intros k Hk. apply H4. lia.
    + intros j tj [Hj|[_ Hj]]%lookup_app_Some.
      * specialize (H5 j tj Hj). lia.
      * apply list_lookup_singleton_Some in Hj as [_ <-]. simpl. lia.
    + rewrite fmap_app, H6. simpl. by rewrite cons_seq, seq_S.
  - intros s0 i tk r H Hi Hpc. apply InvE_callback_continue; [|done].
    by apply InvE_log.
  - intros s0 i tk H Hi Hpc. by apply InvE_set_pc.
  - intros s0 i tk res H Hi Hpc. by apply InvE_callback_continue.
  - intros s0 i tk H Hi Hpc. by apply InvE_callback_finish.
  - intros s0 i tk H Hi Hpc. by apply InvE_set_pc.
Qed.

Lemma exec_InvE ls s s' :
  InvE s → exec ls s = Some s' → Clear ∉ ls → Close ∉ ls → InvE s'.
Proof.
  revert s. induction ls as [|l ls IH]; intros s HE Hex Hc1 Hc2; simpl in Hex.
  - by injection Hex as <-.
  - destruct (step s l) as [s1|] eqn:E; [|done].
    apply not_elem_of_cons in Hc1 as [? ?]. apply not_elem_of_cons in Hc2 as [? ?].
    eapply (IH s1); try done. by eapply step_InvE.
Qed.

(** X21. [work] passes over no item.  In a run without [clear] and
    [close] the handler has been called, at every moment, for exactly the
    first [work_order] of the items that were appended, in their order and
    each with its arguments, and the items that are still to be handed to
    the handler are all in the queue. *)
Theorem parallel_no_item_passed_over (lim : Z) ls s :
  exec ls (new lim) = Some s →
  Clear ∉ ls → Close ∉ ls →
  called (trace s)
  = imap (fun o a => (o, a)) (take (work_order s) (appended (trace s)))
  ∧ (work_order s ≤ length (appended (trace s)))%nat
  ∧ ∀ (k : nat) a, (work_order s ≤ k)%nat → appended (trace s) !! k = Some a →
      items s !! k = Some (k, a).
Proof.
  intros Hex Hc1 Hc2.
  destruct (exec_InvE _ _ _ (new_InvE lim) Hex Hc1 Hc2) as [E1 E2 E3 E4 E5 E6].
  destruct (exec_InvC _ _ _ (new_InvC lim) Hex) as [C1 C2 C3].
  destruct (exec_InvR _ _ _ (conj (new_Inv lim) (new_InvR lim)) Hex) as [HI HR].
  pose proof (r_len _ HR) as Hlen.
  split_and!.
  - apply list_eq. intros j. rewrite list_lookup_imap.
    destruct (called (trace s) !! j) as [[o a]|] eqn:Ej.
    + assert (o = j ∧ (j < work_order s)%nat) as [-> Hlt].
      { assert ((called (trace s)).*1 !! j = Some o) as Hj
          by (by rewrite list_lookup_fmap, Ej).
        rewrite E6 in Hj. apply lookup_seq in Hj. lia. }
      destruct (C2 j a) as (_ & i & p & Hi); [by eapply list_elem_of_lookup_2|].
      destruct (r_task _ HR i _ Hi) as [Ha _]. simpl in Ha.
      by rewrite lookup_take_lt, Ha.
    + assert (work_order s ≤ j)%nat as Hge.
      { apply lookup_ge_None in Ej.
        rewrite <- (length_fmap fst), E6, length_seq in Ej. lia. }
      by rewrite lookup_take_ge.
  - lia.
  - intros k a Hk Ha.
    assert (k < push_order s)%nat as Hlt.
    { apply lookup_lt_Some in Ha. lia. }
    destruct (E4 k ltac:(lia)) as [[o a'] Hi].
    pose proof (E3 _ _ _ Hi) as ->.
    pose proof (r_items _ HR _ _ _ Hi) as Ha'. congruence.
Qed.

End ParalelQueueMore.

Section ParalelQueueMoreRuns.
Import ParalelQueue.

Ltac not_in_run :=
  let Hin := fresh in
  intros Hin;
  repeat (apply elem_of_cons in Hin as [?|Hin]; [done|]);
  by apply elem_of_nil in Hin.

Lemma parallel_concurrency_bound_witness :
  let ls := [Push "a"; PushResume 0; Push "b"; PushResume 0; Push "c"; PushPoll 0;
             FuncDone 1 "rb"]%string in
  ∃ s : t string string,
    exec ls (new 2) = Some s ∧ size s = 2 ∧ max s = 2 ∧
    Z.of_nat (length (List.filter (fun tk => in_flight (pc tk)) (tasks s))) ≤ size s.
Proof.
  intros ls.
  pose (s := default (new 0) (exec (Args := string) (Result := string) ls (new 2))).
  assert (exec ls (new 2) = Some s) as Hex by (vm_compute; reflexivity).
  exists s. split_and!; [exact Hex|vm_compute; reflexivity..|].
  exact (proj1 (parallel_concurrency_bound 2 ls s Hex)).
Defined.

Lemma parallel_closed_queue_is_idle_witness :
  let ls := [Push "a"; PushResume 0; Push "b"; PushResume 0; Close]%string in
  let ls' := [FuncDone 0 "ra"; FuncDone 1 "rb"; Push "c"; PushResume 0]%string in
  ∃ s s' : t string string,
    exec ls (new 2) = Some s ∧ exec ls' s = Some s' ∧
    outputs (trace s') = [] ∧ appended (trace s') = ["a"; "b"]%string.
Proof.
  intros ls ls'.
  pose (s := default (new 0) (exec (Args := string) (Result := string) ls (new 2))).
  pose (s' := default (new 0) (exec ls' s)).
  assert (exec ls (new 2) = Some s) as Hex by (vm_compute; reflexivity).
  assert (exec ls' s = Some s') as Hex' by (vm_compute; reflexivity).
  assert (open s = false) as Ho by (vm_compute; reflexivity).
  exists s, s'.
  destruct (parallel_closed_queue_is_idle 2 ls ls' s s' Hex Ho Hex')
    as (_ & _ & _ & _ & Hout & Happ & _).
  split_and!; [exact Hex|exact Hex'|rewrite Hout|rewrite Happ]; vm_compute; reflexivity.
Defined.

Lemma parallel_wait_for_empty_witness :
  let ls := [Push "a"; PushResume 0; Push "b"; PushResume 0;
             FuncDone 1 "rb"; FuncDone 0 "ra"; OutpDone 0; TurnPoll 1;
             OutpDone 1]%string in
  ∃ s : t string string,
    exec ls (new 2) = Some s ∧ queue_busy s = false ∧
    emitted (trace s) = [0; 1]%nat.
Proof.
  intros ls.
  pose (s := default (new 0) (exec (Args := string) (Result := string) ls (new 2))).
  assert (exec ls (new 2) = Some s) as Hex by (vm_compute; reflexivity).
  assert (queue_busy s = false) as Hb by (vm_compute; reflexivity).
  exists s.
  destruct (parallel_wait_for_empty 2 ls s Hex) as (He & _); [not_in_run..|exact Hb|].
  split_and!; [exact Hex|exact Hb|]. rewrite He. vm_compute. reflexivity.
Defined.

Lemma parallel_handler_started_in_order_witness :
  let ls := [Push "a"; PushResume 0; Push "b"; PushResume 0; Clear;
             Push "c"; PushResume 0]%string in
  ∃ s : t string string,
    exec ls (new 3) = Some s ∧
    called (trace s) = [(0, "a"); (1, "b"); (2, "c")]%string%nat ∧
    StronglySorted lt (called (trace s)).*1.
Proof.
  intros ls.
  pose (s := default (new 0) (exec (Args := string) (Result := string) ls (new 3))).
  assert (exec ls (new 3) = Some s) as Hex by (vm_compute; reflexivity).
  exists s. split_and!; [exact Hex|vm_compute; reflexivity|].
  exact (proj1 (parallel_handler_started_in_order 3 ls s Hex)).
Defined.

Lemma parallel_items_within_limit_witness :
  let ls := [Push "a"; PushResume 0; Push "b"; PushResume 0; Push "c"; PushPoll 0;
             FuncDone 0 "ra"; OutpDone 0; PushPoll 0; PushResume 0]%string in
  ∃ s : t string string,
    exec ls (new 2) = Some s ∧ base.size (items s) = 2%nat ∧
    Z.of_nat (base.size (items s)) ≤ max s.
Proof.
  intros ls.
  pose (s := default (new 0) (exec (Args := string) (Result := string) ls (new 2))).
  assert (exec ls (new 2) = Some s) as Hex by (vm_compute; reflexivity).
  assert (one_push_at_a_time ls (new (Args := string) (Result := string) 2) = true)
    as Haw by (vm_compute; reflexivity).
  exists s. split_and!; [exact Hex|vm_compute; reflexivity|].
  exact (proj1 (parallel_items_within_limit 2 ls s Hex Haw)).
Defined.

Lemma parallel_drained_queue_is_empty_witness :
  let ls := [Push "a"; PushResume 0; Push "b"; PushResume 0;
             FuncDone 1 "rb"; FuncDone 0 "ra"; OutpDone 0; TurnPoll 1;
             OutpDone 1]%string in
  ∃ s : t string string,
    exec ls (new 2) = Some s ∧ queue_busy s = false ∧ items s = ∅ ∧ size s = 0.
Proof.
  intros ls.
  pose (s := default (new 0) (exec (Args := string) (Result := string) ls (new 2))).
  assert (exec ls (new 2) = Some s) as Hex by (vm_compute; reflexivity).
  assert (queue_busy s = false) as Hb by (vm_compute; reflexivity).
  exists s.
  destruct (parallel_drained_queue_is_empty 2 ls s Hex) as (_ & Hd); [not_in_run..|].
  destruct (Hd Hb) as (Hi & Hs & _).
  split_and!; [exact Hex|exact Hb|exact Hi|exact Hs].
Defined.

Lemma parallel_no_item_passed_over_witness :
  let ls := [Push "a"; PushResume 0; Push "b"; PushResume 0; Push "c"; PushPoll 0;
             FuncDone 1 "rb"]%string in
  ∃ s : t string string,
    exec ls (new 2) = Some s ∧
    called (trace s) = [(0, "a"); (1, "b")]%string%nat.
Proof.
  intros ls.
  pose (s := default (new 0) (exec (Args := string) (Result := string) ls (new 2))).
  assert (exec ls (new 2) = Some s) as Hex by (vm_compute; reflexivity).
  exists s.
  destruct (parallel_no_item_passed_over 2 ls s Hex) as (Hc & _); [not_in_run..|].
  split; [exact Hex|]. rewrite Hc. vm_compute. reflexivity.
Defined.

End ParalelQueueMoreRuns.
